(** * Heerlen interactive map: geofencing, proximity and camera-follow core

    A shallow embedding of the geolocation part of [src/app.js]
    (class [GeolocationManager], the CMS loaders [getGeoData] / [getARData]
    and the [moveend] drift guard), with the properties of the written
    specification stated and settled against it.

    JavaScript numbers are read with their real-number semantics: a double
    is a real, [Math.sin], [Math.cos], [Math.sqrt] are the real functions
    and [Math.atan2] is the two-argument arctangent.  Rounding, underflow,
    NaN and infinities are outside this reading, so it is used for what the
    code computes up to rounding: comparisons of its own results, and values
    away from the places where rounding changes the outcome (a haversine
    term next to 1, a divisor next to 0).  Where the outcome hangs on the
    exact double, a result of exactly zero, the formula is read in IEEE 754
    double precision instead (module [Double]).

    The geolocate control belongs to the map library.  Of its behaviour the
    model keeps what the code relies on: it delivers the events the
    listeners are installed for, and [trigger()] toggles it, running the
    listener of the event it fires before it returns. *)

From Stdlib Require Import Floats.
From Stdlib Require Import Reals Lra Lia List Bool String ZArith Arith DecimalString DecimalZ.
From Stdlib Require Import Machin.
Import ListNotations.

Local Open Scope R_scope.

(** ** Numbers and the [Math] object *)

(** [x <= y] and [x > y] of the source, as booleans. *)
Definition num_le (x y : R) : bool := if Rle_dec x y then true else false.
Definition num_gt (x y : R) : bool := if Rgt_dec x y then true else false.

Module Math.

Definition PI : R := Rtrigo1.PI.
Definition sin (x : R) : R := Rtrigo_def.sin x.
Definition cos (x : R) : R := Rtrigo_def.cos x.
Definition sqrt (x : R) : R := R_sqrt.sqrt x.

(** [Math.atan2(y, x)]: the angle of the point [(x, y)], in (-PI, PI]. *)
Definition atan2 (y x : R) : R :=
  if Rlt_dec 0 x then atan (y / x)
  else if Rlt_dec x 0 then
    (if Rle_dec 0 y then atan (y / x) + Rtrigo1.PI else atan (y / x) - Rtrigo1.PI)
  else if Rlt_dec 0 y then Rtrigo1.PI / 2
  else if Rlt_dec y 0 then - (Rtrigo1.PI / 2)
  else 0.

(** [Math.round(x)]: the nearest integer, halves rounded up. *)
Definition round (x : R) : Z := Int_part (x + / 2).

End Math.

(** ** Positions *)

(** A GeoJSON position, the array [[lng, lat]]: [fst] is index 0 and
    [snd] is index 1. *)
Definition Coord : Type := (R * R)%type.

(** The object returned by [map.getCenter()]. *)
Record LngLat : Type := mkLngLat { lng : R; lat : R }.

(** ** Configuration *)

Module CONFIG.
Module MAP.
Definition center : Coord := (5.979642, 50.887634).
Definition zoom : R := 15.5.
Definition pitch : R := 45.
Definition bearing : R := -17.6.
Module boundary.
Definition center : Coord := (5.977105864037915, 50.88774161029858).
Definition radius : R := 2.2.
End boundary.
End MAP.
End CONFIG.

(** ** Great-circle distance *)

Definition toRad (deg : R) : R := deg * (Math.PI / 180).

(** The haversine term [a] of [calculateDistance]. *)
Definition haversine_a (lat1 lon1 lat2 lon2 : R) : R :=
  let dLat := toRad (lat2 - lat1) in
  let dLon := toRad (lon2 - lon1) in
  Math.sin (dLat / 2) * Math.sin (dLat / 2) +
  Math.cos (toRad lat1) * Math.cos (toRad lat2) *
  Math.sin (dLon / 2) * Math.sin (dLon / 2).

(** [calculateDistance(lat1, lon1, lat2, lon2)], in km.  The method of
    [GeolocationManager] and the global function of the same name have the
    same body. *)
Definition calculateDistance (lat1 lon1 lat2 lon2 : R) : R :=
  let a := haversine_a lat1 lon1 lat2 lon2 in
  let c := 2 * Math.atan2 (Math.sqrt a) (Math.sqrt (1 - a)) in
  6371 * c.

(** ** The distance in double precision *)

(** [calculateDistance] with IEEE 754 binary64 arithmetic.  ECMAScript
    leaves [Math.sin], [Math.cos] and [Math.atan2] to the implementation
    ("implementation-approximated") and fixes their results at special
    arguments only: zeros, NaN and infinities.  A call at any other argument
    has no result here ([None]), so a distance this reading returns is the
    one every conforming engine returns.  [Math.sqrt] is the IEEE square
    root. *)
Module Double.

Local Open Scope float_scope.

(** [Math.PI], the double nearest to pi: 3.141592653589793. *)
Definition PI : float := 0x1.921fb54442d18p+1.

(** [Number.MIN_VALUE], the smallest positive double: 5e-324. *)
Definition MIN_VALUE : float := 0x1p-1074.

Definition zero : float := 0.

(** [Math.sin(x)]: NaN for NaN and the infinities, [x] itself for +0 and
    -0. *)
Definition sin (x : float) : option float :=
  match classify x with
  | FloatClass.PZero | FloatClass.NZero => Some x
  | FloatClass.NaN | FloatClass.PInf | FloatClass.NInf => Some nan
  | _ => None
  end.

(** [Math.cos(x)]: NaN for NaN and the infinities, 1 for +0 and -0. *)
Definition cos (x : float) : option float :=
  match classify x with
  | FloatClass.PZero | FloatClass.NZero => Some 1
  | FloatClass.NaN | FloatClass.PInf | FloatClass.NInf => Some nan
  | _ => None
  end.

(** [Math.atan2(y, x)]: NaN if either argument is NaN; for [y] a zero and
    [x] positive or +0, that zero. *)
Definition atan2 (y x : float) : option float :=
  if is_nan y || is_nan x then Some nan
  else
    match classify y with
    | FloatClass.PZero | FloatClass.NZero =>
        if 0 <? x then Some y
        else match classify x with
             | FloatClass.PZero => Some y
             | _ => None
             end
    | _ => None
    end.

Definition sqrt (x : float) : float := PrimFloat.sqrt x.

Definition bind {A B : Type} (o : option A) (k : A -> option B) : option B :=
  match o with
  | Some a => k a
  | None => None
  end.

Definition toRad (deg : float) : float := deg * (PI / 180).

(** The body of [calculateDistance], every call in source order. *)
Definition calculateDistance (lat1 lon1 lat2 lon2 : float) : option float :=
  let dLat := toRad (lat2 - lat1) in
  let dLon := toRad (lon2 - lon1) in
  bind (sin (dLat / 2)) (fun sinLat =>
  bind (sin (dLat / 2)) (fun sinLat' =>
  bind (cos (toRad lat1)) (fun cos1 =>
  bind (cos (toRad lat2)) (fun cos2 =>
  bind (sin (dLon / 2)) (fun sinLon =>
  bind (sin (dLon / 2)) (fun sinLon' =>
  let a := sinLat * sinLat' + cos1 * cos2 * sinLon * sinLon' in
  bind (atan2 (sqrt a) (sqrt (1 - a))) (fun angle =>
  let c := 2 * angle in
  Some (6371 * c)))))))).

(** [distanceKm(a, b)] on positions [[lng, lat]]. *)
Definition distanceKm (a b : float * float) : option float :=
  calculateDistance (snd a) (fst a) (snd b) (fst b).

End Double.

(** ** Features, markers and commands to the rendering collaborators *)

(** A value stored in a feature's [properties] object. *)
Inductive PropValue : Type :=
| PStr (s : string)
| PNum (n : nat).

(** A GeoJSON point feature of [mapLocations.features]; [properties] is the
    object literal, keys in source order. *)
Record Feature : Type := mkFeature {
  coordinates : Coord;
  properties : list (string * PropValue)
}.

(** Property access [obj[key]]; [None] is [undefined]. *)
Fixpoint lookup {V : Type} (key : string) (obj : list (string * V)) : option V :=
  match obj with
  | [] => None
  | (k, v) :: rest => if String.eqb k key then Some v else lookup key rest
  end.

(** [v === s] for a property value [v] and a string [s]. *)
Definition strict_eq_string (v : option PropValue) (s : string) : bool :=
  match v with
  | Some (PStr t) => String.eqb t s
  | _ => false
  end.

(** A [mapboxgl.Marker] made by [updateDistanceMarkers].  [markerId] is the
    identity of the object (its allocation number); [markerMeters] is the
    number shown in its element, [Math.round(distance)]. *)
Record Marker : Type := mkMarker {
  markerId : nat;
  markerMeters : Z;
  markerLngLat : Coord;
  markerFeature : Feature
}.

(** The options object of [map.flyTo] / [map.easeTo]; an absent key is
    [None]. *)
Record CameraOptions : Type := mkCamera {
  cam_center : option Coord;
  cam_zoom : option R;
  cam_pitch : option R;
  cam_bearing : option R;
  cam_duration : option R;
  cam_speed : option R;
  cam_curve : option R;
  cam_essential : bool
}.

(** What the code asks of the map view, the geolocate control and the DOM. *)
Inductive Command : Type :=
| MapFlyTo (o : CameraOptions)
| MapEaseTo (o : CameraOptions)
| SourceSetData (sourceId : string) (ring : list (option Coord))
| LayerVisibility (layerId : string) (visibility : string)
| FillOpacityRamp (layerId : string)
| BoundaryHighlight
| GeolocateTrigger
| BoundaryPopup
| Notification (message : string)
| ConsoleError
| ConsoleLog (message : string)
| OverlayAppend (id : string)
| OverlayFade (id : string) (seconds : R).

(** ** State *)

(** The fields of a [GeolocationManager] instance. *)
Record GeolocationManagerFields : Type := mkGM {
  searchRadiusId : string;
  searchRadiusOuterId : string;
  radiusInMeters : R;
  boundaryLayerIds : list string;
  distanceMarkers : list Marker;
  isPopupOpen : bool;
  centerPoint : Coord;
  boundaryRadius : R;
  isFirstLocation : bool;
  isTracking : bool
}.

(** Everything the modelled code reads or writes: the manager, the global
    feature collection, what it observes of the map view, and the commands
    issued so far.  The camera ([map_center], [map_easing]) belongs to the
    map view: the code reads it and sends [MapFlyTo] / [MapEaseTo], the map
    view moves it. *)
Record World : Type := mkWorld {
  gm : GeolocationManagerFields;
  features : list Feature;
  map_center : LngLat;
  map_easing : bool;
  map_loaded : bool;
  map_markers : list Marker;
  markers_created : nat;
  trace : list Command
}.

Definition with_gm (g : GeolocationManagerFields) (w : World) : World :=
  mkWorld g (features w) (map_center w) (map_easing w) (map_loaded w)
          (map_markers w) (markers_created w) (trace w).

Definition with_features (fs : list Feature) (w : World) : World :=
  mkWorld (gm w) fs (map_center w) (map_easing w) (map_loaded w)
          (map_markers w) (markers_created w) (trace w).

Definition with_camera (c : LngLat) (easing : bool) (w : World) : World :=
  mkWorld (gm w) (features w) c easing (map_loaded w)
          (map_markers w) (markers_created w) (trace w).

Definition with_markers (ms : list Marker) (n : nat) (w : World) : World :=
  mkWorld (gm w) (features w) (map_center w) (map_easing w) (map_loaded w)
          ms n (trace w).

Definition with_trace (t : list Command) (w : World) : World :=
  mkWorld (gm w) (features w) (map_center w) (map_easing w) (map_loaded w)
          (map_markers w) (markers_created w) t.

Definition set_distanceMarkers (ms : list Marker) (g : GeolocationManagerFields) :=
  mkGM (searchRadiusId g) (searchRadiusOuterId g) (radiusInMeters g)
       (boundaryLayerIds g) ms (isPopupOpen g) (centerPoint g)
       (boundaryRadius g) (isFirstLocation g) (isTracking g).

Definition set_isPopupOpen (b : bool) (g : GeolocationManagerFields) :=
  mkGM (searchRadiusId g) (searchRadiusOuterId g) (radiusInMeters g)
       (boundaryLayerIds g) (distanceMarkers g) b (centerPoint g)
       (boundaryRadius g) (isFirstLocation g) (isTracking g).

Definition set_isFirstLocation (b : bool) (g : GeolocationManagerFields) :=
  mkGM (searchRadiusId g) (searchRadiusOuterId g) (radiusInMeters g)
       (boundaryLayerIds g) (distanceMarkers g) (isPopupOpen g) (centerPoint g)
       (boundaryRadius g) b (isTracking g).

Definition set_isTracking (b : bool) (g : GeolocationManagerFields) :=
  mkGM (searchRadiusId g) (searchRadiusOuterId g) (radiusInMeters g)
       (boundaryLayerIds g) (distanceMarkers g) (isPopupOpen g) (centerPoint g)
       (boundaryRadius g) (isFirstLocation g) b.

(** ** A state monad for the handlers *)

Definition M (A : Type) : Type := World -> A * World.

Definition ret {A : Type} (a : A) : M A := fun w => (a, w).

Definition bind {A B : Type} (c : M A) (k : A -> M B) : M B :=
  fun w => let (a, w') := c w in k a w'.

Notation "x <- c ;; k" := (bind c (fun x => k))
  (at level 61, c at next level, right associativity).
Notation "c ;; k" := (bind c (fun _ => k))
  (at level 61, right associativity).

Definition exec {A : Type} (c : M A) (w : World) : World := snd (c w).

Definition get_this : M GeolocationManagerFields := fun w => (gm w, w).
Definition modify_this (f : GeolocationManagerFields -> GeolocationManagerFields) : M unit :=
  fun w => (tt, with_gm (f (gm w)) w).
Definition emit (c : Command) : M unit :=
  fun w => (tt, with_trace (trace w ++ [c]) w).

(** [xs.forEach(f)] and [xs.forEach((x, index) => ...)]. *)
Fixpoint forEach {A : Type} (xs : list A) (f : A -> M unit) : M unit :=
  match xs with
  | [] => ret tt
  | x :: rest => f x ;; forEach rest f
  end.

Fixpoint forEach_from {A : Type} (index : nat) (xs : list A)
         (f : A -> nat -> M unit) : M unit :=
  match xs with
  | [] => ret tt
  | x :: rest => f x index ;; forEach_from (S index) rest f
  end.

(** What the code observes of the map view. *)
Definition map_getCenter : M LngLat := fun w => (map_center w, w).
Definition map_isEasing : M bool := fun w => (map_easing w, w).
(** The sources [search-radius], [search-radius-outer], [boundary-circle]
    and the layers [boundary-fill], [boundary-line] (and the two radius
    layers) are all added by the [load] callbacks; no layer
    [boundary-label] is ever added. *)
Definition hasSource (loaded : bool) (sourceId : string) : bool :=
  loaded && (String.eqb sourceId "search-radius" || String.eqb sourceId "search-radius-outer"
             || String.eqb sourceId "boundary-circle").
Definition hasLayer (loaded : bool) (layerId : string) : bool :=
  loaded && (String.eqb layerId "boundary-fill" || String.eqb layerId "boundary-line"
             || String.eqb layerId "search-radius" || String.eqb layerId "search-radius-outer").
Definition map_getSource (sourceId : string) : M bool :=
  fun w => (hasSource (map_loaded w) sourceId, w).
Definition map_getLayer (layerId : string) : M bool :=
  fun w => (hasLayer (map_loaded w) layerId, w).

(** [marker.remove()]: detach that marker object from the map. *)
Definition Marker_remove (m : Marker) : M unit :=
  fun w => (tt, with_markers
                  (filter (fun m' => negb (Nat.eqb (markerId m') (markerId m))) (map_markers w))
                  (markers_created w) w).

(** [new mapboxgl.Marker({element}).setLngLat(c).addTo(map)]. *)
Definition Marker_new (meters : Z) (c : Coord) (f : Feature) : M Marker :=
  fun w => let m := mkMarker (markers_created w) meters c f in
           (m, with_markers (map_markers w ++ [m]) (S (markers_created w)) w).

(** ** class GeolocationManager *)

Module GeolocationManager.

(** The constructor; [setupGeolocateControl] sets the two flags. *)
Definition new : GeolocationManagerFields :=
  {| searchRadiusId := "search-radius";
     searchRadiusOuterId := "search-radius-outer";
     radiusInMeters := 25;
     boundaryLayerIds := ["boundary-fill"; "boundary-line"; "boundary-label"]%string;
     distanceMarkers := [];
     isPopupOpen := false;
     centerPoint := CONFIG.MAP.boundary.center;
     boundaryRadius := CONFIG.MAP.boundary.radius;
     isFirstLocation := true;
     isTracking := false |}.

(** The method [calculateDistance]: the haversine formula. *)
Definition calculateDistance (lat1 lon1 lat2 lon2 : R) : R :=
  let dLat := toRad (lat2 - lat1) in
  let dLon := toRad (lon2 - lon1) in
  let a :=
    Math.sin (dLat / 2) * Math.sin (dLat / 2) +
    Math.cos (toRad lat1) * Math.cos (toRad lat2) *
    Math.sin (dLon / 2) * Math.sin (dLon / 2) in
  let c := 2 * Math.atan2 (Math.sqrt a) (Math.sqrt (1 - a)) in
  6371 * c.

Definition isWithinBoundary (this : GeolocationManagerFields) (position : Coord) : bool :=
  num_le (calculateDistance (snd position) (fst position)
                            (snd (centerPoint this)) (fst (centerPoint this)))
         (boundaryRadius this).

(** The closure [generateCircle] of [updateSearchRadius]: [pointCount]
    points, then [points.push(points[0])].  The longitude scale divides by
    [111.32 * cos(lat)]; in the real-number reading that divisor is 0 at a
    pole, where the quotient has no counterpart in the code (in doubles the
    cosine of 90 degrees is 6.1e-17 and the quotient is huge), so a
    property of [degreesLongPerKm] is stated for a non-zero divisor
    only. *)
Definition generateCircle (center : Coord) (radiusInM : R) (pointCount : nat)
  : list (option Coord) :=
  let point := mkLngLat (fst center) (snd center) in
  let radiusKm := radiusInM / 1000 in
  let degreesLongPerKm := radiusKm / (111.32 * Math.cos (lat point * Math.PI / 180)) in
  let degreesLatPerKm := radiusKm / 110.574 in
  let points :=
    map (fun i : nat =>
           let angle := (INR i / INR pointCount) * (2 * Math.PI) in
           let dx := degreesLongPerKm * Math.cos angle in
           let dy := degreesLatPerKm * Math.sin angle in
           (lng point + dx, lat point + dy))
        (seq 0 pointCount) in
  map Some points ++ [nth_error points 0].

(** [createBoundaryCircle]: the ring of the returned polygon; the loop
    runs for [i = 0 .. 64] inclusive.  The longitude scale is the one of
    [generateCircle]. *)
Definition createBoundaryCircle (this : GeolocationManagerFields) : list Coord :=
  let center := mkLngLat (fst (centerPoint this)) (snd (centerPoint this)) in
  let radiusKm := boundaryRadius this in
  let degreesLongPerKm := radiusKm / (111.32 * Math.cos (lat center * Math.PI / 180)) in
  let degreesLatPerKm := radiusKm / 110.574 in
  map (fun i : nat =>
         let angle := (INR i / 64) * (2 * Math.PI) in
         let dx := degreesLongPerKm * Math.cos angle in
         let dy := degreesLatPerKm * Math.sin angle in
         (lng center + dx, lat center + dy))
      (seq 0 65).

Definition updateSearchRadius (center : Coord) : M unit :=
  this <- get_this ;;
  present <- map_getSource (searchRadiusId this) ;;
  if negb present then ret tt
  else
    let circleCoords := generateCircle center (radiusInMeters this) 64 in
    forEach [searchRadiusId this; searchRadiusOuterId this]
            (fun sourceId => emit (SourceSetData sourceId circleCoords)).

Definition clearSearchRadius : M unit :=
  this <- get_this ;;
  present <- map_getSource (searchRadiusId this) ;;
  if present then
    forEach [searchRadiusId this; searchRadiusOuterId this]
            (fun sourceId => emit (SourceSetData sourceId []))
  else ret tt.

(** The body of the [forEach] over [mapLocations.features]. *)
Definition addDistanceMarker (userPosition : Coord) (feature : Feature) : M unit :=
  this <- get_this ;;
  let featureCoords := coordinates feature in
  let distance := 1000 * calculateDistance (snd userPosition) (fst userPosition)
                                           (snd featureCoords) (fst featureCoords) in
  if num_le distance (radiusInMeters this) then
    marker <- Marker_new (Math.round distance) featureCoords feature ;;
    modify_this (fun g => set_distanceMarkers (distanceMarkers g ++ [marker]) g)
  else ret tt.

(** [this.distanceMarkers] is an array, hence truthy: the clearing branch
    is always taken. *)
Definition updateDistanceMarkers (userPosition : Coord) : M unit :=
  this <- get_this ;;
  forEach (distanceMarkers this) Marker_remove ;;
  modify_this (set_distanceMarkers []) ;;
  fs <- (fun w => (features w, w)) ;;
  forEach fs (addDistanceMarker userPosition).

Definition showBoundaryPopup : M unit :=
  this <- get_this ;;
  emit BoundaryPopup ;;
  present <- map_getLayer "boundary-fill" ;;
  (if present then emit BoundaryHighlight else ret tt) ;;
  emit (MapFlyTo (mkCamera (Some (centerPoint this)) (Some 14) (Some 0) (Some 0)
                           (Some 1500) None None false)).

Definition showBoundaryLayers : M unit :=
  this <- get_this ;;
  forEach (boundaryLayerIds this)
          (fun layerId =>
             present <- map_getLayer layerId ;;
             if present then
               emit (LayerVisibility layerId "visible") ;;
               if String.eqb layerId "boundary-fill" then emit (FillOpacityRamp layerId)
               else ret tt
             else ret tt).

(** The fields of [position.coords] that the code reads; [heading] may be
    [null] ([None]). *)
Record Position : Type := mkPosition {
  longitude : R;
  latitude : R;
  heading : option R
}.

(** [position.coords.heading || 0]. *)
Definition heading_or_0 (position : Position) : R :=
  match heading position with
  | Some h => h
  | None => 0
  end.

(** The camera command of the first fix of a session. *)
Definition flyToUser (position : Position) : Command :=
  MapFlyTo (mkCamera (Some (longitude position, latitude position)) (Some 17.5) (Some 45)
                     (Some (heading_or_0 position)) (Some 2000) None None false).

(** The camera command of a later fix. *)
Definition easeToUser (userPosition : Coord) : Command :=
  MapEaseTo (mkCamera (Some userPosition) None None None (Some 1000) None None false).

(** The listeners of [trackuserlocationstart] and [trackuserlocationend]
    installed by [setupGeolocateControl]. *)
Definition on_trackuserlocationstart : M unit :=
  emit (ConsoleLog "Location tracking started") ;;
  modify_this (set_isTracking true) ;;
  showBoundaryLayers.

Definition on_trackuserlocationend : M unit :=
  emit (ConsoleLog "Location tracking ended") ;;
  modify_this (set_isTracking false) ;;
  modify_this (set_isFirstLocation true) ;;
  emit (MapEaseTo (mkCamera None None (Some 45) (Some 0) None None None false)) ;;
  clearSearchRadius ;;
  this <- get_this ;;
  forEach (distanceMarkers this) Marker_remove ;;
  modify_this (set_distanceMarkers []).

(** [this.geolocateControl.trigger()].  The control is created with
    [trackUserLocation: true], which makes it a toggle: triggered while it
    follows the user it switches off and fires [trackuserlocationend];
    triggered while it is off or in the background it switches (back) on
    and fires [trackuserlocationstart].  The event is fired, and its
    listener run, before [trigger] returns.  [this.isTracking] is written
    by these two listeners only, so it tells on which side the toggle
    is. *)
Definition geolocateControl_trigger : M unit :=
  emit GeolocateTrigger ;;
  this <- get_this ;;
  if isTracking this then on_trackuserlocationend
  else on_trackuserlocationstart.

Definition handleUserLocation (position : Position) : M unit :=
  let userPosition := (longitude position, latitude position) in
  this <- get_this ;;
  if isWithinBoundary this userPosition then
    updateSearchRadius userPosition ;;
    updateDistanceMarkers userPosition ;;
    this <- get_this ;;
    if negb (isPopupOpen this) then
      if isFirstLocation this then
        emit (flyToUser position) ;;
        modify_this (set_isFirstLocation false)
      else
        mapCenter <- map_getCenter ;;
        let distanceChange := calculateDistance (lat mapCenter) (lng mapCenter)
                                                (snd userPosition) (fst userPosition) in
        if num_gt distanceChange 0.05 then emit (easeToUser userPosition)
        else ret tt
    else ret tt
  else
    geolocateControl_trigger ;;
    showBoundaryPopup.

(** The object literal [errorMessages]. *)
Definition errorMessages : list (string * string) :=
  [ ("1", "Locatie toegang geweigerd. Schakel het in bij je instellingen.");
    ("2", "Locatie niet beschikbaar. Controleer je apparaat instellingen.");
    ("3", "Verzoek verlopen. Probeer opnieuw.");
    ("default", "Er is een fout opgetreden bij het ophalen van je locatie.") ]%string.

(** The property key of an integer error code. *)
Definition key_of_code (code : Z) : string :=
  NilZero.string_of_int (Z.to_int code).

(** [a || b] on a possibly undefined string: the empty string is falsy. *)
Definition or_default (a : option string) (b : option string) : option string :=
  match a with
  | Some s => if String.eqb s "" then b else Some s
  | None => b
  end.

Definition errorMessage (code : Z) : option string :=
  or_default (lookup (key_of_code code) errorMessages) (lookup "default"%string errorMessages).

(** [showNotification]: the element is appended and removed after 5 s. *)
Definition showNotification (message : option string) : M unit :=
  match message with
  | Some m => emit (Notification m)
  | None => emit (Notification "undefined")
  end.

Definition handleGeolocationError (code : Z) : M unit :=
  emit ConsoleError ;;
  showNotification (errorMessage code).

(** The listener of [trackuserlocationupdate] installed by
    [setupGeolocateControl]. *)
Definition on_trackuserlocationupdate (position : Position) : M unit :=
  this <- get_this ;;
  if negb (isPopupOpen this) && isTracking this then
    emit (MapEaseTo (mkCamera None None None (Some (heading_or_0 position))
                              (Some 0) None None false))
  else ret tt.

End GeolocationManager.

(** ** Data loading *)

(** A child node of a CMS list: [value sel] is
    [element.querySelector(sel).value] (or [.innerHTML]), and
    [parseFloat_value sel] is [parseFloat] of it. *)
Record Element : Type := mkElement {
  value : string -> string;
  parseFloat_value : string -> R
}.

Definition some_has_id (fs : list Feature) (locationID : string) : bool :=
  existsb (fun feat => strict_eq_string (lookup "id" (properties feat)) locationID) fs.

Definition locationFeature (element : Element) (index : nat) : Feature :=
  {| coordinates := (parseFloat_value element "#locationLongitude",
                     parseFloat_value element "#locationLatitude");
     properties :=
       [ ("id", PStr (value element "#locationID"));
         ("description", PStr (value element ".locations-map_card"));
         ("arrayID", PNum index);
         ("color", PStr (value element "#ondernemerkleur"));
         ("name", PStr (value element "#name"));
         ("icon", PStr (value element "#icon"));
         ("image", PStr (value element "#image"));
         ("category", PStr (value element "#category"));
         ("telefoonummer", PStr (value element "#telefoonnummer"));
         ("locatie", PStr (value element "#locatie"));
         ("maps", PStr (value element "#maps"));
         ("website", PStr (value element "#website"));
         ("maandag", PStr (value element "#maandag"));
         ("dinsdag", PStr (value element "#dinsdag"));
         ("woensdag", PStr (value element "#woensdag"));
         ("donderdag", PStr (value element "#donderdag"));
         ("vrijdag", PStr (value element "#vrijdag"));
         ("zaterdag", PStr (value element "#zaterdag"));
         ("zondag", PStr (value element "#zondag")) ]%string |}.

Definition push_feature (feature : Feature) : M unit :=
  fun w => (tt, with_features (features w ++ [feature]) w).

(** [getGeoData], over the children of [#location-list]. *)
Definition getGeoData (location_list : list Element) : M unit :=
  forEach_from 0 location_list
    (fun element index =>
       let locationID := value element "#locationID" in
       let feature := locationFeature element index in
       fs <- (fun w => (features w, w)) ;;
       if negb (some_has_id fs locationID) then push_feature feature
       else ret tt).

Definition arFeature (element : Element) (index : nat) : Feature :=
  {| coordinates := (parseFloat_value element "#longitude_ar",
                     parseFloat_value element "#latitude_ar");
     properties :=
       [ ("type", PStr "ar");
         ("name", PStr (value element "#name_ar"));
         ("slug", PStr (value element "#slug_ar"));
         ("description", PStr (value element "#description_ar"));
         ("arrayID", PNum index);
         ("image", PStr (value element "#image_ar"));
         ("color", PStr "black");
         ("link_ar", PStr (value element "#link_ar"));
         ("icon", PStr (value element "#icon_ar"));
         ("stap1", PStr (value element "#stap1"));
         ("stap2", PStr (value element "#stap2"));
         ("stap3", PStr (value element "#stap3"));
         ("stap4", PStr (value element "#stap4")) ]%string |}.

(** [getARData], over the children of [#location-ar-list]. *)
Definition getARData (location_ar_list : list Element) : M unit :=
  forEach_from 0 location_ar_list
    (fun element index => push_feature (arFeature element index)).

(** The script's [getGeoData(); getARData();]. *)
Definition loadData (location_list location_ar_list : list Element) : M unit :=
  getGeoData location_list ;;
  getARData location_ar_list.

(** ** Drift guard: the [moveend] listener *)

Definition driftCorrection : list Command :=
  [ OverlayAppend "interaction-blocker";
    MapFlyTo (mkCamera (Some CONFIG.MAP.center) (Some 17) (Some 45) (Some (-17.6))
                       None (Some 0.8) (Some 1.5) true);
    OverlayFade "interaction-blocker" 2 ].

Definition on_moveend : M unit :=
  easing <- map_isEasing ;;
  if easing then ret tt
  else
    currentCenter <- map_getCenter ;;
    let boundaryCenter := mkLngLat (fst CONFIG.MAP.boundary.center)
                                   (snd CONFIG.MAP.boundary.center) in
    let distance := calculateDistance (lat currentCenter) (lng currentCenter)
                                      (lat boundaryCenter) (lng boundaryCenter) in
    if num_gt distance 1 then forEach driftCorrection emit
    else ret tt.

(** ** Events *)

(** The events delivered to the listeners above.  [Geolocate],
    [TrackUserLocationUpdate], [GeolocationError], [TrackUserLocationStart]
    and [TrackUserLocationEnd] come from the geolocate control, whenever it
    fires them on its own account (the one it fires from inside
    [trigger()] is part of [geolocateControl_trigger]).  [CameraMoved] is
    the map view changing its own camera (an animation frame, a user pan);
    [PopupOpened] / [PopupClosed] are the feature popup setting
    [geolocationManager.isPopupOpen]. *)
Inductive Event : Type :=
| Geolocate (position : GeolocationManager.Position)
| TrackUserLocationUpdate (position : GeolocationManager.Position)
| GeolocationError (code : Z)
| TrackUserLocationStart
| TrackUserLocationEnd
| PopupOpened
| PopupClosed
| CameraMoved (c : LngLat) (easing : bool)
| MoveEnd.

Definition dispatch (e : Event) : M unit :=
  match e with
  | Geolocate position => GeolocationManager.handleUserLocation position
  | TrackUserLocationUpdate position => GeolocationManager.on_trackuserlocationupdate position
  | GeolocationError code => GeolocationManager.handleGeolocationError code
  | TrackUserLocationStart => GeolocationManager.on_trackuserlocationstart
  | TrackUserLocationEnd => GeolocationManager.on_trackuserlocationend
  | PopupOpened => modify_this (set_isPopupOpen true)
  | PopupClosed => modify_this (set_isPopupOpen false)
  | CameraMoved c easing => fun w => (tt, with_camera c easing w)
  | MoveEnd => on_moveend
  end.

Definition run (es : list Event) : M unit := forEach es dispatch.

(** The commands a computation adds to the trace. *)
Definition emitted {A : Type} (c : M A) (w : World) : list Command :=
  skipn (List.length (trace w)) (trace (exec c w)).

(** The page right after the script has run: no features, no markers. *)
Definition initialWorld (c : LngLat) : World :=
  mkWorld GeolocationManager.new [] c false false [] 0 [].

(** ** Vocabulary of the specification *)

(** The features the proximity query reports: those of the markers it
    created, in creation order. *)
Definition proximityFeatures (w : World) : list Feature :=
  map markerFeature (distanceMarkers (gm w)).

(** Whether a feature is within [radius] metres of [userPosition]. *)
Definition qualifies (radius : R) (userPosition : Coord) (feature : Feature) : bool :=
  num_le (1000 * GeolocationManager.calculateDistance
                   (snd userPosition) (fst userPosition)
                   (snd (coordinates feature)) (fst (coordinates feature)))
         radius.

(** The markers [updateDistanceMarkers] creates for the features [fs], the
    first one being allocation number [n]. *)
Fixpoint newMarkers (userPosition : Coord) (n : nat) (fs : list Feature) : list Marker :=
  match fs with
  | [] => []
  | f :: rest =>
      mkMarker n
        (Math.round (1000 * GeolocationManager.calculateDistance
                              (snd userPosition) (fst userPosition)
                              (snd (coordinates f)) (fst (coordinates f))))
        (coordinates f) f
      :: newMarkers userPosition (S n) rest
  end.

(** [distanceKm(a, b)] of the specification, on positions. *)
Definition distanceKm (a b : Coord) : R :=
  calculateDistance (snd a) (fst a) (snd b) (fst b).

(** The position [d] km due north of [c]. *)
Definition north_of (c : Coord) (d : R) : Coord :=
  (fst c, snd c + d * 180 / (6371 * PI)).

Definition toLngLat (c : Coord) : LngLat := mkLngLat (fst c) (snd c).

(** A marker without its object identity: what is rendered. *)
Definition rendered (m : Marker) : Z * Coord * Feature :=
  (markerMeters m, markerLngLat m, markerFeature m).

(** All marker identities in use are older than the allocation counter. *)
Definition markers_fresh (w : World) : Prop :=
  Forall (fun m => (markerId m < markers_created w)%nat) (map_markers w) /\
  Forall (fun m => (markerId m < markers_created w)%nat) (distanceMarkers (gm w)).

(** The [id] values of a feature list, [None] for [undefined]. *)
Definition feature_id (f : Feature) : option PropValue := lookup "id" (properties f).

Fixpoint defined_ids (fs : list Feature) : list PropValue :=
  match fs with
  | [] => []
  | f :: rest =>
      match feature_id f with
      | Some v => v :: defined_ids rest
      | None => defined_ids rest
      end
  end.

(** Camera commands aimed at the user. *)
Definition is_flyTo (c : Command) : bool :=
  match c with MapFlyTo _ => true | _ => false end.

Definition cameraCommands (cs : list Command) : list Command :=
  filter (fun c => match c with MapFlyTo _ | MapEaseTo _ => true | _ => false end) cs.

(** The markers of [l] left on the map once every marker of [ms] has been
    removed from it. *)
Definition removeAll (ms l : list Marker) : list Marker :=
  filter (fun m' => negb (existsb (fun m => Nat.eqb (markerId m') (markerId m)) ms)) l.

(** The world [updateDistanceMarkers] leaves behind. *)
Definition markersUpdated (userPosition : Coord) (w : World) : World :=
  let new := newMarkers userPosition (markers_created w)
               (filter (qualifies (radiusInMeters (gm w)) userPosition) (features w)) in
  mkWorld (set_distanceMarkers new (gm w)) (features w) (map_center w) (map_easing w)
          (map_loaded w)
          (removeAll (distanceMarkers (gm w)) (map_markers w) ++ new)
          (markers_created w + List.length new) (trace w).

(** The commands [updateSearchRadius] sends for a position. *)
Definition searchRadiusCommands (w : World) (center : Coord) : list Command :=
  if hasSource (map_loaded w) (searchRadiusId (gm w)) then
    map (fun sourceId =>
           SourceSetData sourceId
             (GeolocationManager.generateCircle center (radiusInMeters (gm w)) 64))
        [searchRadiusId (gm w); searchRadiusOuterId (gm w)]
  else [].

(** The commands [clearSearchRadius] sends. *)
Definition clearRadiusCommands (g : GeolocationManagerFields) (loaded : bool) : list Command :=
  if hasSource loaded (searchRadiusId g) then
    map (fun sourceId => SourceSetData sourceId [])
        [searchRadiusId g; searchRadiusOuterId g]
  else [].

(** The commands [showBoundaryLayers] sends for the layer ids [ids]. *)
Fixpoint boundaryLayerCommands (loaded : bool) (ids : list string) : list Command :=
  match ids with
  | [] => []
  | layerId :: rest =>
      (if hasLayer loaded layerId then
         LayerVisibility layerId "visible" ::
         (if String.eqb layerId "boundary-fill" then [FillOpacityRamp layerId] else [])
       else []) ++ boundaryLayerCommands loaded rest
  end.

(** The world the [trackuserlocationend] listener leaves behind. *)
Definition trackingEnded (w : World) : World :=
  mkWorld (set_distanceMarkers []
             (set_isFirstLocation true (set_isTracking false (gm w))))
          (features w) (map_center w) (map_easing w) (map_loaded w)
          (removeAll (distanceMarkers (gm w)) (map_markers w)) (markers_created w)
          (trace w ++
           [ConsoleLog "Location tracking ended";
            MapEaseTo (mkCamera None None (Some 45) (Some 0) None None None false)] ++
           clearRadiusCommands (gm w) (map_loaded w)).

(** The world the [trackuserlocationstart] listener leaves behind. *)
Definition trackingStarted (w : World) : World :=
  with_gm (set_isTracking true (gm w))
    (with_trace (trace w ++ ConsoleLog "Location tracking started" ::
                 boundaryLayerCommands (map_loaded w) (boundaryLayerIds (gm w))) w).

(** The world [geolocateControl.trigger()] leaves behind. *)
Definition triggered (w : World) : World :=
  let w1 := with_trace (trace w ++ [GeolocateTrigger]) w in
  if isTracking (gm w) then trackingEnded w1 else trackingStarted w1.

(** The commands of the listener that [geolocateControl.trigger()] runs. *)
Definition toggleCommands (w : World) : list Command :=
  if isTracking (gm w) then
    [ConsoleLog "Location tracking ended";
     MapEaseTo (mkCamera None None (Some 45) (Some 0) None None None false)] ++
    clearRadiusCommands (gm w) (map_loaded w)
  else
    ConsoleLog "Location tracking started" ::
    boundaryLayerCommands (map_loaded w) (boundaryLayerIds (gm w)).

(** The commands [showBoundaryPopup] sends. *)
Definition boundaryPopupCommands (w : World) : list Command :=
  [BoundaryPopup] ++
  (if hasLayer (map_loaded w) "boundary-fill" then [BoundaryHighlight] else []) ++
  [MapFlyTo (mkCamera (Some (centerPoint (gm w))) (Some 14) (Some 0) (Some 0)
                      (Some 1500) None None false)].

(** The commands of the out-of-bounds branch of [handleUserLocation]. *)
Definition outOfBoundsCommands (w : World) : list Command :=
  [GeolocateTrigger] ++ toggleCommands w ++ boundaryPopupCommands w.

(** The camera part of the in-bounds branch, on the world [w] reached after
    the search radius and the markers were updated. *)
Definition cameraFollowed (position : GeolocationManager.Position) (w : World) : World :=
  let userPosition := (GeolocationManager.longitude position,
                       GeolocationManager.latitude position) in
  if isPopupOpen (gm w) then w
  else if isFirstLocation (gm w) then
    with_gm (set_isFirstLocation false (gm w))
            (with_trace (trace w ++ [GeolocationManager.flyToUser position]) w)
  else if num_gt (distanceKm (lng (map_center w), lat (map_center w)) userPosition) 0.05
  then with_trace (trace w ++ [GeolocationManager.easeToUser userPosition]) w
  else w.

(** The world [handleUserLocation] leaves behind. *)
Definition userLocationHandled (position : GeolocationManager.Position) (w : World) : World :=
  let userPosition := (GeolocationManager.longitude position,
                       GeolocationManager.latitude position) in
  if GeolocationManager.isWithinBoundary (gm w) userPosition then
    cameraFollowed position
      (markersUpdated userPosition
         (with_trace (trace w ++ searchRadiusCommands w userPosition) w))
  else
    let w1 := triggered w in
    with_trace (trace w1 ++ boundaryPopupCommands w1) w1.

(** The camera commands of the in-bounds branch. *)
Definition followCommands (position : GeolocationManager.Position) (w : World) : list Command :=
  let userPosition := (GeolocationManager.longitude position,
                       GeolocationManager.latitude position) in
  if isPopupOpen (gm w) then []
  else if isFirstLocation (gm w) then [GeolocationManager.flyToUser position]
  else if num_gt (distanceKm (lng (map_center w), lat (map_center w)) userPosition) 0.05
  then [GeolocationManager.easeToUser userPosition]
  else [].

(** An event that leaves a running session running: not the end of
    tracking, and not a fix outside the boundary of [g] (which triggers the
    control). *)
Definition keeps_session (g : GeolocationManagerFields) (e : Event) : Prop :=
  match e with
  | TrackUserLocationEnd => False
  | Geolocate position =>
      GeolocationManager.isWithinBoundary g
        (GeolocationManager.longitude position, GeolocationManager.latitude position) = true
  | _ => True
  end.

(** An event that is not a fix inside the boundary of [g]. *)
Definition stays_outside (g : GeolocationManagerFields) (e : Event) : Prop :=
  match e with
  | Geolocate position =>
      GeolocationManager.isWithinBoundary g
        (GeolocationManager.longitude position, GeolocationManager.latitude position) = false
  | _ => True
  end.

(** A fix at the position [c], without heading. *)
Definition fixAt (c : Coord) : GeolocationManager.Position :=
  GeolocationManager.mkPosition (fst c) (snd c) None.

Definition userPositionOf (position : GeolocationManager.Position) : Coord :=
  (GeolocationManager.longitude position, GeolocationManager.latitude position).

(** The collection [getGeoData] leaves behind, starting from [fs] with
    the counter of [forEach] at [index]. *)
Fixpoint geoLoaded (index : nat) (elements : list Element) (fs : list Feature)
  : list Feature :=
  match elements with
  | [] => fs
  | element :: rest =>
      geoLoaded (S index) rest
        (if negb (some_has_id fs (value element "#locationID"))
         then fs ++ [locationFeature element index]
         else fs)
  end.

(** The features [getARData] appends. *)
Fixpoint arLoaded (index : nat) (elements : list Element) : list Feature :=
  match elements with
  | [] => []
  | element :: rest => arFeature element index :: arLoaded (S index) rest
  end.

(** A CMS record whose every field reads back the selector it was asked
    for, at coordinates (0, 0). *)
Definition sampleElement : Element := mkElement (fun selector => selector) (fun _ => 0).

(** The map's markers are the tracked distance markers, all older than the
    allocation counter. *)
Definition markers_tracked (w : World) : Prop :=
  map_markers w = distanceMarkers (gm w) /\ markers_fresh w.

(** The error kinds of the specification and the message each one shows. *)
Inductive ErrorKind : Type :=
| PermissionDenied
| PositionUnavailable
| Timeout
| Unknown.

Definition kind_of_code (code : Z) : ErrorKind :=
  match code with
  | 1%Z => PermissionDenied
  | 2%Z => PositionUnavailable
  | 3%Z => Timeout
  | _ => Unknown
  end.

Definition spec_message (k : ErrorKind) : string :=
  match k with
  | PermissionDenied => "Locatie toegang geweigerd. Schakel het in bij je instellingen."
  | PositionUnavailable => "Locatie niet beschikbaar. Controleer je apparaat instellingen."
  | Timeout => "Verzoek verlopen. Probeer opnieuw."
  | Unknown => "Er is een fout opgetreden bij het ophalen van je locatie."
  end.

(** A tracking world: the configured manager after the first fix of a
    session has been consumed, camera at [c], features [fs]. *)
Definition trackingWorld (c : LngLat) (fs : list Feature) : World :=
  mkWorld (set_isTracking true (set_isFirstLocation false GeolocationManager.new))
          fs c false true [] 0 [].


(** ** Marker layers, icons and category filters *)

(** A JavaScript [Set]: its elements in insertion order, none repeated.
    [eqb] is the equality the set uses on its elements. *)
Section JSSet.

Context {A : Type} (eqb : A -> A -> bool).

Definition Set_has (s : list A) (x : A) : bool := existsb (eqb x) s.

Definition Set_add (s : list A) (x : A) : list A :=
  if Set_has s x then s else s ++ [x].

Definition Set_delete (s : list A) (x : A) : list A :=
  filter (fun y => negb (eqb x y)) s.

(** [new Set(array)]. *)
Definition Set_of (xs : list A) : list A := fold_left Set_add xs [].

End JSSet.

(** Equality of property values inside a [Set]; [None] is [undefined]. *)
Definition value_eqb (a b : option PropValue) : bool :=
  match a, b with
  | Some (PStr s), Some (PStr t) => String.eqb s t
  | Some (PNum n), Some (PNum m) => Nat.eqb n m
  | None, None => true
  | _, _ => false
  end.

(** A Mapbox filter expression, as the nested array the code builds;
    [ENull] is [null]. *)
#[warnings="-register-all"]
Inductive Expr : Type :=
| ENull
| EStr (s : string)
| EArr (items : list Expr).

(** What the marker code asks of the map view and the DOM. *)
Inductive PageCommand : Type :=
| MapLoadImage (iconUrl : option PropValue)
| MapAddSource (id : string)
| MapAddLayer (id : string) (source : string)
| MarkersFadeIn
| ButtonToggleActive (category : string)
| MapSetFilter (layerId : string) (filter : Expr).

(** The globals [markersAdded] and [activeFilters], and the commands issued
    so far. *)
Record Page : Type := mkPage {
  markersAdded : bool;
  activeFilters : list string;
  page_trace : list PageCommand
}.

Definition page_emit (c : PageCommand) (pg : Page) : Page :=
  mkPage (markersAdded pg) (activeFilters pg) (page_trace pg ++ [c]).

(** [xs.forEach(x => ...)] on a page. *)
Definition page_forEach {A : Type} (xs : list A) (f : A -> Page -> Page) (pg : Page) : Page :=
  fold_left (fun pg x => f x pg) xs pg.

(** [loadIcons], over [mapLocations.features]. *)
Definition loadIcons (fs : list Feature) (pg : Page) : Page :=
  let uniqueIcons :=
    Set_of value_eqb (map (fun feature => lookup "icon" (properties feature)) fs) in
  page_forEach uniqueIcons (fun iconUrl => page_emit (MapLoadImage iconUrl)) pg.

Definition markerLayers : list string :=
  ["location-markers"; "location-icons"; "location-labels"]%string.

(** [addCustomMarkers]: the source, the three layers, the fade-in timer,
    then the flag. *)
Definition addCustomMarkers (pg : Page) : Page :=
  if markersAdded pg then pg
  else
    let pg1 := page_emit (MapAddSource "locations") pg in
    let pg2 := page_forEach markerLayers
                 (fun layerId => page_emit (MapAddLayer layerId "locations")) pg1 in
    let pg3 := page_emit MarkersFadeIn pg2 in
    mkPage true (activeFilters pg3) (page_trace pg3).

(** [applyMapFilters]. *)
Definition applyMapFilters (pg : Page) : Page :=
  if Nat.eqb (List.length (activeFilters pg)) 0 then
    page_emit (MapSetFilter "location-labels" ENull)
      (page_emit (MapSetFilter "location-icons" ENull)
         (page_emit (MapSetFilter "location-markers" ENull) pg))
  else
    let filter :=
      EArr [EStr "in"; EArr [EStr "get"; EStr "category"];
            EArr [EStr "literal"; EArr (map EStr (activeFilters pg))]] in
    page_emit (MapSetFilter "location-labels" filter)
      (page_emit (MapSetFilter "location-icons" filter)
         (page_emit (MapSetFilter "location-markers" filter) pg)).

(** The click listener of a filter button with [dataset.category]. *)
Definition filterButtonClick (category : string) (pg : Page) : Page :=
  let pg1 := page_emit (ButtonToggleActive category) pg in
  let pg2 :=
    if Set_has String.eqb (activeFilters pg1) category
    then mkPage (markersAdded pg1) (Set_delete String.eqb (activeFilters pg1) category)
                (page_trace pg1)
    else mkPage (markersAdded pg1) (Set_add String.eqb (activeFilters pg1) category)
                (page_trace pg1) in
  applyMapFilters pg2.

(** A sequence of clicks on filter buttons, by category. *)
Definition filterButtonClicks (categories : list string) (pg : Page) : Page :=
  page_forEach categories filterButtonClick pg.

(** The page when the script starts. *)
Definition initialPage : Page := mkPage false [] [].

(** * Properties *)

(** ** Proof automation *)

(** Expose the fields of a world and of its manager. *)
Ltac open_world w := destruct w as [g ? ? ? ? ? ? ?]; destruct g.

(** Carry one part of [markers_tracked] over a step that leaves the markers
    alone. *)
Ltac tracked_part H w :=
  first [ destruct H as [H _]; open_world w; exact H
        | destruct H as [_ [H _]]; open_world w; exact H
        | destruct H as [_ [_ H]]; open_world w; exact H ].

(** The frame conditions of a listener whose effect is at most a longer
    trace or a changed flag of the manager. *)
Ltac frame_by_cases w :=
  repeat split;
  try (open_world w; simpl; auto; fail);
  try (eexists; open_world w; reflexivity);
  try (exists []; open_world w; simpl; rewrite app_nil_r; reflexivity);
  try match goal with
      | H : markers_tracked _ |- _ => tracked_part H w
      end.

(** ** Comparisons *)

Lemma num_le_true (x y : R) : num_le x y = true <-> x <= y.
Proof. unfold num_le. destruct (Rle_dec x y); split; intros; auto; try discriminate; contradiction. Qed.

Lemma num_le_false (x y : R) : num_le x y = false <-> y < x.
Proof.
  unfold num_le. destruct (Rle_dec x y); split; intros; try discriminate; auto; lra.
Qed.

Lemma num_gt_true (x y : R) : num_gt x y = true <-> x > y.
Proof. unfold num_gt. destruct (Rgt_dec x y); split; intros; auto; try discriminate; contradiction. Qed.

Lemma num_gt_false (x y : R) : num_gt x y = false <-> x <= y.
Proof.
  unfold num_gt. destruct (Rgt_dec x y); split; intros; try discriminate; auto; lra.
Qed.

(** ** The haversine formula *)

Lemma method_is_global (lat1 lon1 lat2 lon2 : R) :
  GeolocationManager.calculateDistance lat1 lon1 lat2 lon2 =
  calculateDistance lat1 lon1 lat2 lon2.
Proof. reflexivity. Qed.

Lemma atan2_first_quadrant_zero (y x : R) :
  0 <= y -> 0 <= x -> (Math.atan2 y x = 0 <-> y = 0).
Proof.
  intros Hy Hx. unfold Math.atan2.
  destruct (Rlt_dec 0 x) as [Hpos | Hnpos].
  - split; intro H.
    + apply atan_eq0 in H. unfold Rdiv in H.
      apply Rmult_integral in H. destruct H as [H | H]; [exact H |].
      exfalso. apply (Rinv_neq_0_compat x); [lra | exact H].
    + subst y. unfold Rdiv. rewrite Rmult_0_l. apply atan_0.
  - destruct (Rlt_dec x 0) as [Hneg | _]; [lra |].
    destruct (Rlt_dec 0 y) as [Hy' | Hy'].
    + pose proof PI_RGT_0. split; intro; lra.
    + destruct (Rlt_dec y 0); [lra |]. split; intro; lra.
Qed.

Lemma haversine_a_self (lat0 lon0 : R) : haversine_a lat0 lon0 lat0 lon0 = 0.
Proof.
  unfold haversine_a, toRad, Math.sin.
  replace ((lat0 - lat0) * (Math.PI / 180) / 2) with 0 by lra.
  replace ((lon0 - lon0) * (Math.PI / 180) / 2) with 0 by lra.
  rewrite sin_0. ring.
Qed.

Lemma distance_of_zero_term (lat1 lon1 lat2 lon2 : R) :
  haversine_a lat1 lon1 lat2 lon2 = 0 -> calculateDistance lat1 lon1 lat2 lon2 = 0.
Proof.
  intro Ha. unfold calculateDistance. cbv zeta. rewrite Ha.
  unfold Math.sqrt. rewrite Rminus_0_r, sqrt_0, sqrt_1.
  assert (H : Math.atan2 0 1 = 0) by (apply atan2_first_quadrant_zero; lra).
  rewrite H. ring.
Qed.

Lemma calculateDistance_self (lat0 lon0 : R) : calculateDistance lat0 lon0 lat0 lon0 = 0.
Proof. apply distance_of_zero_term, haversine_a_self. Qed.

(** The haversine term always lies in [0, 1]: both square roots of
    [calculateDistance] are taken of non-negative numbers. *)
Lemma haversine_a_bounds (lat1 lon1 lat2 lon2 : R) :
  0 <= haversine_a lat1 lon1 lat2 lon2 <= 1.
Proof.
  unfold haversine_a. cbv zeta. unfold Math.sin, Math.cos.
  set (f1 := toRad lat1). set (f2 := toRad lat2).
  set (x := toRad (lat2 - lat1) / 2).
  set (s2 := sin (toRad (lon2 - lon1) / 2)).
  assert (Hd : f2 - f1 = 2 * x) by (unfold f1, f2, x, toRad; lra).
  pose proof (cos_2a_sin x) as Hx. rewrite <- Hd in Hx.
  pose proof (cos_minus f2 f1) as Hm.
  pose proof (cos_plus f2 f1) as Hp.
  pose proof (COS_bound (f2 - f1)) as [Hm1 Hm2].
  pose proof (COS_bound (f2 + f1)) as [Hp1 Hp2].
  pose proof (SIN_bound (toRad (lon2 - lon1) / 2)) as [Hs1 Hs2]. fold s2 in Hs1, Hs2.
  set (s := s2 * s2).
  assert (Hs : 0 <= s <= 1) by (unfold s; split; nra).
  assert (Hcc : cos f1 * cos f2 = (cos (f2 - f1) + cos (f2 + f1)) / 2) by lra.
  assert (Hss : sin x * sin x = (1 - cos (f2 - f1)) / 2) by lra.
  replace (sin x * sin x + cos f1 * cos f2 * s2 * s2)
    with ((1 - cos (f2 - f1)) / 2 + (cos (f2 - f1) + cos (f2 + f1)) / 2 * s)
    by (unfold s; rewrite <- Hcc, <- Hss; ring).
  destruct Hs as [Hs0 Hs1'].
  split; nra.
Qed.

Lemma zero_term_of_distance (lat1 lon1 lat2 lon2 : R) :
  calculateDistance lat1 lon1 lat2 lon2 = 0 -> haversine_a lat1 lon1 lat2 lon2 = 0.
Proof.
  intro Hd. pose proof (haversine_a_bounds lat1 lon1 lat2 lon2) as [Hpos _].
  unfold calculateDistance in Hd. cbv zeta in Hd.
  assert (Hc : Math.atan2 (Math.sqrt (haversine_a lat1 lon1 lat2 lon2))
                          (Math.sqrt (1 - haversine_a lat1 lon1 lat2 lon2)) = 0) by lra.
  apply atan2_first_quadrant_zero in Hc; try apply sqrt_pos.
  apply sqrt_eq_0 in Hc; assumption.
Qed.

Lemma haversine_a_sym (lat1 lon1 lat2 lon2 : R) :
  haversine_a lat1 lon1 lat2 lon2 = haversine_a lat2 lon2 lat1 lon1.
Proof.
  unfold haversine_a, toRad, Math.sin, Math.cos.
  replace ((lat1 - lat2) * (Math.PI / 180) / 2) with (- ((lat2 - lat1) * (Math.PI / 180) / 2)) by lra.
  replace ((lon1 - lon2) * (Math.PI / 180) / 2) with (- ((lon2 - lon1) * (Math.PI / 180) / 2)) by lra.
  rewrite !sin_neg. ring.
Qed.

Lemma calculateDistance_sym (lat1 lon1 lat2 lon2 : R) :
  calculateDistance lat1 lon1 lat2 lon2 = calculateDistance lat2 lon2 lat1 lon1.
Proof. unfold calculateDistance. rewrite haversine_a_sym. reflexivity. Qed.

(** Along a meridian the distance is the arc length of the latitude
    difference. *)
Lemma calculateDistance_meridian (lat1 lat2 lon0 : R) :
  lat1 <= lat2 -> lat2 - lat1 < 180 ->
  calculateDistance lat1 lon0 lat2 lon0 = 6371 * toRad (lat2 - lat1).
Proof.
  intros Hle Hlt.
  pose proof PI_RGT_0 as Hpi.
  set (x := toRad (lat2 - lat1) / 2).
  assert (Hx0 : 0 <= x) by (unfold x, toRad, Math.PI; nra).
  assert (Hx1 : x < PI / 2) by (unfold x, toRad, Math.PI; nra).
  assert (Hcos : 0 < cos x) by (apply cos_gt_0; lra).
  assert (Hsin : 0 <= sin x) by (apply sin_ge_0; lra).
  assert (Ha : haversine_a lat1 lon0 lat2 lon0 = Rsqr (sin x)).
  { unfold haversine_a, Math.sin. fold x.
    replace (toRad (lon0 - lon0) / 2) with 0 by (unfold toRad; lra).
    rewrite sin_0. unfold Rsqr. ring. }
  unfold calculateDistance. cbv zeta. rewrite Ha.
  unfold Math.sqrt. rewrite <- cos2.
  rewrite (sqrt_Rsqr (sin x)) by assumption.
  rewrite (sqrt_Rsqr (cos x)) by lra.
  unfold Math.atan2. destruct (Rlt_dec 0 (cos x)) as [_ | Hn]; [| contradiction].
  change (sin x / cos x) with (tan x).
  rewrite atan_tan by lra.
  unfold x. lra.
Qed.

Lemma distance_north (c : Coord) (d : R) :
  0 <= d -> d < 6371 -> distanceKm (north_of c d) c = d.
Proof.
  intros H0 H1. unfold distanceKm, north_of. simpl.
  pose proof PI2_1 as Hpi.
  assert (Hpos : 0 < 6371 * PI) by lra.
  assert (Hq : 0 <= d * 180 / (6371 * PI) < 180).
  { split.
    - apply Rmult_le_pos; [lra |]. left. apply Rinv_0_lt_compat. exact Hpos.
    - apply Rmult_lt_reg_r with (6371 * PI); [exact Hpos |].
      unfold Rdiv. rewrite Rmult_assoc, Rinv_l by lra. nra. }
  rewrite calculateDistance_sym, calculateDistance_meridian by lra.
  unfold toRad, Math.PI. field. lra.
Qed.

(** ** Boundary containment *)

(** C1. The boundary containment test is true exactly when the haversine
    distance from the point to the boundary centre is at most the boundary
    radius; it is true at the centre itself (the radius being non-negative)
    and at a point lying exactly at the radius distance. *)
Theorem isWithinBoundary_iff_distance :
  forall (this : GeolocationManagerFields) (P : Coord),
    (GeolocationManager.isWithinBoundary this P = true <->
     distanceKm P (centerPoint this) <= boundaryRadius this) /\
    (0 <= boundaryRadius this ->
     GeolocationManager.isWithinBoundary this (centerPoint this) = true) /\
    (distanceKm P (centerPoint this) = boundaryRadius this ->
     GeolocationManager.isWithinBoundary this P = true).
Proof.
  intros this P.
  assert (Hiff : forall Q, GeolocationManager.isWithinBoundary this Q = true <->
                           distanceKm Q (centerPoint this) <= boundaryRadius this).
  { intro Q. unfold GeolocationManager.isWithinBoundary, distanceKm.
    rewrite method_is_global. apply num_le_true. }
  split; [apply Hiff |]. split.
  - intro Hr. apply Hiff. unfold distanceKm. rewrite calculateDistance_self. exact Hr.
  - intro Heq. apply Hiff. rewrite Heq. apply Rle_refl.
Qed.

Lemma isWithinBoundary_iff_distance_witness :
  0 <= boundaryRadius GeolocationManager.new /\
  distanceKm (north_of CONFIG.MAP.boundary.center 2.2)
             (centerPoint GeolocationManager.new) = boundaryRadius GeolocationManager.new /\
  GeolocationManager.isWithinBoundary GeolocationManager.new
    (centerPoint GeolocationManager.new) = true /\
  GeolocationManager.isWithinBoundary GeolocationManager.new
    (north_of CONFIG.MAP.boundary.center 2.2) = true.
Proof.
  assert (Hr : 0 <= boundaryRadius GeolocationManager.new)
    by (simpl; unfold CONFIG.MAP.boundary.radius; lra).
  assert (Hd : distanceKm (north_of CONFIG.MAP.boundary.center 2.2)
                          (centerPoint GeolocationManager.new) =
               boundaryRadius GeolocationManager.new)
    by (simpl; unfold CONFIG.MAP.boundary.radius; apply distance_north; lra).
  destruct (isWithinBoundary_iff_distance GeolocationManager.new
              (north_of CONFIG.MAP.boundary.center 2.2)) as [_ [Hc Hb]].
  repeat split; [exact Hr | exact Hd | exact (Hc Hr) | exact (Hb Hd)].
Defined.

(** ** Zero distance *)

Lemma Double_positions_differ :
  (Double.zero, Double.zero) <> (Double.MIN_VALUE, Double.zero).
Proof.
  intro H. apply (f_equal (fun p => PrimFloat.eqb (fst p) Double.zero)) in H.
  vm_compute in H. discriminate H.
Qed.

Lemma Double_distance_underflow :
  Double.distanceKm (Double.zero, Double.zero) (Double.MIN_VALUE, Double.zero) =
  Some Double.zero.
Proof. vm_compute. reflexivity. Qed.

(** C5, as stated, fails in the arithmetic the code runs in: the positions
    (lng 0, lat 0) and (lng 5e-324, lat 0) differ, and [calculateDistance]
    returns exactly 0 for them.  The longitude difference times PI / 180
    underflows to 0, so every call of [Math.sin], [Math.cos] and
    [Math.atan2] is at an argument where the language fixes the result. *)
Lemma zero_distance_between_distinct_points :
  (Double.zero, Double.zero) <> (Double.MIN_VALUE, Double.zero) /\
  PrimFloat.eqb Double.MIN_VALUE Double.zero = false /\
  Double.toRad (PrimFloat.sub Double.MIN_VALUE Double.zero) = Double.zero /\
  Double.distanceKm (Double.zero, Double.zero) (Double.MIN_VALUE, Double.zero) =
  Some Double.zero.
Proof.
  split; [exact Double_positions_differ |].
  split; [vm_compute; reflexivity |].
  split; [vm_compute; reflexivity |].
  exact Double_distance_underflow.
Qed.

(** C5, amended. The distance from a position to itself is zero, for every
    position, by the method and by the global function (in double precision
    too; shown here at the position (0, 0)).  The converse does not hold:
    there are distinct positions whose computed distance is exactly
    zero. *)
Theorem distance_zero_at_equal_points :
  (forall a : Coord, distanceKm a a = 0) /\
  (forall lat0 lon0 : R, GeolocationManager.calculateDistance lat0 lon0 lat0 lon0 = 0) /\
  Double.distanceKm (Double.zero, Double.zero) (Double.zero, Double.zero) = Some Double.zero /\
  (exists a b : float * float, a <> b /\ Double.distanceKm a b = Some Double.zero).
Proof.
  split; [| split; [| split]].
  - intro a. unfold distanceKm. apply calculateDistance_self.
  - intros lat0 lon0. rewrite method_is_global. apply calculateDistance_self.
  - vm_compute. reflexivity.
  - exists (Double.zero, Double.zero), (Double.MIN_VALUE, Double.zero).
    split; [exact Double_positions_differ | exact Double_distance_underflow].
Qed.

(** ** Circle polygons *)

Lemma nth_error_map_seq {A : Type} (f : nat -> A) (n i : nat) :
  (i < n)%nat -> nth_error (map f (seq 0 n)) i = Some (f i).
Proof.
  intro Hi. rewrite nth_error_map, nth_error_seq.
  destruct (Nat.ltb_spec i n) as [_ | Hge]; [reflexivity | lia].
Qed.

(** C6. For every centre, radius and point count N > 0 the generated circle
    has exactly N+1 entries, the last one being the first point pushed
    again; the search-radius circle (N = 64) therefore has 65; and the
    boundary circle has 65 points with equal first and last point. *)
Theorem circle_rings_closed :
  (forall (C : Coord) (radiusInM : R) (N : nat),
      (0 < N)%nat ->
      let ring := GeolocationManager.generateCircle C radiusInM N in
      List.length ring = S N /\
      exists p : Coord, nth_error ring 0 = Some (Some p) /\
                        nth_error ring N = Some (Some p)) /\
  (forall (C : Coord) (radiusInM : R),
      List.length (GeolocationManager.generateCircle C radiusInM 64) = 65%nat) /\
  (forall this : GeolocationManagerFields,
      let ring := GeolocationManager.createBoundaryCircle this in
      List.length ring = 65%nat /\
      exists p : Coord, nth_error ring 0 = Some p /\ nth_error ring 64 = Some p).
Proof.
  assert (Hlen : forall C radiusInM N,
             List.length (GeolocationManager.generateCircle C radiusInM N) = S N).
  { intros C radiusInM N. unfold GeolocationManager.generateCircle. cbv zeta.
    rewrite length_app, !length_map, length_seq. simpl. lia. }
  split; [| split].
  - intros C radiusInM N HN ring. split; [apply Hlen |].
    unfold ring, GeolocationManager.generateCircle. cbv zeta.
    match goal with
    | |- context [map Some (map ?f (seq 0 N))] => set (mk := f)
    end.
    exists (mk 0%nat).
    assert (H0 : nth_error (map mk (seq 0 N)) 0 = Some (mk 0%nat))
      by (apply nth_error_map_seq; exact HN).
    split.
    + rewrite nth_error_app1 by (rewrite !length_map, length_seq; exact HN).
      rewrite nth_error_map, H0. reflexivity.
    + rewrite nth_error_app2 by (rewrite !length_map, length_seq; lia).
      rewrite !length_map, length_seq, Nat.sub_diag, H0. reflexivity.
  - intros C radiusInM. apply Hlen.
  - intros this ring. unfold ring, GeolocationManager.createBoundaryCircle. cbv zeta.
    split; [rewrite length_map, length_seq; reflexivity |].
    match goal with
    | |- context [map ?f (seq 0 65)] => set (mk := f)
    end.
    exists (mk 0%nat). split; [apply nth_error_map_seq; lia |].
    rewrite nth_error_map_seq by lia. f_equal.
    unfold mk, Math.cos, Math.sin, Math.PI.
    replace (INR 64 / 64 * (2 * PI)) with (2 * PI) by (simpl; field).
    replace (INR 0 / 64 * (2 * PI)) with 0 by (simpl; field).
    rewrite sin_2PI, cos_2PI, sin_0, cos_0. reflexivity.
Qed.

Lemma circle_rings_closed_witness :
  (0 < 64)%nat /\
  List.length (GeolocationManager.generateCircle CONFIG.MAP.center 25 64) = 65%nat.
Proof.
  split; [lia |].
  exact (proj1 (proj1 circle_rings_closed CONFIG.MAP.center 25 64%nat
                  (Nat.lt_0_succ 63))).
Defined.

(** ** Traces *)

Lemma skipn_exact {A : Type} (l l' : list A) : skipn (List.length l) (l ++ l') = l'.
Proof. induction l as [| x l IH]; simpl; auto. Qed.

Lemma emitted_of_trace {A : Type} (c : M A) (w : World) (cmds : list Command) :
  trace (exec c w) = trace w ++ cmds -> emitted c w = cmds.
Proof. intro H. unfold emitted. rewrite H. apply skipn_exact. Qed.

Lemma exec_forEach_emit (cmds : list Command) (w : World) :
  exec (forEach cmds emit) w = with_trace (trace w ++ cmds) w.
Proof.
  revert w. induction cmds as [| c cmds IH]; intro w.
  - destruct w. unfold exec, with_trace. simpl. rewrite app_nil_r. reflexivity.
  - unfold exec in *. simpl. unfold bind, emit. simpl.
    rewrite IH. destruct w. unfold with_trace. simpl.
    rewrite <- app_assoc. reflexivity.
Qed.

(** ** Drift guard *)

Lemma on_moveend_exec (w : World) :
  exec on_moveend w =
  if map_easing w then w
  else if num_gt (distanceKm (lng (map_center w), lat (map_center w))
                             CONFIG.MAP.boundary.center) 1
       then with_trace (trace w ++ driftCorrection) w
       else w.
Proof.
  unfold on_moveend, exec, bind, map_isEasing, map_getCenter, distanceKm. simpl.
  destruct (map_easing w); [reflexivity |].
  match goal with |- context [num_gt ?d 1] => destruct (num_gt d 1) end;
    [| reflexivity].
  apply (exec_forEach_emit driftCorrection w).
Qed.

(** C7. When a camera movement settles and the map is not easing, the
    correction is issued if and only if the haversine distance from the
    camera centre to the boundary centre exceeds 1 km, and nothing is issued
    otherwise; at 0.99 km nothing, at 1.01 km the correction.  The
    correction is: the overlay [interaction-blocker] is appended to the
    page, the camera is told to fly to the default view centre
    (5.979642, 50.887634) at zoom 17, pitch 45, bearing -17.6 (speed 0.8,
    curve 1.5, essential), and the overlay is faded out over 2 seconds.
    The handler changes nothing but the command trace. *)
Theorem drift_guard_threshold :
  forall w : World,
    map_easing w = false ->
    let d := distanceKm (lng (map_center w), lat (map_center w))
                        CONFIG.MAP.boundary.center in
    let correction :=
      [ OverlayAppend "interaction-blocker";
        MapFlyTo (mkCamera (Some (5.979642, 50.887634)) (Some 17) (Some 45) (Some (-17.6))
                           None (Some 0.8) (Some 1.5) true);
        OverlayFade "interaction-blocker" 2 ] in
    (emitted on_moveend w = correction <-> d > 1) /\
    (emitted on_moveend w = [] <-> d <= 1) /\
    (d = 0.99 -> emitted on_moveend w = []) /\
    (d = 1.01 -> emitted on_moveend w = correction) /\
    exec on_moveend w = with_trace (trace w ++ emitted on_moveend w) w /\
    CONFIG.MAP.center = (5.979642, 50.887634).
Proof.
  intros w Hease d correction.
  pose proof (on_moveend_exec w) as Hexec. rewrite Hease in Hexec. fold d in Hexec.
  assert (Hgt : d > 1 -> emitted on_moveend w = correction).
  { intro Hd. apply emitted_of_trace. rewrite Hexec.
    rewrite (proj2 (num_gt_true d 1) Hd). reflexivity. }
  assert (Hle : d <= 1 -> emitted on_moveend w = []).
  { intro Hd. apply emitted_of_trace. rewrite Hexec.
    rewrite (proj2 (num_gt_false d 1) Hd), app_nil_r. reflexivity. }
  split; [| split; [| split; [| split; [| split]]]].
  - split; [| exact Hgt]. intro He.
    destruct (Rle_lt_dec d 1) as [Hd | Hd]; [| exact Hd].
    rewrite (Hle Hd) in He. discriminate.
  - split; [| exact Hle]. intro He.
    destruct (Rle_lt_dec d 1) as [Hd | Hd]; [exact Hd |].
    rewrite (Hgt Hd) in He. discriminate.
  - intro Hd. apply Hle. lra.
  - intro Hd. apply Hgt. lra.
  - destruct (Rle_lt_dec d 1) as [Hd | Hd].
    + rewrite (Hle Hd), Hexec, (proj2 (num_gt_false d 1) Hd), app_nil_r.
      destruct w; reflexivity.
    + rewrite (Hgt Hd), Hexec, (proj2 (num_gt_true d 1) Hd). reflexivity.
  - reflexivity.
Qed.

Lemma drift_guard_threshold_witness :
  (map_easing (initialWorld (toLngLat (north_of CONFIG.MAP.boundary.center 0.99))) = false /\
   distanceKm (north_of CONFIG.MAP.boundary.center 0.99) CONFIG.MAP.boundary.center = 0.99 /\
   emitted on_moveend
     (initialWorld (toLngLat (north_of CONFIG.MAP.boundary.center 0.99))) = []) /\
  (map_easing (initialWorld (toLngLat (north_of CONFIG.MAP.boundary.center 1.01))) = false /\
   distanceKm (north_of CONFIG.MAP.boundary.center 1.01) CONFIG.MAP.boundary.center = 1.01 /\
   emitted on_moveend
     (initialWorld (toLngLat (north_of CONFIG.MAP.boundary.center 1.01))) =
   [ OverlayAppend "interaction-blocker";
     MapFlyTo (mkCamera (Some (5.979642, 50.887634)) (Some 17) (Some 45) (Some (-17.6))
                        None (Some 0.8) (Some 1.5) true);
     OverlayFade "interaction-blocker" 2 ]).
Proof.
  assert (Hnear : distanceKm (north_of CONFIG.MAP.boundary.center 0.99)
                             CONFIG.MAP.boundary.center = 0.99)
    by (apply distance_north; lra).
  assert (Hfar : distanceKm (north_of CONFIG.MAP.boundary.center 1.01)
                            CONFIG.MAP.boundary.center = 1.01)
    by (apply distance_north; lra).
  split; (split; [reflexivity | split]); try assumption.
  - exact (proj1 (proj2 (proj2 (drift_guard_threshold
             (initialWorld (toLngLat (north_of CONFIG.MAP.boundary.center 0.99)))
             eq_refl))) Hnear).
  - exact (proj1 (proj2 (proj2 (proj2 (drift_guard_threshold
             (initialWorld (toLngLat (north_of CONFIG.MAP.boundary.center 1.01)))
             eq_refl)))) Hfar).
Defined.

(** ** Distance markers *)

Lemma removeAll_nil (l : list Marker) : removeAll [] l = l.
Proof. unfold removeAll. simpl. induction l as [| x l IH]; simpl; congruence. Qed.

Lemma removeAll_cons (m : Marker) (ms l : list Marker) :
  removeAll ms (filter (fun m' => negb (Nat.eqb (markerId m') (markerId m))) l) =
  removeAll (m :: ms) l.
Proof.
  unfold removeAll. induction l as [| x l IH]; simpl; [reflexivity |].
  destruct (Nat.eqb (markerId x) (markerId m)); simpl; [exact IH |].
  destruct (existsb _ ms); simpl; [exact IH | rewrite IH; reflexivity].
Qed.

Lemma forEach_Marker_remove (ms : list Marker) (w : World) :
  forEach ms Marker_remove w =
  (tt, with_markers (removeAll ms (map_markers w)) (markers_created w) w).
Proof.
  revert w. induction ms as [| m ms IH]; intro w.
  - simpl. rewrite removeAll_nil. destruct w; reflexivity.
  - simpl. unfold bind, Marker_remove at 1. rewrite IH.
    destruct w. unfold with_markers. simpl. rewrite removeAll_cons. reflexivity.
Qed.

Lemma newMarkers_length (p : Coord) (n : nat) (fs : list Feature) :
  List.length (newMarkers p n fs) = List.length fs.
Proof. revert n. induction fs as [| f fs IH]; intro n; simpl; auto. Qed.

Lemma newMarkers_features (p : Coord) (n : nat) (fs : list Feature) :
  map markerFeature (newMarkers p n fs) = fs.
Proof. revert n. induction fs as [| f fs IH]; intro n; simpl; [| rewrite IH]; reflexivity. Qed.

Lemma newMarkers_rendered (p : Coord) (n n' : nat) (fs : list Feature) :
  map rendered (newMarkers p n fs) = map rendered (newMarkers p n' fs).
Proof.
  revert n n'. induction fs as [| f fs IH]; intros n n'; simpl; [reflexivity |].
  rewrite (IH (S n) (S n')). reflexivity.
Qed.

Lemma newMarkers_ids (p : Coord) (n : nat) (fs : list Feature) :
  Forall (fun m => (n <= markerId m < n + List.length fs)%nat) (newMarkers p n fs).
Proof.
  revert n. induction fs as [| f fs IH]; intro n; simpl; constructor.
  - simpl. lia.
  - eapply Forall_impl; [| apply (IH (S n))]. simpl. intros m Hm. lia.
Qed.

Lemma forEach_addDistanceMarker (p : Coord) (fs : list Feature) (w : World) :
  forEach fs (GeolocationManager.addDistanceMarker p) w =
  (tt,
   let new := newMarkers p (markers_created w)
                (filter (qualifies (radiusInMeters (gm w)) p) fs) in
   mkWorld (set_distanceMarkers (distanceMarkers (gm w) ++ new) (gm w)) (features w)
           (map_center w) (map_easing w) (map_loaded w)
           (map_markers w ++ new) (markers_created w + List.length new) (trace w)).
Proof.
  revert w. induction fs as [| f fs IH]; intro w.
  - simpl. unfold ret. rewrite !app_nil_r, Nat.add_0_r.
    open_world w. reflexivity.
  - simpl forEach. unfold bind at 1.
    unfold GeolocationManager.addDistanceMarker at 1.
    unfold bind, get_this. fold (qualifies (radiusInMeters (gm w)) p f).
    simpl filter.
    destruct (qualifies (radiusInMeters (gm w)) p f) eqn:Hq.
    + unfold Marker_new, modify_this. rewrite IH.
      open_world w. simpl.
      rewrite <- !app_assoc. simpl. rewrite Nat.add_succ_r. reflexivity.
    + unfold ret. rewrite IH. reflexivity.
Qed.

Lemma updateDistanceMarkers_exec (p : Coord) (w : World) :
  exec (GeolocationManager.updateDistanceMarkers p) w = markersUpdated p w.
Proof.
  unfold exec, GeolocationManager.updateDistanceMarkers, bind, get_this.
  rewrite forEach_Marker_remove. unfold modify_this.
  rewrite forEach_addDistanceMarker.
  open_world w. reflexivity.
Qed.

Lemma qualifies_true (radius : R) (p : Coord) (f : Feature) :
  qualifies radius p f = true <-> 1000 * distanceKm p (coordinates f) <= radius.
Proof. unfold qualifies, distanceKm. rewrite method_is_global. apply num_le_true. Qed.

(** C4. After [updateDistanceMarkers], the features with a distance marker
    are exactly the features whose haversine distance from the user
    position, in metres, is at most the radius, in the order of the input
    collection; none is reported exactly when no feature qualifies. *)
Theorem proximity_query_exact :
  forall (w : World) (userPosition : Coord),
    let w' := exec (GeolocationManager.updateDistanceMarkers userPosition) w in
    let radius := radiusInMeters (gm w) in
    proximityFeatures w' = filter (qualifies radius userPosition) (features w) /\
    (forall f : Feature,
        In f (proximityFeatures w') <->
        In f (features w) /\ 1000 * distanceKm userPosition (coordinates f) <= radius) /\
    (proximityFeatures w' = [] <->
     forall f : Feature,
       In f (features w) -> ~ 1000 * distanceKm userPosition (coordinates f) <= radius).
Proof.
  intros w p w' radius.
  assert (Heq : proximityFeatures w' = filter (qualifies radius p) (features w)).
  { unfold w', proximityFeatures. rewrite updateDistanceMarkers_exec.
    unfold markersUpdated. simpl. apply newMarkers_features. }
  split; [exact Heq |]. rewrite Heq. split.
  - intro f. rewrite filter_In, qualifies_true. reflexivity.
  - split.
    + intros Hnil f Hin Hq.
      assert (Hf : In f (filter (qualifies radius p) (features w)))
        by (apply filter_In; split; [exact Hin | apply qualifies_true; exact Hq]).
      rewrite Hnil in Hf. exact Hf.
    + intro Hnone. destruct (filter (qualifies radius p) (features w)) as [| f l] eqn:Hf;
        [reflexivity |].
      assert (Hin : In f (filter (qualifies radius p) (features w)))
        by (rewrite Hf; left; reflexivity).
      apply filter_In in Hin. destruct Hin as [Hin Hq].
      exfalso. apply (Hnone f Hin). apply qualifies_true. exact Hq.
Qed.

Lemma proximity_query_exact_witness :
  let C := CONFIG.MAP.boundary.center in
  let here := mkFeature C [] in
  let w := trackingWorld (toLngLat C) [here] in
  In here (features w) /\
  1000 * distanceKm C (coordinates here) <= radiusInMeters (gm w) /\
  In here (proximityFeatures (exec (GeolocationManager.updateDistanceMarkers C) w)).
Proof.
  intros C here w.
  assert (Hin : In here (features w)) by (left; reflexivity).
  assert (Hd : 1000 * distanceKm C (coordinates here) <= radiusInMeters (gm w)).
  { unfold distanceKm. change (coordinates here) with C.
    rewrite calculateDistance_self. simpl. lra. }
  split; [exact Hin | split; [exact Hd |]].
  exact (proj2 (proj1 (proj2 (proximity_query_exact w C)) here) (conj Hin Hd)).
Defined.

Lemma removeAll_covered (ms l : list Marker) :
  (forall x, In x l -> In x ms) -> removeAll ms l = [].
Proof.
  unfold removeAll. induction l as [| x l IH]; intro Hsub; simpl; [reflexivity |].
  assert (Hx : existsb (fun m => Nat.eqb (markerId x) (markerId m)) ms = true).
  { apply existsb_exists. exists x. split; [apply Hsub; left; reflexivity |].
    apply Nat.eqb_refl. }
  rewrite Hx. simpl. apply IH. intros y Hy. apply Hsub. right. exact Hy.
Qed.

Lemma removeAll_older (n : nat) (ms l : list Marker) :
  Forall (fun x => (markerId x < n)%nat) l ->
  Forall (fun m => (n <= markerId m)%nat) ms ->
  removeAll ms l = l.
Proof.
  intros Hl Hms. unfold removeAll. induction Hl as [| x l Hx Hl IH]; simpl; [reflexivity |].
  assert (Hnone : existsb (fun m => Nat.eqb (markerId x) (markerId m)) ms = false).
  { destruct (existsb _ ms) eqn:He; [| reflexivity].
    apply existsb_exists in He. destruct He as [m [Hm Heq]].
    apply Nat.eqb_eq in Heq. rewrite Forall_forall in Hms. specialize (Hms m Hm). lia. }
  rewrite Hnone. simpl. rewrite IH. reflexivity.
Qed.

Lemma removeAll_Forall (P : Marker -> Prop) (ms l : list Marker) :
  Forall P l -> Forall P (removeAll ms l).
Proof.
  rewrite !Forall_forall. intros H x Hx. unfold removeAll in Hx.
  apply filter_In in Hx. apply H, Hx.
Qed.

Lemma markersUpdated_twice :
  forall (w : World) (p : Coord),
    markers_fresh w ->
    let w1 := markersUpdated p w in
    let w2 := markersUpdated p w1 in
    map rendered (map_markers w2) = map rendered (map_markers w1) /\
    map rendered (distanceMarkers (gm w2)) = map rendered (distanceMarkers (gm w1)) /\
    (forall m, In m (distanceMarkers (gm w1)) -> ~ In m (map_markers w2)) /\
    (map_markers w = distanceMarkers (gm w) ->
     map_markers w1 = distanceMarkers (gm w1) /\
     map_markers w2 = distanceMarkers (gm w2) /\
     (List.length (map_markers w2) <= List.length (features w))%nat) /\
    markers_fresh w1.
Proof.
  intros w p [Hmm Hdm] w1 w2. unfold w2, w1.
  set (F := filter (qualifies (radiusInMeters (gm w)) p) (features w)).
  set (n0 := markers_created w).
  set (new1 := newMarkers p n0 F).
  set (kept := removeAll (distanceMarkers (gm w)) (map_markers w)).
  assert (Hw1 : markersUpdated p w =
                mkWorld (set_distanceMarkers new1 (gm w)) (features w) (map_center w)
                        (map_easing w) (map_loaded w) (kept ++ new1)
                        (n0 + List.length new1) (trace w)) by reflexivity.
  rewrite Hw1. unfold markersUpdated. simpl.
  fold F. set (new2 := newMarkers p (n0 + List.length new1) F).
  assert (Hids1 : Forall (fun m => (n0 <= markerId m < n0 + List.length F)%nat) new1)
    by apply newMarkers_ids.
  assert (Hlen1 : List.length new1 = List.length F) by apply newMarkers_length.
  assert (Hkept : Forall (fun x => (markerId x < n0)%nat) kept)
    by (apply removeAll_Forall; exact Hmm).
  assert (Hge1 : Forall (fun m => (n0 <= markerId m)%nat) new1)
    by (eapply Forall_impl; [| exact Hids1]; simpl; intros; lia).
  assert (Hrem : removeAll new1 (kept ++ new1) = kept).
  { unfold removeAll. rewrite filter_app. fold (removeAll new1 kept) (removeAll new1 new1).
    rewrite (removeAll_older n0) by assumption.
    rewrite removeAll_covered by auto. apply app_nil_r. }
  rewrite Hrem.
  assert (Hids2 : Forall (fun m => (n0 + List.length new1 <= markerId m
                                    < n0 + List.length new1 + List.length F)%nat) new2)
    by apply newMarkers_ids.
  repeat split.
  - rewrite !map_app. f_equal. apply newMarkers_rendered.
  - apply newMarkers_rendered.
  - intros m Hm Hin. apply in_app_or in Hin.
    rewrite Forall_forall in Hkept, Hids1, Hids2.
    specialize (Hids1 m Hm). destruct Hin as [Hin | Hin].
    + specialize (Hkept m Hin). lia.
    + specialize (Hids2 m Hin). lia.
  - unfold kept. rewrite H. rewrite removeAll_covered by auto. reflexivity.
  - unfold kept. rewrite H. rewrite removeAll_covered by auto. reflexivity.
  - unfold kept. rewrite H. rewrite removeAll_covered by auto. simpl.
    unfold new2. rewrite newMarkers_length. unfold F.
    clear. induction (features w) as [| f l IH]; simpl; [lia |].
    destruct (qualifies _ p f); simpl; lia.
  - apply Forall_app. split.
    + eapply Forall_impl; [| exact Hkept]. simpl. intros; lia.
    + eapply Forall_impl; [| exact Hids1]. simpl. intros; lia.
  - simpl. eapply Forall_impl; [| exact Hids1]. simpl. intros; lia.
Qed.

(** C10. Calling [updateDistanceMarkers] twice with the same position
    renders the same markers as calling it once; every marker of the
    previous call is taken off the map, and when the map's markers are the
    tracked ones the rendered markers are exactly those of the qualifying
    features, so they never outnumber the features. *)
Theorem updateDistanceMarkers_idempotent :
  forall (w : World) (p : Coord),
    markers_fresh w ->
    let w1 := exec (GeolocationManager.updateDistanceMarkers p) w in
    let w2 := exec (GeolocationManager.updateDistanceMarkers p) w1 in
    map rendered (map_markers w2) = map rendered (map_markers w1) /\
    map rendered (distanceMarkers (gm w2)) = map rendered (distanceMarkers (gm w1)) /\
    (forall m, In m (distanceMarkers (gm w1)) -> ~ In m (map_markers w2)) /\
    (map_markers w = distanceMarkers (gm w) ->
     map_markers w1 = distanceMarkers (gm w1) /\
     map_markers w2 = distanceMarkers (gm w2) /\
     (List.length (map_markers w2) <= List.length (features w))%nat) /\
    markers_fresh w1.
Proof.
  intros w p Hfresh. cbv zeta. rewrite !updateDistanceMarkers_exec.
  exact (markersUpdated_twice w p Hfresh).
Qed.

(** ** The listeners of the tracking toggle *)

Lemma showBoundaryLayers_exec (w : World) :
  exec GeolocationManager.showBoundaryLayers w =
  with_trace (trace w ++ boundaryLayerCommands (map_loaded w) (boundaryLayerIds (gm w))) w.
Proof.
  unfold exec, GeolocationManager.showBoundaryLayers, bind at 1, get_this.
  generalize (boundaryLayerIds (gm w)) as ids.
  assert (Hgen : forall ids t,
             snd (forEach ids
                    (fun layerId =>
                       present <- map_getLayer layerId ;;
                       if present then
                         emit (LayerVisibility layerId "visible") ;;
                         if String.eqb layerId "boundary-fill"
                         then emit (FillOpacityRamp layerId) else ret tt
                       else ret tt)
                    (with_trace t w)) =
             with_trace (t ++ boundaryLayerCommands (map_loaded w) ids) w).
  { induction ids as [| layerId ids IH]; intro t.
    - simpl. rewrite app_nil_r. reflexivity.
    - simpl forEach. unfold bind at 1. unfold bind at 1.
      unfold map_getLayer at 1. cbn [fst snd boundaryLayerCommands].
      replace (map_loaded (with_trace t w)) with (map_loaded w) by (destruct w; reflexivity).
      destruct (hasLayer (map_loaded w) layerId).
      + unfold bind at 1. unfold emit at 1.
        destruct (String.eqb layerId "boundary-fill").
        * unfold emit at 1.
          replace (with_trace _ (with_trace _ (with_trace t w)))
            with (with_trace ((t ++ [LayerVisibility layerId "visible"]) ++
                              [FillOpacityRamp layerId]) w)
            by (destruct w; reflexivity).
          rewrite IH. rewrite <- !app_assoc. reflexivity.
        * unfold ret.
          replace (with_trace _ (with_trace t w))
            with (with_trace (t ++ [LayerVisibility layerId "visible"]) w)
            by (destruct w; reflexivity).
          rewrite IH. rewrite <- !app_assoc. reflexivity.
      + unfold ret. rewrite IH. reflexivity. }
  intro ids. specialize (Hgen ids (trace w)).
  replace (with_trace (trace w) w) with w in Hgen by (destruct w; reflexivity).
  exact Hgen.
Qed.

Lemma on_trackuserlocationstart_exec (w : World) :
  exec GeolocationManager.on_trackuserlocationstart w = trackingStarted w.
Proof.
  unfold exec, GeolocationManager.on_trackuserlocationstart, bind, emit, modify_this.
  set (w1 := with_gm _ _).
  pose proof (showBoundaryLayers_exec w1) as H. unfold exec in H. rewrite H.
  unfold w1. open_world w.
  unfold with_trace, with_gm. simpl. rewrite <- app_assoc. reflexivity.
Qed.

Lemma clearSearchRadius_exec (w : World) :
  exec GeolocationManager.clearSearchRadius w =
  with_trace (trace w ++ clearRadiusCommands (gm w) (map_loaded w)) w.
Proof.
  unfold exec, GeolocationManager.clearSearchRadius, clearRadiusCommands,
    bind, get_this, map_getSource.
  cbn [fst snd].
  destruct (hasSource (map_loaded w) (searchRadiusId (gm w))).
  - unfold forEach, bind, emit, ret. destruct w. unfold with_trace. simpl.
    rewrite <- !app_assoc. reflexivity.
  - unfold ret. simpl. rewrite app_nil_r. destruct w; reflexivity.
Qed.

Lemma on_trackuserlocationend_exec (w : World) :
  exec GeolocationManager.on_trackuserlocationend w = trackingEnded w.
Proof.
  unfold exec, GeolocationManager.on_trackuserlocationend.
  unfold bind at 1 2 3 4. unfold emit at 1, modify_this at 1 2, emit at 1.
  unfold bind at 1.
  match goal with
  | |- context [GeolocationManager.clearSearchRadius ?w0] =>
      pose proof (clearSearchRadius_exec w0) as H; unfold exec in H;
      destruct (GeolocationManager.clearSearchRadius w0) as [u w1]; simpl in H; subst w1
  end.
  unfold bind, get_this, modify_this. rewrite forEach_Marker_remove.
  unfold trackingEnded, clearRadiusCommands.
  open_world w.
  unfold with_trace, with_gm, with_markers. simpl.
  rewrite <- !app_assoc. reflexivity.
Qed.

(** ** Handling a position update *)

Lemma updateSearchRadius_exec (c : Coord) (w : World) :
  exec (GeolocationManager.updateSearchRadius c) w =
  with_trace (trace w ++ searchRadiusCommands w c) w.
Proof.
  unfold exec, GeolocationManager.updateSearchRadius, searchRadiusCommands,
    bind, get_this, map_getSource.
  cbn [fst snd].
  destruct (hasSource (map_loaded w) (searchRadiusId (gm w))); cbn [negb].
  - unfold forEach, bind, emit, ret. destruct w. unfold with_trace. simpl.
    rewrite <- !app_assoc. reflexivity.
  - unfold ret. simpl. rewrite app_nil_r. destruct w; reflexivity.
Qed.

Lemma showBoundaryPopup_exec (w : World) :
  exec GeolocationManager.showBoundaryPopup w =
  with_trace (trace w ++ boundaryPopupCommands w) w.
Proof.
  unfold exec, GeolocationManager.showBoundaryPopup, boundaryPopupCommands,
    bind, get_this, emit, map_getLayer, ret.
  destruct w as [g fs c e l ms n t]. unfold with_trace. simpl.
  destruct (hasLayer l "boundary-fill"); simpl; rewrite <- !app_assoc; reflexivity.
Qed.

Lemma geolocateControl_trigger_exec (w : World) :
  exec GeolocationManager.geolocateControl_trigger w = triggered w.
Proof.
  unfold exec, GeolocationManager.geolocateControl_trigger, triggered.
  unfold bind at 1 2. unfold emit at 1, get_this at 1. cbv zeta.
  replace (isTracking (gm (with_trace (trace w ++ [GeolocateTrigger]) w)))
    with (isTracking (gm w)) by (destruct w; reflexivity).
  destruct (isTracking (gm w)).
  - apply on_trackuserlocationend_exec.
  - apply on_trackuserlocationstart_exec.
Qed.

Lemma handleUserLocation_exec (position : GeolocationManager.Position) (w : World) :
  exec (GeolocationManager.handleUserLocation position) w = userLocationHandled position w.
Proof.
  unfold userLocationHandled.
  set (p := (GeolocationManager.longitude position, GeolocationManager.latitude position)).
  destruct (GeolocationManager.isWithinBoundary (gm w) p) eqn:Hin.
  - unfold exec, GeolocationManager.handleUserLocation. fold p.
    unfold bind at 1. unfold get_this at 1. rewrite Hin.
    unfold bind at 1.
    pose proof (updateSearchRadius_exec p w) as H1. unfold exec in H1.
    destruct (GeolocationManager.updateSearchRadius p w) as [u1 w1]. simpl in H1. subst w1.
    unfold bind at 1.
    set (w1 := with_trace (trace w ++ searchRadiusCommands w p) w).
    pose proof (updateDistanceMarkers_exec p w1) as H2. unfold exec in H2.
    destruct (GeolocationManager.updateDistanceMarkers p w1) as [u2 w2]. simpl in H2. subst w2.
    set (w2 := markersUpdated p w1).
    unfold cameraFollowed, bind, get_this, map_getCenter, modify_this, emit, ret, distanceKm.
    fold p.
    destruct (isPopupOpen (gm w2)); cbn [negb]; [reflexivity |].
    destruct (isFirstLocation (gm w2)); [reflexivity |].
    cbv beta.
    unfold GeolocationManager.calculateDistance, calculateDistance, haversine_a.
    cbv zeta. cbn [fst snd lng lat].
    destruct (num_gt _ 0.05); reflexivity.
  - unfold exec, GeolocationManager.handleUserLocation. fold p.
    unfold bind at 1. unfold get_this at 1. rewrite Hin.
    unfold bind at 1.
    pose proof (geolocateControl_trigger_exec w) as H1. unfold exec in H1.
    destruct (GeolocationManager.geolocateControl_trigger w) as [u1 w1]. simpl in H1. subst w1.
    cbv zeta. apply showBoundaryPopup_exec.
Qed.

(** ** The other listeners *)

Lemma on_trackuserlocationupdate_exec (position : GeolocationManager.Position) (w : World) :
  exec (GeolocationManager.on_trackuserlocationupdate position) w =
  with_trace (trace w ++
              if negb (isPopupOpen (gm w)) && isTracking (gm w)
              then [MapEaseTo (mkCamera None None None
                                 (Some (GeolocationManager.heading_or_0 position))
                                 (Some 0) None None false)]
              else []) w.
Proof.
  unfold exec, GeolocationManager.on_trackuserlocationupdate, bind, get_this, emit, ret.
  destruct (negb (isPopupOpen (gm w)) && isTracking (gm w))%bool; simpl;
    [reflexivity | rewrite app_nil_r; destruct w; reflexivity].
Qed.

Lemma handleGeolocationError_exec (code : Z) (w : World) :
  exec (GeolocationManager.handleGeolocationError code) w =
  with_trace (trace w ++
              [ConsoleError;
               Notification (match GeolocationManager.errorMessage code with
                             | Some m => m
                             | None => "undefined"
                             end)]) w.
Proof.
  unfold exec, GeolocationManager.handleGeolocationError,
    GeolocationManager.showNotification, bind, emit.
  destruct (GeolocationManager.errorMessage code); destruct w; unfold with_trace; simpl;
    rewrite <- app_assoc; reflexivity.
Qed.

(** ** Frame properties of the listeners *)

Lemma run_cons (e : Event) (es : list Event) (w : World) :
  exec (run (e :: es)) w = exec (run es) (exec (dispatch e) w).
Proof.
  unfold run, exec. simpl. unfold bind. destruct (dispatch e w) as [u w']. reflexivity.
Qed.

Lemma run_nil (w : World) : exec (run []) w = w.
Proof. reflexivity. Qed.

Lemma cameraFollowed_frame (position : GeolocationManager.Position) (w : World) :
  let w' := cameraFollowed position w in
  features w' = features w /\
  map_markers w' = map_markers w /\
  markers_created w' = markers_created w /\
  distanceMarkers (gm w') = distanceMarkers (gm w) /\
  (isFirstLocation (gm w) = false -> isFirstLocation (gm w') = false) /\
  exists cmds, trace w' = trace w ++ cmds.
Proof.
  unfold cameraFollowed.
  destruct w as [g fs c e l ms n t]. destruct g. simpl.
  destruct isPopupOpen0; simpl.
  - repeat split; auto. exists []. rewrite app_nil_r. reflexivity.
  - destruct isFirstLocation0; simpl.
    + repeat split; auto. eexists. reflexivity.
    + destruct (num_gt _ 0.05); simpl; repeat split; auto.
      * eexists. reflexivity.
      * exists []. rewrite app_nil_r. reflexivity.
Qed.

(** What triggering the control changes: the two flags, the trace and, when
    it ends the session, the distance markers. *)
Lemma triggered_frame (w : World) :
  let w' := triggered w in
  features w' = features w /\
  isPopupOpen (gm w') = isPopupOpen (gm w) /\
  centerPoint (gm w') = centerPoint (gm w) /\
  boundaryRadius (gm w') = boundaryRadius (gm w) /\
  radiusInMeters (gm w') = radiusInMeters (gm w) /\
  map_center w' = map_center w /\
  map_loaded w' = map_loaded w /\
  markers_created w' = markers_created w /\
  isTracking (gm w') = negb (isTracking (gm w)) /\
  isFirstLocation (gm w') = (isTracking (gm w) || isFirstLocation (gm w))%bool /\
  trace w' = trace w ++ [GeolocateTrigger] ++ toggleCommands w.
Proof.
  unfold triggered, toggleCommands, trackingEnded, trackingStarted.
  open_world w. cbn [gm isTracking]. cbv zeta.
  destruct isTracking0; simpl; rewrite <- ?app_assoc; repeat split; reflexivity.
Qed.

Lemma triggered_markers (w : World) :
  distanceMarkers (gm (triggered w)) =
    (if isTracking (gm w) then [] else distanceMarkers (gm w)) /\
  map_markers (triggered w) =
    (if isTracking (gm w) then removeAll (distanceMarkers (gm w)) (map_markers w)
     else map_markers w).
Proof.
  unfold triggered, trackingEnded, trackingStarted.
  open_world w. cbn [gm isTracking]. cbv zeta.
  destruct isTracking0; split; reflexivity.
Qed.

Lemma triggered_tracked (w : World) : markers_tracked w -> markers_tracked (triggered w).
Proof.
  intros [Heq [Hmm Hdm]].
  destruct (triggered_markers w) as [Hd Hm].
  destruct (triggered_frame w) as [_ [_ [_ [_ [_ [_ [_ [Hn _]]]]]]]].
  unfold markers_tracked, markers_fresh. rewrite Hd, Hm, Hn.
  destruct (isTracking (gm w)).
  - split; [apply removeAll_covered; rewrite Heq; auto |].
    split; [apply removeAll_Forall; exact Hmm | constructor].
  - auto.
Qed.

Lemma with_trace_tracked (t : list Command) (w : World) :
  markers_tracked w -> markers_tracked (with_trace t w).
Proof. destruct w. exact (fun H => H). Qed.

Lemma userLocationHandled_frame (position : GeolocationManager.Position) (w : World) :
  let w' := userLocationHandled position w in
  features w' = features w /\
  (GeolocationManager.isWithinBoundary (gm w)
     (GeolocationManager.longitude position, GeolocationManager.latitude position) = true ->
   isFirstLocation (gm w) = false -> isFirstLocation (gm w') = false) /\
  (exists cmds, trace w' = trace w ++ cmds) /\
  (markers_tracked w -> markers_tracked w').
Proof.
  unfold userLocationHandled.
  set (p := (GeolocationManager.longitude position, GeolocationManager.latitude position)).
  destruct (GeolocationManager.isWithinBoundary (gm w) p).
  - set (w1 := with_trace (trace w ++ searchRadiusCommands w p) w).
    set (w2 := markersUpdated p w1).
    destruct (cameraFollowed_frame position w2) as [Hf [Hm [Hn [Hd [Hfirst [cmds Ht]]]]]].
    cbv zeta. repeat split.
    + rewrite Hf. destruct w; reflexivity.
    + intros _ H. apply Hfirst. open_world w. exact H.
    + exists (searchRadiusCommands w p ++ cmds). rewrite Ht.
      destruct w. simpl. rewrite app_assoc. reflexivity.
    + rewrite Hm, Hd. unfold w2, markersUpdated. simpl.
      destruct H as [Heq _].
      replace (map_markers w1) with (map_markers w) by (destruct w; reflexivity).
      replace (gm w1) with (gm w) by (destruct w; reflexivity).
      rewrite Heq, removeAll_covered by auto. reflexivity.
    + rewrite Hm, Hn. destruct H as [Heq [Hmm Hdm]].
      pose proof (markersUpdated_twice w1 p) as Hid. fold w2 in Hid.
      assert (Hfresh : markers_fresh w1) by (destruct w; split; assumption).
      destruct (Hid Hfresh) as [_ [_ [_ [_ [H1 _]]]]]. exact H1.
    + rewrite Hd, Hn. destruct H as [Heq [Hmm Hdm]].
      pose proof (markersUpdated_twice w1 p) as Hid. fold w2 in Hid.
      assert (Hfresh : markers_fresh w1) by (destruct w; split; assumption).
      destruct (Hid Hfresh) as [_ [_ [_ [_ [_ H2]]]]]. exact H2.
  - cbv zeta.
    destruct (triggered_frame w) as [Hf [_ [_ [_ [_ [_ [_ [_ [_ [_ Ht]]]]]]]]]].
    split; [| split; [| split]].
    + rewrite <- Hf. destruct (triggered w); reflexivity.
    + intro Hbad. discriminate Hbad.
    + exists (([GeolocateTrigger] ++ toggleCommands w) ++ boundaryPopupCommands (triggered w)).
      rewrite app_assoc, <- Ht. destruct (triggered w); reflexivity.
    + intro H. apply with_trace_tracked, triggered_tracked. exact H.
Qed.

(** No listener changes the boundary. *)
Lemma userLocationHandled_config (position : GeolocationManager.Position) (w : World) :
  let w' := userLocationHandled position w in
  isPopupOpen (gm w') = isPopupOpen (gm w) /\
  centerPoint (gm w') = centerPoint (gm w) /\
  boundaryRadius (gm w') = boundaryRadius (gm w) /\
  map_center w' = map_center w.
Proof.
  unfold userLocationHandled, cameraFollowed, markersUpdated.
  destruct (GeolocationManager.isWithinBoundary (gm w) _).
  - open_world w. simpl.
    destruct isPopupOpen0; simpl; [auto |].
    destruct isFirstLocation0; simpl; [auto |].
    destruct (num_gt _ 0.05); simpl; auto.
  - cbv zeta.
    destruct (triggered_frame w) as [_ [H1 [H2 [H3 [_ [H4 _]]]]]].
    rewrite <- H1, <- H2, <- H3, <- H4. destruct (triggered w); simpl; auto.
Qed.

Lemma dispatch_boundary (e : Event) (w : World) :
  let w' := exec (dispatch e) w in
  centerPoint (gm w') = centerPoint (gm w) /\
  boundaryRadius (gm w') = boundaryRadius (gm w).
Proof.
  destruct e as [position | position | code | | | | | c easing |]; cbv zeta.
  - change (dispatch (Geolocate position))
      with (GeolocationManager.handleUserLocation position).
    rewrite handleUserLocation_exec.
    destruct (userLocationHandled_config position w) as [_ [H1 [H2 _]]]. auto.
  - change (dispatch (TrackUserLocationUpdate position))
      with (GeolocationManager.on_trackuserlocationupdate position).
    rewrite on_trackuserlocationupdate_exec. open_world w. auto.
  - change (dispatch (GeolocationError code))
      with (GeolocationManager.handleGeolocationError code).
    rewrite handleGeolocationError_exec. open_world w. auto.
  - change (dispatch TrackUserLocationStart)
      with GeolocationManager.on_trackuserlocationstart.
    rewrite on_trackuserlocationstart_exec. open_world w. auto.
  - change (dispatch TrackUserLocationEnd)
      with GeolocationManager.on_trackuserlocationend.
    rewrite on_trackuserlocationend_exec. open_world w. auto.
  - open_world w. auto.
  - open_world w. auto.
  - open_world w. auto.
  - change (dispatch MoveEnd) with on_moveend. rewrite on_moveend_exec.
    destruct (map_easing w); [| destruct (num_gt _ 1)]; open_world w; auto.
Qed.

Lemma isWithinBoundary_ext (g g' : GeolocationManagerFields) (P : Coord) :
  centerPoint g' = centerPoint g -> boundaryRadius g' = boundaryRadius g ->
  GeolocationManager.isWithinBoundary g' P = GeolocationManager.isWithinBoundary g P.
Proof.
  intros Hc Hr. unfold GeolocationManager.isWithinBoundary. rewrite Hc, Hr. reflexivity.
Qed.

Lemma keeps_session_ext (g g' : GeolocationManagerFields) (e : Event) :
  centerPoint g' = centerPoint g -> boundaryRadius g' = boundaryRadius g ->
  keeps_session g e -> keeps_session g' e.
Proof.
  intros Hc Hr. destruct e; simpl; auto.
  rewrite (isWithinBoundary_ext g g' _ Hc Hr). auto.
Qed.

Lemma stays_outside_ext (g g' : GeolocationManagerFields) (e : Event) :
  centerPoint g' = centerPoint g -> boundaryRadius g' = boundaryRadius g ->
  stays_outside g e -> stays_outside g' e.
Proof.
  intros Hc Hr. destruct e; simpl; auto.
  rewrite (isWithinBoundary_ext g g' _ Hc Hr). auto.
Qed.

Lemma dispatch_frame (e : Event) (w : World) :
  let w' := exec (dispatch e) w in
  features w' = features w /\
  (keeps_session (gm w) e ->
   isFirstLocation (gm w) = false -> isFirstLocation (gm w') = false) /\
  (exists cmds, trace w' = trace w ++ cmds) /\
  (markers_tracked w -> markers_tracked w').
Proof.
  destruct e as [position | position | code | | | | | c easing |]; cbv zeta.
  - change (dispatch (Geolocate position))
      with (GeolocationManager.handleUserLocation position).
    rewrite handleUserLocation_exec.
    destruct (userLocationHandled_frame position w) as [H1 [H2 [H3 H4]]]. auto.
  - change (dispatch (TrackUserLocationUpdate position))
      with (GeolocationManager.on_trackuserlocationupdate position).
    rewrite on_trackuserlocationupdate_exec. frame_by_cases w.
  - change (dispatch (GeolocationError code))
      with (GeolocationManager.handleGeolocationError code).
    rewrite handleGeolocationError_exec. frame_by_cases w.
  - change (dispatch TrackUserLocationStart)
      with GeolocationManager.on_trackuserlocationstart.
    rewrite on_trackuserlocationstart_exec. unfold trackingStarted. frame_by_cases w.
  - change (dispatch TrackUserLocationEnd)
      with GeolocationManager.on_trackuserlocationend.
    rewrite on_trackuserlocationend_exec. unfold trackingEnded.
    repeat split; simpl; auto.
    + intro H. contradiction H.
    + eexists. reflexivity.
    + destruct H as [H _]. rewrite H. apply removeAll_covered. auto.
    + destruct H as [_ [H _]]. apply removeAll_Forall. exact H.
  - frame_by_cases w.
  - frame_by_cases w.
  - frame_by_cases w.
  - change (dispatch MoveEnd) with on_moveend. rewrite on_moveend_exec.
    destruct (map_easing w); [| destruct (num_gt _ 1)]; frame_by_cases w.
Qed.

Lemma run_boundary (es : list Event) (w : World) :
  let w' := exec (run es) w in
  centerPoint (gm w') = centerPoint (gm w) /\
  boundaryRadius (gm w') = boundaryRadius (gm w).
Proof.
  revert w. induction es as [| e es IH]; intro w; cbv zeta.
  - rewrite run_nil. auto.
  - rewrite run_cons.
    destruct (dispatch_boundary e w) as [H1 H2].
    destruct (IH (exec (dispatch e) w)) as [H3 H4].
    split; congruence.
Qed.

Lemma run_frame (es : list Event) (w : World) :
  let w' := exec (run es) w in
  features w' = features w /\
  (Forall (keeps_session (gm w)) es ->
   isFirstLocation (gm w) = false -> isFirstLocation (gm w') = false) /\
  (exists cmds, trace w' = trace w ++ cmds) /\
  (markers_tracked w -> markers_tracked w').
Proof.
  revert w. induction es as [| e es IH]; intro w; cbv zeta.
  - rewrite run_nil.
    split; [reflexivity | split; [auto | split; [| auto]]].
    exists []. rewrite app_nil_r. reflexivity.
  - rewrite run_cons.
    destruct (dispatch_frame e w) as [Hf [Hfirst [[c1 Ht] Hm]]].
    destruct (dispatch_boundary e w) as [Hc Hr].
    destruct (IH (exec (dispatch e) w)) as [Hf' [Hfirst' [[c2 Ht'] Hm']]].
    split; [congruence |]. split; [| split].
    + intros Hkeep H0. inversion Hkeep as [| e0 es0 He Hes]; subst.
      apply Hfirst'.
      * eapply Forall_impl; [| exact Hes].
        intros e0. apply keeps_session_ext; assumption.
      * apply Hfirst; assumption.
    + exists (c1 ++ c2). rewrite Ht', Ht, app_assoc. reflexivity.
    + auto.
Qed.

(** Until a fix inside the boundary consumes it, a re-armed first-fix flag
    stays re-armed. *)
Lemma dispatch_rearmed (e : Event) (w : World) :
  stays_outside (gm w) e ->
  isFirstLocation (gm w) = true -> isFirstLocation (gm (exec (dispatch e) w)) = true.
Proof.
  destruct e as [position | position | code | | | | | c easing |]; intros Hout Hfirst.
  - change (dispatch (Geolocate position))
      with (GeolocationManager.handleUserLocation position).
    rewrite handleUserLocation_exec. unfold userLocationHandled.
    simpl in Hout. rewrite Hout. cbv zeta.
    destruct (triggered_frame w) as [_ [_ [_ [_ [_ [_ [_ [_ [_ [H _]]]]]]]]]].
    rewrite Hfirst, orb_true_r in H. rewrite <- H.
    destruct (triggered w); reflexivity.
  - change (dispatch (TrackUserLocationUpdate position))
      with (GeolocationManager.on_trackuserlocationupdate position).
    rewrite on_trackuserlocationupdate_exec. open_world w. exact Hfirst.
  - change (dispatch (GeolocationError code))
      with (GeolocationManager.handleGeolocationError code).
    rewrite handleGeolocationError_exec. open_world w. exact Hfirst.
  - change (dispatch TrackUserLocationStart)
      with GeolocationManager.on_trackuserlocationstart.
    rewrite on_trackuserlocationstart_exec. open_world w. exact Hfirst.
  - change (dispatch TrackUserLocationEnd)
      with GeolocationManager.on_trackuserlocationend.
    rewrite on_trackuserlocationend_exec. open_world w. reflexivity.
  - open_world w. exact Hfirst.
  - open_world w. exact Hfirst.
  - open_world w. exact Hfirst.
  - change (dispatch MoveEnd) with on_moveend. rewrite on_moveend_exec.
    destruct (map_easing w); [| destruct (num_gt _ 1)]; open_world w; exact Hfirst.
Qed.

Lemma run_rearmed (es : list Event) (w : World) :
  Forall (stays_outside (gm w)) es ->
  isFirstLocation (gm w) = true -> isFirstLocation (gm (exec (run es) w)) = true.
Proof.
  revert w. induction es as [| e es IH]; intros w Hout Hfirst.
  - exact Hfirst.
  - rewrite run_cons. inversion Hout as [| e0 es0 He Hes]; subst.
    destruct (dispatch_boundary e w) as [Hc Hr].
    apply IH.
    + eapply Forall_impl; [| exact Hes].
      intros e0. apply stays_outside_ext; assumption.
    + apply dispatch_rearmed; assumption.
Qed.

(** ** Camera following *)

Lemma distance_north_north (c : Coord) (d1 d2 : R) :
  d1 <= d2 -> d2 - d1 < 6371 -> distanceKm (north_of c d1) (north_of c d2) = d2 - d1.
Proof.
  intros Hle Hlt. unfold distanceKm, north_of. simpl.
  pose proof PI2_1 as Hpi.
  assert (Hpos : 0 < 6371 * PI) by lra.
  assert (Hinv : 0 < / (6371 * PI)) by (apply Rinv_0_lt_compat; exact Hpos).
  assert (Hdiff : snd c + d2 * 180 / (6371 * PI) - (snd c + d1 * 180 / (6371 * PI)) =
                  (d2 - d1) * 180 / (6371 * PI)) by (field; lra).
  assert (Hq : 0 <= (d2 - d1) * 180 / (6371 * PI) < 180).
  { split.
    - apply Rmult_le_pos; [lra | lra].
    - apply Rmult_lt_reg_r with (6371 * PI); [exact Hpos |].
      unfold Rdiv. rewrite Rmult_assoc, Rinv_l by lra. nra. }
  rewrite calculateDistance_meridian by lra.
  rewrite Hdiff. unfold toRad, Math.PI. field. lra.
Qed.

Lemma cameraCommands_app (l1 l2 : list Command) :
  cameraCommands (l1 ++ l2) = cameraCommands l1 ++ cameraCommands l2.
Proof. apply filter_app. Qed.

Lemma cameraCommands_searchRadius (w : World) (p : Coord) :
  cameraCommands (searchRadiusCommands w p) = [].
Proof.
  unfold searchRadiusCommands.
  destruct (hasSource (map_loaded w) (searchRadiusId (gm w))); reflexivity.
Qed.

Lemma boundaryPopupCommands_triggered (w : World) :
  boundaryPopupCommands (triggered w) = boundaryPopupCommands w.
Proof.
  destruct (triggered_frame w) as [_ [_ [Hc [_ [_ [_ [Hl _]]]]]]].
  unfold boundaryPopupCommands. rewrite Hc, Hl. reflexivity.
Qed.

Lemma emitted_handleUserLocation (position : GeolocationManager.Position) (w : World) :
  emitted (GeolocationManager.handleUserLocation position) w =
  if GeolocationManager.isWithinBoundary (gm w) (userPositionOf position)
  then searchRadiusCommands w (userPositionOf position) ++ followCommands position w
  else outOfBoundsCommands w.
Proof.
  apply emitted_of_trace. rewrite handleUserLocation_exec.
  unfold userLocationHandled, userPositionOf.
  destruct (GeolocationManager.isWithinBoundary (gm w) _).
  - unfold cameraFollowed, followCommands, markersUpdated.
    open_world w. simpl.
    destruct isPopupOpen0; simpl; [rewrite app_nil_r; reflexivity |].
    destruct isFirstLocation0; simpl; [rewrite <- app_assoc; reflexivity |].
    destruct (num_gt _ 0.05); simpl;
      [rewrite <- app_assoc; reflexivity | rewrite app_nil_r; reflexivity].
  - cbv zeta. rewrite boundaryPopupCommands_triggered.
    destruct (triggered_frame w) as [_ [_ [_ [_ [_ [_ [_ [_ [_ [_ Ht]]]]]]]]]].
    replace (trace (with_trace (trace (triggered w) ++ boundaryPopupCommands w) (triggered w)))
      with (trace (triggered w) ++ boundaryPopupCommands w)
      by (destruct (triggered w); reflexivity).
    unfold outOfBoundsCommands. rewrite Ht, <- !app_assoc. reflexivity.
Qed.

Lemma emitted_run_cons (e : Event) (es : list Event) (w : World) :
  emitted (run (e :: es)) w =
  emitted (dispatch e) w ++ emitted (run es) (exec (dispatch e) w).
Proof.
  destruct (dispatch_frame e w) as [_ [_ [[c1 Ht] _]]].
  destruct (run_frame es (exec (dispatch e) w)) as [_ [_ [[c2 Ht'] _]]].
  rewrite (emitted_of_trace (dispatch e) w c1 Ht).
  rewrite (emitted_of_trace (run es) _ c2 Ht').
  apply emitted_of_trace. rewrite run_cons, Ht', Ht, app_assoc. reflexivity.
Qed.

Lemma isWithinBoundary_true (this : GeolocationManagerFields) (P : Coord) :
  GeolocationManager.isWithinBoundary this P = true <->
  distanceKm P (centerPoint this) <= boundaryRadius this.
Proof.
  unfold GeolocationManager.isWithinBoundary, distanceKm.
  rewrite method_is_global. apply num_le_true.
Qed.

(** C3, as stated, fails: with the camera at the boundary centre, a fix
    0.03 km north of it and then a fix 0.06 km north of it are 0.03 km
    apart, both in bounds, and the second one still eases the camera to the
    user. *)
Lemma close_consecutive_fixes_still_ease :
  let C := CONFIG.MAP.boundary.center in
  let w := trackingWorld (toLngLat C) [] in
  let p1 := north_of C 0.03 in
  let p2 := north_of C 0.06 in
  isPopupOpen (gm w) = false /\
  isFirstLocation (gm w) = false /\
  GeolocationManager.isWithinBoundary (gm w) p1 = true /\
  GeolocationManager.isWithinBoundary (gm w) p2 = true /\
  distanceKm p1 p2 < 0.05 /\
  In (GeolocationManager.easeToUser p2)
     (emitted (run [Geolocate (fixAt p1); Geolocate (fixAt p2)]) w).
Proof.
  intros C w p1 p2.
  assert (Hc : centerPoint (gm w) = C) by reflexivity.
  assert (Hr : boundaryRadius (gm w) = 2.2) by reflexivity.
  assert (Hd1 : distanceKm p1 C = 0.03) by (apply distance_north; lra).
  assert (Hd2 : distanceKm p2 C = 0.06) by (apply distance_north; lra).
  assert (Hin1 : GeolocationManager.isWithinBoundary (gm w) p1 = true)
    by (apply isWithinBoundary_true; rewrite Hc, Hr, Hd1; lra).
  assert (Hin2 : GeolocationManager.isWithinBoundary (gm w) p2 = true)
    by (apply isWithinBoundary_true; rewrite Hc, Hr, Hd2; lra).
  assert (H12 : distanceKm p1 p2 = 0.06 - 0.03)
    by (apply distance_north_north; lra).
  repeat split; try reflexivity; try assumption; [lra |].
  rewrite emitted_run_cons. apply in_or_app. right.
  rewrite emitted_run_cons. apply in_or_app. left.
  change (dispatch (Geolocate (fixAt p1)))
    with (GeolocationManager.handleUserLocation (fixAt p1)).
  change (dispatch (Geolocate (fixAt p2)))
    with (GeolocationManager.handleUserLocation (fixAt p2)).
  rewrite handleUserLocation_exec.
  set (w1 := userLocationHandled (fixAt p1) w).
  destruct (userLocationHandled_config (fixAt p1) w) as [Hpop [Hcp [Hbr Hmc]]].
  destruct (userLocationHandled_frame (fixAt p1) w) as [_ [Hfirst _]].
  fold w1 in Hpop, Hcp, Hbr, Hmc, Hfirst.
  rewrite emitted_handleUserLocation.
  assert (Hin2' : GeolocationManager.isWithinBoundary (gm w1) (userPositionOf (fixAt p2)) = true).
  { apply isWithinBoundary_true. rewrite Hcp, Hbr, Hc, Hr.
    change (userPositionOf (fixAt p2)) with p2. rewrite Hd2. lra. }
  rewrite Hin2'. apply in_or_app. right.
  unfold followCommands. rewrite Hpop, (Hfirst Hin1 eq_refl), Hmc.
  change (isPopupOpen (gm w)) with false. cbv iota.
  change (GeolocationManager.longitude (fixAt p2), GeolocationManager.latitude (fixAt p2))
    with p2.
  change (lng (map_center w), lat (map_center w)) with C.
  assert (Hfar : num_gt (distanceKm C p2) 0.05 = true).
  { apply num_gt_true. unfold distanceKm in *.
    rewrite calculateDistance_sym. rewrite Hd2. lra. }
  rewrite Hfar. left. reflexivity.
Qed.

(** C3, amended. From tracking in bounds with no popup open and the first
    fix consumed, an in-bounds position update issues exactly one camera
    command, [easeToUser], if the haversine distance from the current camera
    centre to the new position exceeds 0.05 km, and no camera command
    otherwise; in particular, when the camera centre is at the previous fix,
    a fix at most 0.05 km from it issues none and a fix more than 0.05 km
    from it issues exactly one. *)
Theorem easeToUser_iff_camera_far :
  forall (w : World) (position : GeolocationManager.Position),
    let p := userPositionOf position in
    GeolocationManager.isWithinBoundary (gm w) p = true ->
    isPopupOpen (gm w) = false ->
    isFirstLocation (gm w) = false ->
    let cmds := cameraCommands (emitted (GeolocationManager.handleUserLocation position) w) in
    let d := distanceKm (lng (map_center w), lat (map_center w)) p in
    (cmds = [GeolocationManager.easeToUser p] <-> d > 0.05) /\
    (cmds = [] <-> d <= 0.05) /\
    (forall previous : Coord,
        map_center w = toLngLat previous ->
        (distanceKm previous p <= 0.05 -> cmds = []) /\
        (distanceKm previous p > 0.05 -> cmds = [GeolocationManager.easeToUser p])).
Proof.
  intros w position p Hin Hpop Hfirst cmds d.
  assert (Hcmds : cmds = if num_gt d 0.05 then [GeolocationManager.easeToUser p] else []).
  { unfold cmds. rewrite emitted_handleUserLocation. fold p. rewrite Hin.
    rewrite cameraCommands_app, cameraCommands_searchRadius.
    unfold followCommands. rewrite Hpop, Hfirst.
    change (GeolocationManager.longitude position, GeolocationManager.latitude position)
      with p.
    fold d. destruct (num_gt d 0.05); reflexivity. }
  assert (Hgt : d > 0.05 -> cmds = [GeolocationManager.easeToUser p])
    by (intro Hd; rewrite Hcmds, (proj2 (num_gt_true d 0.05) Hd); reflexivity).
  assert (Hle : d <= 0.05 -> cmds = [])
    by (intro Hd; rewrite Hcmds, (proj2 (num_gt_false d 0.05) Hd); reflexivity).
  split; [| split].
  - split; [| exact Hgt]. intro He.
    destruct (Rle_lt_dec d 0.05) as [Hd | Hd]; [| exact Hd].
    rewrite (Hle Hd) in He. discriminate.
  - split; [| exact Hle]. intro He.
    destruct (Rle_lt_dec d 0.05) as [Hd | Hd]; [exact Hd |].
    rewrite (Hgt Hd) in He. discriminate.
  - intros previous Hprev.
    assert (Hd : d = distanceKm previous p)
      by (unfold d; rewrite Hprev; destruct previous; reflexivity).
    rewrite <- Hd. split; assumption.
Qed.

Lemma easeToUser_iff_camera_far_witness :
  let C := CONFIG.MAP.boundary.center in
  let w := trackingWorld (toLngLat C) [] in
  GeolocationManager.isWithinBoundary (gm w) (userPositionOf (fixAt C)) = true /\
  isPopupOpen (gm w) = false /\
  isFirstLocation (gm w) = false /\
  cameraCommands (emitted (GeolocationManager.handleUserLocation (fixAt C)) w) = [].
Proof.
  intros C w.
  assert (Hin : GeolocationManager.isWithinBoundary (gm w) (userPositionOf (fixAt C)) = true).
  { apply isWithinBoundary_true. unfold distanceKm.
    change (centerPoint (gm w)) with C. change (userPositionOf (fixAt C)) with C.
    rewrite calculateDistance_self. simpl. unfold CONFIG.MAP.boundary.radius. lra. }
  repeat split; [exact Hin |].
  destruct (easeToUser_iff_camera_far w (fixAt C) Hin eq_refl eq_refl) as [_ [Hnone _]].
  apply Hnone. unfold distanceKm.
  change (userPositionOf (fixAt C)) with C.
  change (lng (map_center w), lat (map_center w)) with C.
  rewrite calculateDistance_self. lra.
Defined.

Lemma no_flyTo_searchRadius (w : World) (p : Coord) :
  existsb is_flyTo (searchRadiusCommands w p) = false.
Proof.
  unfold searchRadiusCommands.
  destruct (hasSource (map_loaded w) (searchRadiusId (gm w))); reflexivity.
Qed.

Lemma isWithinBoundary_false (this : GeolocationManagerFields) (P : Coord) :
  GeolocationManager.isWithinBoundary this P = false <->
  boundaryRadius this < distanceKm P (centerPoint this).
Proof.
  unfold GeolocationManager.isWithinBoundary, distanceKm.
  rewrite method_is_global. apply num_le_false.
Qed.

(** The flags after a handled fix: a fix inside the boundary consumes the
    first-fix flag unless a popup is open; a fix outside toggles the control,
    which re-arms the flag when it ends the session. *)
Lemma userLocationHandled_flags (position : GeolocationManager.Position) (w : World) :
  let w' := userLocationHandled position w in
  radiusInMeters (gm w') = radiusInMeters (gm w) /\
  map_loaded w' = map_loaded w /\
  (GeolocationManager.isWithinBoundary (gm w) (userPositionOf position) = true ->
   isTracking (gm w') = isTracking (gm w) /\
   isFirstLocation (gm w') = isFirstLocation (gm w) && isPopupOpen (gm w)) /\
  (GeolocationManager.isWithinBoundary (gm w) (userPositionOf position) = false ->
   isTracking (gm w') = negb (isTracking (gm w)) /\
   isFirstLocation (gm w') = isTracking (gm w) || isFirstLocation (gm w)).
Proof.
  unfold userLocationHandled, cameraFollowed, markersUpdated, userPositionOf.
  destruct (GeolocationManager.isWithinBoundary (gm w) _).
  - open_world w. simpl.
    destruct isPopupOpen0; simpl.
    + repeat split; try discriminate; auto. rewrite andb_true_r. reflexivity.
    + destruct isFirstLocation0; simpl.
      * repeat split; try discriminate; auto.
      * destruct (num_gt _ 0.05); simpl; repeat split; try discriminate; auto.
  - cbv zeta.
    destruct (triggered_frame w) as [_ [_ [_ [_ [Hr [_ [Hl [_ [Ht [Hf _]]]]]]]]]].
    rewrite <- Hr, <- Hl, <- Ht, <- Hf.
    destruct (triggered w); simpl. repeat split; try discriminate; auto.
Qed.

(** The first fix inside the boundary with no popup open flies to the user
    and consumes the first-fix flag. *)
Lemma first_fix_commands (position : GeolocationManager.Position) (w : World) :
  GeolocationManager.isWithinBoundary (gm w) (userPositionOf position) = true ->
  isPopupOpen (gm w) = false ->
  isFirstLocation (gm w) = true ->
  cameraCommands (emitted (GeolocationManager.handleUserLocation position) w) =
    [MapFlyTo (mkCamera (Some (userPositionOf position)) (Some 17.5) (Some 45)
                        (Some (match GeolocationManager.heading position with
                               | Some h => h
                               | None => 0
                               end))
                        (Some 2000) None None false)] /\
  isFirstLocation (gm (exec (GeolocationManager.handleUserLocation position) w)) = false.
Proof.
  intros Hin Hpop Hfirst. split.
  - rewrite emitted_handleUserLocation, Hin.
    rewrite cameraCommands_app, cameraCommands_searchRadius.
    unfold followCommands. rewrite Hpop, Hfirst. reflexivity.
  - rewrite handleUserLocation_exec.
    destruct (userLocationHandled_flags position w) as [_ [_ [H _]]].
    destruct (H Hin) as [_ H']. rewrite H', Hpop, Hfirst. reflexivity.
Qed.

(** A fix outside the boundary that arrives while tracking ends the
    session and re-arms the first-fix flag. *)
Lemma out_of_bounds_rearms (position : GeolocationManager.Position) (w : World) :
  GeolocationManager.isWithinBoundary (gm w) (userPositionOf position) = false ->
  isTracking (gm w) = true ->
  let w' := exec (GeolocationManager.handleUserLocation position) w in
  isTracking (gm w') = false /\ isFirstLocation (gm w') = true.
Proof.
  intros Hout Htrack. cbv zeta. rewrite handleUserLocation_exec.
  destruct (userLocationHandled_flags position w) as [_ [_ [_ H]]].
  destruct (H Hout) as [H1 H2]. rewrite H1, H2, Htrack. split; reflexivity.
Qed.

Lemma north_of_boundary (d : R) :
  0 <= d -> d < 6371 ->
  GeolocationManager.isWithinBoundary GeolocationManager.new
    (north_of CONFIG.MAP.boundary.center d) = (if Rle_dec d 2.2 then true else false).
Proof.
  intros H0 H1.
  pose proof (distance_north CONFIG.MAP.boundary.center d H0 H1) as Hd.
  destruct (Rle_dec d 2.2) as [Hle | Hgt].
  - apply isWithinBoundary_true.
    change (centerPoint GeolocationManager.new) with CONFIG.MAP.boundary.center.
    change (boundaryRadius GeolocationManager.new) with 2.2.
    rewrite Hd. exact Hle.
  - apply isWithinBoundary_false.
    change (centerPoint GeolocationManager.new) with CONFIG.MAP.boundary.center.
    change (boundaryRadius GeolocationManager.new) with 2.2.
    rewrite Hd. lra.
Qed.

(** C2, as stated, fails: while tracking with the first fix consumed, a
    fix 3 km north of the boundary centre (outside) followed by a fix 1 km
    north of it (inside, 1 km from the camera centre) makes the re-entry fix
    issue the first-fix fly-to, and no ease-to. *)
Lemma reentry_fix_flies_to_user :
  let C := CONFIG.MAP.boundary.center in
  let w := trackingWorld (toLngLat C) [] in
  let outside := fixAt (north_of C 3) in
  let inside := fixAt (north_of C 1) in
  let w1 := exec (dispatch (Geolocate outside)) w in
  isTracking (gm w) = true /\
  isFirstLocation (gm w) = false /\
  isPopupOpen (gm w) = false /\
  GeolocationManager.isWithinBoundary (gm w) (userPositionOf outside) = false /\
  GeolocationManager.isWithinBoundary (gm w1) (userPositionOf inside) = true /\
  distanceKm (lng (map_center w1), lat (map_center w1)) (userPositionOf inside) > 0.05 /\
  cameraCommands (emitted (dispatch (Geolocate inside)) w1) =
    [MapFlyTo (mkCamera (Some (north_of C 1)) (Some 17.5) (Some 45) (Some 0)
                        (Some 2000) None None false)] /\
  (forall o : CameraOptions,
      ~ In (MapEaseTo o) (emitted (dispatch (Geolocate inside)) w1)).
Proof.
  intros C w outside inside w1.
  assert (Hout : GeolocationManager.isWithinBoundary (gm w) (userPositionOf outside) = false).
  { rewrite (isWithinBoundary_ext GeolocationManager.new (gm w) _ eq_refl eq_refl).
    change (userPositionOf outside) with (north_of C 3).
    unfold C. rewrite north_of_boundary by lra.
    destruct (Rle_dec 3 2.2); [lra | reflexivity]. }
  assert (Hw1 : w1 = userLocationHandled outside w)
    by (unfold w1; apply handleUserLocation_exec).
  destruct (userLocationHandled_config outside w) as [Hpop [Hcp [Hbr Hmc]]].
  rewrite <- Hw1 in Hpop, Hcp, Hbr, Hmc.
  destruct (out_of_bounds_rearms outside w Hout eq_refl) as [_ Hfirst].
  change (exec (GeolocationManager.handleUserLocation outside) w) with w1 in Hfirst.
  assert (Hin : GeolocationManager.isWithinBoundary (gm w1) (userPositionOf inside) = true).
  { rewrite (isWithinBoundary_ext GeolocationManager.new (gm w1) _ Hcp Hbr).
    change (userPositionOf inside) with (north_of C 1).
    unfold C. rewrite north_of_boundary by lra.
    destruct (Rle_dec 1 2.2); [reflexivity | lra]. }
  assert (Hpop1 : isPopupOpen (gm w1) = false) by (rewrite Hpop; reflexivity).
  assert (Hem : emitted (dispatch (Geolocate inside)) w1 =
                searchRadiusCommands w1 (userPositionOf inside) ++
                [GeolocationManager.flyToUser inside]).
  { change (dispatch (Geolocate inside))
      with (GeolocationManager.handleUserLocation inside).
    rewrite emitted_handleUserLocation, Hin.
    unfold followCommands. rewrite Hpop1, Hfirst. reflexivity. }
  split; [reflexivity |]. split; [reflexivity |]. split; [reflexivity |].
  split; [exact Hout |]. split; [exact Hin |]. split; [| split].
  - rewrite Hmc. change (lng (map_center w), lat (map_center w)) with C.
    change (userPositionOf inside) with (north_of C 1).
    unfold distanceKm. rewrite calculateDistance_sym.
    pose proof (distance_north C 1) as Hd. unfold distanceKm in Hd.
    rewrite Hd by lra. lra.
  - rewrite Hem, cameraCommands_app, cameraCommands_searchRadius. reflexivity.
  - rewrite Hem. intros o Hbad. apply in_app_or in Hbad. destruct Hbad as [Hbad | Hbad].
    + unfold searchRadiusCommands in Hbad.
      destruct (hasSource _ _); simpl in Hbad;
        repeat (destruct Hbad as [Hbad | Hbad]; [discriminate Hbad |]); exact Hbad.
    + simpl in Hbad. destruct Hbad as [Hbad | Hbad]; [discriminate Hbad | exact Hbad].
Qed.

(** C2, amended. A fix outside the boundary that arrives while tracking
    makes [handleUserLocation] trigger the geolocate control, which ends
    the session: the [trackuserlocationend] listener runs inside that call
    and sets [isFirstLocation] back to true.  Whatever follows that is not a
    fix inside the boundary leaves the flag set, so the fix that re-enters
    the boundary with no popup open issues exactly one camera command, the
    first-fix fly-to to the user (zoom 17.5, pitch 45, 2000 ms), not an
    ease-to, and consumes the flag again. *)
Theorem reentry_fix_flies_again :
  forall (w : World) (outside : GeolocationManager.Position) (es : list Event)
         (inside : GeolocationManager.Position),
    isTracking (gm w) = true ->
    GeolocationManager.isWithinBoundary (gm w) (userPositionOf outside) = false ->
    Forall (stays_outside (gm w)) es ->
    let w1 := exec (GeolocationManager.handleUserLocation outside) w in
    let w' := exec (run es) w1 in
    GeolocationManager.isWithinBoundary (gm w) (userPositionOf inside) = true ->
    isPopupOpen (gm w') = false ->
    isTracking (gm w1) = false /\
    isFirstLocation (gm w1) = true /\
    isFirstLocation (gm w') = true /\
    cameraCommands (emitted (GeolocationManager.handleUserLocation inside) w') =
      [MapFlyTo (mkCamera (Some (userPositionOf inside)) (Some 17.5) (Some 45)
                          (Some (match GeolocationManager.heading inside with
                                 | Some h => h
                                 | None => 0
                                 end))
                          (Some 2000) None None false)] /\
    isFirstLocation (gm (exec (GeolocationManager.handleUserLocation inside) w')) = false.
Proof.
  intros w outside es inside Htrack Hout Hes w1 w' Hin Hpop.
  destruct (out_of_bounds_rearms outside w Hout Htrack) as [Hoff Hfirst].
  fold w1 in Hoff, Hfirst.
  destruct (dispatch_boundary (Geolocate outside) w) as [Hc1 Hr1].
  change (exec (dispatch (Geolocate outside)) w) with w1 in Hc1, Hr1.
  destruct (run_boundary es w1) as [Hc2 Hr2]. fold w' in Hc2, Hr2.
  assert (Hfirst' : isFirstLocation (gm w') = true).
  { apply run_rearmed; [| exact Hfirst].
    eapply Forall_impl; [| exact Hes].
    intro e. apply stays_outside_ext; assumption. }
  assert (Hin' : GeolocationManager.isWithinBoundary (gm w') (userPositionOf inside) = true).
  { rewrite (isWithinBoundary_ext (gm w) (gm w')); [exact Hin | congruence | congruence]. }
  destruct (first_fix_commands inside w' Hin' Hpop Hfirst') as [Hfly Hused].
  auto.
Qed.

Lemma reentry_fix_flies_again_witness :
  let C := CONFIG.MAP.boundary.center in
  let w := trackingWorld (toLngLat C) [] in
  let outside := fixAt (north_of C 3) in
  let inside := fixAt (north_of C 1) in
  let w' := exec (run []) (exec (GeolocationManager.handleUserLocation outside) w) in
  isTracking (gm w) = true /\
  GeolocationManager.isWithinBoundary (gm w) (userPositionOf outside) = false /\
  Forall (stays_outside (gm w)) [] /\
  GeolocationManager.isWithinBoundary (gm w) (userPositionOf inside) = true /\
  isPopupOpen (gm w') = false /\
  cameraCommands (emitted (GeolocationManager.handleUserLocation inside) w') =
    [MapFlyTo (mkCamera (Some (north_of C 1)) (Some 17.5) (Some 45) (Some 0)
                        (Some 2000) None None false)].
Proof.
  intros C w outside inside w'.
  assert (Hout : GeolocationManager.isWithinBoundary (gm w) (userPositionOf outside) = false).
  { rewrite (isWithinBoundary_ext GeolocationManager.new (gm w) _ eq_refl eq_refl).
    change (userPositionOf outside) with (north_of C 3).
    unfold C. rewrite north_of_boundary by lra.
    destruct (Rle_dec 3 2.2); [lra | reflexivity]. }
  assert (Hin : GeolocationManager.isWithinBoundary (gm w) (userPositionOf inside) = true).
  { rewrite (isWithinBoundary_ext GeolocationManager.new (gm w) _ eq_refl eq_refl).
    change (userPositionOf inside) with (north_of C 1).
    unfold C. rewrite north_of_boundary by lra.
    destruct (Rle_dec 1 2.2); [reflexivity | lra]. }
  assert (Hes : Forall (stays_outside (gm w)) []) by constructor.
  assert (Hpop : isPopupOpen (gm w') = false).
  { unfold w'. rewrite run_nil, handleUserLocation_exec.
    destruct (userLocationHandled_config outside w) as [H _]. rewrite H. reflexivity. }
  split; [reflexivity |]. split; [exact Hout |]. split; [exact Hes |].
  split; [exact Hin |]. split; [exact Hpop |].
  exact (proj1 (proj2 (proj2 (proj2
           (reentry_fix_flies_again w outside [] inside eq_refl Hout Hes Hin Hpop))))).
Defined.

(** ** Loading the feature collection *)

Lemma getGeoData_from (index : nat) (elements : list Element) (w : World) :
  forEach_from index elements
    (fun element index =>
       let locationID := value element "#locationID" in
       let feature := locationFeature element index in
       fs <- (fun w => (features w, w)) ;;
       if negb (some_has_id fs locationID) then push_feature feature
       else ret tt) w =
  (tt, with_features (geoLoaded index elements (features w)) w).
Proof.
  revert index w. induction elements as [| element rest IH]; intros index w.
  - simpl. destruct w; reflexivity.
  - simpl forEach_from. unfold bind at 1. cbv zeta. unfold bind at 1.
    cbn [geoLoaded].
    destruct (negb (some_has_id (features w) (value element "#locationID"))).
    + unfold push_feature. rewrite IH. destruct w; reflexivity.
    + unfold ret. rewrite IH. reflexivity.
Qed.

Lemma getGeoData_exec (elements : list Element) (w : World) :
  exec (getGeoData elements) w = with_features (geoLoaded 0 elements (features w)) w.
Proof. unfold exec, getGeoData. rewrite getGeoData_from. reflexivity. Qed.

Lemma getARData_from (index : nat) (elements : list Element) (w : World) :
  forEach_from index elements
    (fun element index => push_feature (arFeature element index)) w =
  (tt, with_features (features w ++ arLoaded index elements) w).
Proof.
  revert index w. induction elements as [| element rest IH]; intros index w.
  - simpl. rewrite app_nil_r. destruct w; reflexivity.
  - simpl forEach_from. unfold bind at 1. unfold push_feature at 1.
    rewrite IH. destruct w. unfold with_features. simpl.
    rewrite <- app_assoc. reflexivity.
Qed.

Lemma getARData_exec (elements : list Element) (w : World) :
  exec (getARData elements) w = with_features (features w ++ arLoaded 0 elements) w.
Proof. unfold exec, getARData. rewrite getARData_from. reflexivity. Qed.

Lemma loadData_features (location_list location_ar_list : list Element) (w : World) :
  features (exec (loadData location_list location_ar_list) w) =
  geoLoaded 0 location_list (features w) ++ arLoaded 0 location_ar_list.
Proof.
  unfold loadData, exec, bind.
  pose proof (getGeoData_exec location_list w) as H1. unfold exec in H1.
  destruct (getGeoData location_list w) as [u w1]. simpl in H1. subst w1.
  pose proof (getARData_exec location_ar_list
                (with_features (geoLoaded 0 location_list (features w)) w)) as H2.
  unfold exec in H2. rewrite H2. destruct w; reflexivity.
Qed.

Lemma defined_ids_app (fs gs : list Feature) :
  defined_ids (fs ++ gs) = defined_ids fs ++ defined_ids gs.
Proof.
  induction fs as [| f fs IH]; simpl; [reflexivity |].
  destruct (feature_id f); simpl; rewrite IH; reflexivity.
Qed.

Lemma some_has_id_false (fs : list Feature) (locationID : string) :
  some_has_id fs locationID = false -> ~ In (PStr locationID) (defined_ids fs).
Proof.
  unfold some_has_id. induction fs as [| f fs IH]; simpl; intros H Hin; [exact Hin |].
  apply orb_false_iff in H. destruct H as [Hf Hrest].
  unfold feature_id in Hin.
  destruct (lookup "id" (properties f)) as [v |] eqn:Hid.
  - destruct Hin as [Heq | Hin]; [| exact (IH Hrest Hin)].
    subst v. simpl in Hf. rewrite String.eqb_refl in Hf. discriminate.
  - exact (IH Hrest Hin).
Qed.

Lemma locationFeature_id (element : Element) (index : nat) :
  feature_id (locationFeature element index) = Some (PStr (value element "#locationID")).
Proof. reflexivity. Qed.

Lemma arFeature_id (element : Element) (index : nat) :
  feature_id (arFeature element index) = None.
Proof. reflexivity. Qed.

Lemma arLoaded_ids (index : nat) (elements : list Element) :
  defined_ids (arLoaded index elements) = [] /\
  List.length (arLoaded index elements) = List.length elements.
Proof.
  revert index. induction elements as [| element rest IH]; intro index; simpl; [auto |].
  destruct (IH (S index)) as [H1 H2]. rewrite ?arFeature_id, ?H1, ?H2. auto.
Qed.

Lemma geoLoaded_extends (index : nat) (elements : list Element) (fs : list Feature) :
  (exists added, geoLoaded index elements fs = fs ++ added) /\
  (NoDup (defined_ids fs) -> NoDup (defined_ids (geoLoaded index elements fs))).
Proof.
  revert index fs. induction elements as [| element rest IH]; intros index fs; simpl.
  - split; [exists []; rewrite app_nil_r; reflexivity | auto].
  - destruct (some_has_id fs (value element "#locationID")) eqn:Hhas; simpl.
    + apply IH.
    + destruct (IH (S index) (fs ++ [locationFeature element index])) as [[added Ha] Hnd].
      split.
      * exists (locationFeature element index :: added).
        rewrite Ha, <- app_assoc. reflexivity.
      * intro Hfs. apply Hnd. rewrite defined_ids_app.
        cbn [defined_ids]. rewrite locationFeature_id.
        apply NoDup_app; [exact Hfs | repeat constructor; simpl; tauto |].
        intros a Ha1 [Ha2 | []]. subst a.
        exact (some_has_id_false fs _ Hhas Ha1).
Qed.

Example getGeoData_skips_known_id :
  features (exec (getGeoData [sampleElement; sampleElement])
              (initialWorld (toLngLat CONFIG.MAP.center))) =
  [locationFeature sampleElement 0].
Proof. rewrite getGeoData_exec. reflexivity. Qed.

(** C8, as stated, fails: two AR records give two features whose [id] is
    the same ([undefined]); they are appended with no duplicate check. *)
Lemma ar_features_share_id :
  let fs := features (exec (loadData [] [sampleElement; sampleElement])
                        (initialWorld (toLngLat CONFIG.MAP.center))) in
  fs = [arFeature sampleElement 0; arFeature sampleElement 1] /\
  map feature_id fs = [None; None] /\
  ~ NoDup (map feature_id fs).
Proof.
  cbv zeta. rewrite loadData_features.
  change (geoLoaded 0 [] (features (initialWorld (toLngLat CONFIG.MAP.center)))
          ++ arLoaded 0 [sampleElement; sampleElement])
    with [arFeature sampleElement 0; arFeature sampleElement 1].
  split; [reflexivity |]. split; [reflexivity |].
  change (map feature_id [arFeature sampleElement 0; arFeature sampleElement 1])
    with [@None PropValue; None].
  intro H. inversion H as [| x l Hnotin _]. apply Hnotin. left. reflexivity.
Qed.

(** C8, amended. Loading is append-only: the collection after loading is
    the collection before it followed by the added features.  Records of
    the regular list are added only when no feature already has their id,
    so the ids that are defined stay pairwise distinct; every record of the
    AR list is appended, without an id and without a duplicate check.  No
    listener changes the collection afterwards. *)
Theorem features_append_only_ids_distinct :
  forall (w : World) (location_list location_ar_list : list Element),
    NoDup (defined_ids (features w)) ->
    let w' := exec (loadData location_list location_ar_list) w in
    (exists added, features w' = features w ++ added) /\
    NoDup (defined_ids (features w')) /\
    (exists regular,
        features w' = regular ++ arLoaded 0 location_ar_list /\
        defined_ids regular = defined_ids (features w') /\
        List.length (arLoaded 0 location_ar_list) = List.length location_ar_list) /\
    (forall es : list Event, features (exec (run es) w') = features w').
Proof.
  intros w location_list location_ar_list Hnd w'.
  assert (Hfs : features w' =
                geoLoaded 0 location_list (features w) ++ arLoaded 0 location_ar_list)
    by apply loadData_features.
  destruct (geoLoaded_extends 0 location_list (features w)) as [[added Hadd] Hgeo].
  destruct (arLoaded_ids 0 location_ar_list) as [Hnone Hlen].
  assert (Hids : defined_ids (features w') =
                 defined_ids (geoLoaded 0 location_list (features w)))
    by (rewrite Hfs, defined_ids_app, Hnone, app_nil_r; reflexivity).
  split; [| split; [| split]].
  - exists (added ++ arLoaded 0 location_ar_list).
    rewrite Hfs, Hadd, app_assoc. reflexivity.
  - rewrite Hids. apply Hgeo. exact Hnd.
  - exists (geoLoaded 0 location_list (features w)). auto.
  - intro es. destruct (run_frame es w') as [H _]. exact H.
Qed.

Lemma features_append_only_ids_distinct_witness :
  let w := initialWorld (toLngLat CONFIG.MAP.center) in
  NoDup (defined_ids (features w)) /\
  NoDup (defined_ids (features (exec (loadData [sampleElement; sampleElement]
                                        [sampleElement; sampleElement]) w))).
Proof.
  intro w.
  assert (Hnd : NoDup (defined_ids (features w))) by constructor.
  split; [exact Hnd |].
  exact (proj1 (proj2 (features_append_only_ids_distinct w
                         [sampleElement; sampleElement] [sampleElement; sampleElement] Hnd))).
Defined.

(** ** Geolocation errors *)

Example key_of_code_3 : GeolocationManager.key_of_code 3 = "3"%string.
Proof. reflexivity. Qed.

Example key_of_code_minus_1 : GeolocationManager.key_of_code (-1) = "-1"%string.
Proof. reflexivity. Qed.

Example errorMessage_timeout :
  GeolocationManager.errorMessage 3 = Some "Verzoek verlopen. Probeer opnieuw."%string.
Proof. reflexivity. Qed.

Example errorMessage_other :
  GeolocationManager.errorMessage 0 =
  Some "Er is een fout opgetreden bij het ophalen van je locatie."%string.
Proof. reflexivity. Qed.

Lemma to_int_not_nil (code : Z) :
  Z.to_int code <> Decimal.Pos Decimal.Nil /\ Z.to_int code <> Decimal.Neg Decimal.Nil.
Proof.
  split; intro H; pose proof (DecimalZ.of_to code) as Hc; rewrite H in Hc;
    simpl in Hc; subst code; discriminate H.
Qed.

Lemma key_of_code_inj (code code' : Z) :
  GeolocationManager.key_of_code code = GeolocationManager.key_of_code code' -> code = code'.
Proof.
  unfold GeolocationManager.key_of_code. intro H.
  destruct (to_int_not_nil code) as [H1 H2].
  destruct (to_int_not_nil code') as [H1' H2'].
  pose proof (NilZero.isi (Z.to_int code) H1 H2) as Hi.
  pose proof (NilZero.isi (Z.to_int code') H1' H2') as Hi'.
  rewrite H in Hi. rewrite Hi in Hi'. injection Hi' as Heq.
  apply DecimalZ.to_int_inj. exact Heq.
Qed.

Lemma errorMessage_by_kind (code : Z) :
  GeolocationManager.errorMessage code = Some (spec_message (kind_of_code code)).
Proof.
  unfold GeolocationManager.errorMessage, GeolocationManager.errorMessages.
  cbn [lookup].
  destruct (String.eqb_spec "1" (GeolocationManager.key_of_code code)) as [H1 | H1].
  { change "1"%string with (GeolocationManager.key_of_code 1) in H1.
    apply key_of_code_inj in H1. subst code. reflexivity. }
  destruct (String.eqb_spec "2" (GeolocationManager.key_of_code code)) as [H2 | H2].
  { change "2"%string with (GeolocationManager.key_of_code 2) in H2.
    apply key_of_code_inj in H2. subst code. reflexivity. }
  destruct (String.eqb_spec "3" (GeolocationManager.key_of_code code)) as [H3 | H3].
  { change "3"%string with (GeolocationManager.key_of_code 3) in H3.
    apply key_of_code_inj in H3. subst code. reflexivity. }
  assert (Hk : kind_of_code code = Unknown).
  { destruct code as [| p | p]; try reflexivity.
    destruct p as [[p | p |] | [p | p |] |]; try reflexivity.
    - exfalso. apply H3. reflexivity.
    - exfalso. apply H2. reflexivity.
    - exfalso. apply H1. reflexivity. }
  rewrite Hk.
  destruct (String.eqb "default" (GeolocationManager.key_of_code code)); reflexivity.
Qed.

Lemma spec_message_inj (k1 k2 : ErrorKind) : spec_message k1 = spec_message k2 -> k1 = k2.
Proof. destruct k1, k2; simpl; intro H; try reflexivity; discriminate H. Qed.

(** C9. Handling a geolocation error only logs it and shows a notification:
    the message is the one of the error kind (codes 1, 2 and 3 have three
    distinct messages, every other code the default one, and different
    kinds have different messages), and the manager, the feature collection
    and the map state are left as they were. *)
Theorem geolocation_error_notifies :
  forall (w : World) (code : Z),
    let w' := exec (GeolocationManager.handleGeolocationError code) w in
    emitted (GeolocationManager.handleGeolocationError code) w =
      [ConsoleError; Notification (spec_message (kind_of_code code))] /\
    (code <> 1%Z -> code <> 2%Z -> code <> 3%Z -> kind_of_code code = Unknown) /\
    (forall k1 k2 : ErrorKind, spec_message k1 = spec_message k2 -> k1 = k2) /\
    gm w' = gm w /\
    features w' = features w /\
    map_markers w' = map_markers w /\
    w' = with_trace (trace w ++ emitted (GeolocationManager.handleGeolocationError code) w) w.
Proof.
  intros w code w'.
  assert (Hexec : w' = with_trace (trace w ++
                    [ConsoleError; Notification (spec_message (kind_of_code code))]) w).
  { unfold w'. rewrite handleGeolocationError_exec, errorMessage_by_kind. reflexivity. }
  assert (Hem : emitted (GeolocationManager.handleGeolocationError code) w =
                [ConsoleError; Notification (spec_message (kind_of_code code))]).
  { apply emitted_of_trace. fold w'. rewrite Hexec. destruct w; reflexivity. }
  split; [exact Hem |]. split; [| split; [exact spec_message_inj |]].
  - intros H1 H2 H3. destruct code as [| p | p]; try reflexivity.
    destruct p as [[p | p |] | [p | p |] |]; try reflexivity; contradiction.
  - rewrite Hem, Hexec. destruct w; auto.
Qed.

Lemma geolocation_error_notifies_witness :
  (4 <> 1)%Z /\ (4 <> 2)%Z /\ (4 <> 3)%Z /\ kind_of_code 4 = Unknown.
Proof.
  assert (H1 : (4 <> 1)%Z) by discriminate.
  assert (H2 : (4 <> 2)%Z) by discriminate.
  assert (H3 : (4 <> 3)%Z) by discriminate.
  split; [exact H1 | split; [exact H2 | split; [exact H3 |]]].
  exact (proj1 (proj2 (geolocation_error_notifies
                         (initialWorld (toLngLat CONFIG.MAP.center)) 4%Z)) H1 H2 H3).
Defined.

(** The hypotheses of the idempotence theorem hold in every world reached
    from the initial page by events. *)
Lemma reachable_markers_tracked (es : list Event) (c : LngLat) (fs : list Feature) :
  markers_tracked (exec (run es) (with_features fs (initialWorld c))).
Proof.
  destruct (run_frame es (with_features fs (initialWorld c))) as [_ [_ [_ H]]].
  apply H. split; [reflexivity | split; constructor].
Qed.

Lemma updateDistanceMarkers_idempotent_witness :
  let C := CONFIG.MAP.boundary.center in
  let w := trackingWorld (toLngLat C) [mkFeature C []] in
  let w1 := exec (GeolocationManager.updateDistanceMarkers C) w in
  let w2 := exec (GeolocationManager.updateDistanceMarkers C) w1 in
  markers_fresh w /\
  map_markers w = distanceMarkers (gm w) /\
  map rendered (map_markers w2) = map rendered (map_markers w1) /\
  map_markers w2 = distanceMarkers (gm w2).
Proof.
  intros C w w1 w2.
  assert (Hfresh : markers_fresh w) by (split; constructor).
  assert (Htracked : map_markers w = distanceMarkers (gm w)) by reflexivity.
  destruct (updateDistanceMarkers_idempotent w C Hfresh) as [H1 [_ [_ [H4 _]]]].
  split; [exact Hfresh | split; [exact Htracked | split; [exact H1 |]]].
  exact (proj1 (proj2 (H4 Htracked))).
Defined.

(** * Further properties of the code *)

(** ** The haversine distance *)

(** X1. The distance does not depend on the order of the two points, for
    the method of [GeolocationManager] and for the global function. *)
Theorem distance_symmetric :
  forall lat1 lon1 lat2 lon2 : R,
    calculateDistance lat1 lon1 lat2 lon2 = calculateDistance lat2 lon2 lat1 lon1 /\
    GeolocationManager.calculateDistance lat1 lon1 lat2 lon2 =
    GeolocationManager.calculateDistance lat2 lon2 lat1 lon1.
Proof.
  intros. split; [| rewrite !method_is_global]; apply calculateDistance_sym.
Qed.

Lemma atan2_first_quadrant_range (y x : R) :
  0 <= y -> 0 <= x -> 0 <= Math.atan2 y x <= PI / 2.
Proof.
  intros Hy Hx. pose proof PI_RGT_0 as Hpi. unfold Math.atan2.
  destruct (Rlt_dec 0 x) as [Hpos | Hnpos].
  - assert (Hq : 0 <= y / x).
    { unfold Rdiv. apply Rmult_le_pos; [exact Hy |].
      left. apply Rinv_0_lt_compat. exact Hpos. }
    pose proof (atan_bound (y / x)) as [_ Hup].
    split; [| lra].
    destruct Hq as [Hq | Hq].
    + pose proof (atan_increasing 0 (y / x) Hq) as Hinc. rewrite atan_0 in Hinc. lra.
    + rewrite <- Hq, atan_0. lra.
  - destruct (Rlt_dec x 0); [lra |].
    destruct (Rlt_dec 0 y); [lra |].
    destruct (Rlt_dec y 0); lra.
Qed.

Lemma calculateDistance_range (lat1 lon1 lat2 lon2 : R) :
  0 <= calculateDistance lat1 lon1 lat2 lon2 <= 6371 * PI.
Proof.
  unfold calculateDistance. cbv zeta.
  pose proof (atan2_first_quadrant_range
                (Math.sqrt (haversine_a lat1 lon1 lat2 lon2))
                (Math.sqrt (1 - haversine_a lat1 lon1 lat2 lon2))
                (sqrt_pos _) (sqrt_pos _)) as [H0 H1].
  split; lra.
Qed.

(** X3. Between two points of one meridian whose latitudes are less than
    180 degrees apart, the distance is the arc length of the latitude
    difference: 6371 * |lat2 - lat1| * PI / 180. *)
Theorem distance_along_meridian :
  forall lat1 lat2 lon0 : R,
    Rabs (lat2 - lat1) < 180 ->
    calculateDistance lat1 lon0 lat2 lon0 = 6371 * (Rabs (lat2 - lat1) * (PI / 180)).
Proof.
  intros lat1 lat2 lon0 H.
  destruct (Rle_lt_dec lat1 lat2) as [Hle | Hgt].
  - rewrite Rabs_right in * by lra.
    rewrite calculateDistance_meridian by lra. reflexivity.
  - rewrite Rabs_left in * by lra.
    rewrite calculateDistance_sym, calculateDistance_meridian by lra.
    unfold toRad, Math.PI. ring.
Qed.

Lemma distance_along_meridian_witness :
  Rabs (50.9 - 50.8) < 180 /\
  calculateDistance 50.8 5.97 50.9 5.97 = 6371 * (Rabs (50.9 - 50.8) * (PI / 180)).
Proof.
  assert (H : Rabs (50.9 - 50.8) < 180) by (rewrite Rabs_right; lra).
  split; [exact H |].
  exact (distance_along_meridian 50.8 50.9 5.97 H).
Defined.

Lemma atan_le (x y : R) : x <= y -> atan x <= atan y.
Proof.
  intros [H | H]; [left; apply atan_increasing; exact H | subst; apply Rle_refl].
Qed.

Lemma sin_sqr_abs (x : R) : sin x * sin x = sin (Rabs x) * sin (Rabs x).
Proof.
  unfold Rabs. destruct (Rcase_abs x); [rewrite sin_neg; ring | reflexivity].
Qed.

Lemma sin_sqr_superadditive (U V : R) :
  0 <= U -> 0 <= V -> U + V < PI / 2 ->
  sin U * sin U + sin V * sin V <= sin (U + V) * sin (U + V).
Proof.
  intros HU HV Hsum.
  pose proof PI_RGT_0 as Hpi.
  assert (HsU : 0 <= sin U) by (apply sin_ge_0; lra).
  assert (HsV : 0 <= sin V) by (apply sin_ge_0; lra).
  assert (HC : 0 < cos (U + V)) by (apply cos_gt_0; lra).
  pose proof (sin2_cos2 U) as HU2. pose proof (sin2_cos2 V) as HV2.
  unfold Rsqr in HU2, HV2.
  pose proof (sin_plus U V) as Hsp. pose proof (cos_plus U V) as Hcp.
  assert (Hid : sin (U + V) * sin (U + V) - sin U * sin U - sin V * sin V =
                2 * (sin U * sin V) * cos (U + V)).
  { assert (Hring : forall su cu sv cv : R,
               (su * cv + cu * sv) * (su * cv + cu * sv) - su * su - sv * sv -
               2 * (su * sv) * (cu * cv - su * sv) =
               su * su * (sv * sv + cv * cv - 1) + sv * sv * (su * su + cu * cu - 1))
      by (intros; ring).
    specialize (Hring (sin U) (cos U) (sin V) (cos V)).
    replace (sin V * sin V + cos V * cos V - 1) with 0 in Hring by lra.
    replace (sin U * sin U + cos U * cos U - 1) with 0 in Hring by lra.
    rewrite Hsp, Hcp. lra. }
  assert (Hprod : 0 <= 2 * (sin U * sin V) * cos (U + V)).
  { apply Rmult_le_pos; [| lra]. apply Rmult_le_pos; [lra |].
    apply Rmult_le_pos; assumption. }
  lra.
Qed.

(** For angles [U], [V] >= 0 with [U + V] below a right angle, a haversine
    term of at most [sin^2 U + sin^2 V] gives a central angle of at most
    [2 (U + V)]. *)
Lemma central_angle_at_most (a U V : R) :
  0 <= U -> 0 <= V -> U + V < PI / 2 ->
  0 <= a <= sin U * sin U + sin V * sin V ->
  Math.atan2 (Math.sqrt a) (Math.sqrt (1 - a)) <= U + V.
Proof.
  intros HU HV Hsum [Ha0 Ha1].
  pose proof PI_RGT_0 as Hpi.
  assert (HC : 0 < cos (U + V)) by (apply cos_gt_0; lra).
  assert (HS : 0 <= sin (U + V)) by (apply sin_ge_0; lra).
  pose proof (sin2_cos2 (U + V)) as HUV2. unfold Rsqr in HUV2.
  pose proof (sin_sqr_superadditive U V HU HV Hsum) as Hsup.
  assert (HaS : a <= sin (U + V) * sin (U + V)) by lra.
  assert (Hy : Math.sqrt a <= sin (U + V)).
  { unfold Math.sqrt. rewrite <- (sqrt_square (sin (U + V))) by exact HS.
    apply sqrt_le_1_alt. exact HaS. }
  assert (Hx : cos (U + V) <= Math.sqrt (1 - a)).
  { unfold Math.sqrt. rewrite <- (sqrt_square (cos (U + V))) at 1 by lra.
    apply sqrt_le_1_alt. lra. }
  assert (Hy0 : 0 <= Math.sqrt a) by apply sqrt_pos.
  unfold Math.atan2.
  destruct (Rlt_dec 0 (Math.sqrt (1 - a))) as [Hpos | Hn]; [| lra].
  rewrite <- (atan_tan (U + V)) by lra.
  apply atan_le. unfold tan, Rdiv.
  assert (Hinv : / Math.sqrt (1 - a) <= / cos (U + V))
    by (apply Rinv_le_contravar; assumption).
  assert (Hinv0 : 0 < / Math.sqrt (1 - a)) by (apply Rinv_0_lt_compat; exact Hpos).
  apply Rle_trans with (sin (U + V) * / Math.sqrt (1 - a)).
  - apply Rmult_le_compat_r; lra.
  - apply Rmult_le_compat_l; assumption.
Qed.

(** With [U], [V] half the latitude and longitude differences in radians,
    the haversine term is at most [sin^2 U + sin^2 V]. *)
Lemma haversine_a_le_sum (lat1 lon1 lat2 lon2 : R) :
  let U := Rabs (lat2 - lat1) * (PI / 180) / 2 in
  let V := Rabs (lon2 - lon1) * (PI / 180) / 2 in
  0 <= U /\ 0 <= V /\
  haversine_a lat1 lon1 lat2 lon2 <= sin U * sin U + sin V * sin V.
Proof.
  intros U V. pose proof PI_RGT_0 as Hpi.
  assert (HU : 0 <= U) by (unfold U; pose proof (Rabs_pos (lat2 - lat1)); nra).
  assert (HV : 0 <= V) by (unfold V; pose proof (Rabs_pos (lon2 - lon1)); nra).
  split; [exact HU | split; [exact HV |]].
  assert (HabsU : Rabs (toRad (lat2 - lat1) / 2) = U).
  { unfold toRad, Math.PI, U.
    replace ((lat2 - lat1) * (PI / 180) / 2) with ((lat2 - lat1) * (PI / 360)) by field.
    rewrite Rabs_mult, (Rabs_right (PI / 360)) by lra. field. }
  assert (HabsV : Rabs (toRad (lon2 - lon1) / 2) = V).
  { unfold toRad, Math.PI, V.
    replace ((lon2 - lon1) * (PI / 180) / 2) with ((lon2 - lon1) * (PI / 360)) by field.
    rewrite Rabs_mult, (Rabs_right (PI / 360)) by lra. field. }
  unfold haversine_a. cbv zeta. unfold Math.sin, Math.cos.
  rewrite (sin_sqr_abs (toRad (lat2 - lat1) / 2)), HabsU.
  pose proof (sin_sqr_abs (toRad (lon2 - lon1) / 2)) as HsV. rewrite HabsV in HsV.
  pose proof (COS_bound (toRad lat1)) as [Hc1 Hc1'].
  pose proof (COS_bound (toRad lat2)) as [Hc2 Hc2'].
  assert (Hcc : cos (toRad lat1) * cos (toRad lat2) <= 1) by nra.
  assert (Hsq : 0 <= sin V * sin V) by nra.
  rewrite <- HsV in *.
  set (s2 := sin (toRad (lon2 - lon1) / 2)) in *.
  assert (cos (toRad lat1) * cos (toRad lat2) * (s2 * s2) <= s2 * s2) by nra.
  nra.
Qed.

(** The Manhattan bound for two positions whose coordinate differences add
    up to less than half a turn. *)
Lemma calculateDistance_manhattan_near (lat1 lon1 lat2 lon2 : R) :
  Rabs (lat2 - lat1) + Rabs (lon2 - lon1) < 180 ->
  calculateDistance lat1 lon1 lat2 lon2 <=
  6371 * ((Rabs (lat2 - lat1) + Rabs (lon2 - lon1)) * (PI / 180)).
Proof.
  intro Hnear. pose proof PI_RGT_0 as Hpi.
  destruct (haversine_a_le_sum lat1 lon1 lat2 lon2) as [HU [HV Ha1]].
  set (U := Rabs (lat2 - lat1) * (PI / 180) / 2) in *.
  set (V := Rabs (lon2 - lon1) * (PI / 180) / 2) in *.
  replace ((Rabs (lat2 - lat1) + Rabs (lon2 - lon1)) * (PI / 180))
    with (2 * (U + V)) by (unfold U, V; field).
  assert (Hsmall : U + V < PI / 2) by (unfold U, V; nra).
  pose proof (haversine_a_bounds lat1 lon1 lat2 lon2) as [Ha0 _].
  pose proof (central_angle_at_most _ U V HU HV Hsmall (conj Ha0 Ha1)) as Hc.
  unfold calculateDistance. cbv zeta. lra.
Qed.

Lemma calculateDistance_manhattan (lat1 lon1 lat2 lon2 : R) :
  calculateDistance lat1 lon1 lat2 lon2 <=
  6371 * ((Rabs (lat2 - lat1) + Rabs (lon2 - lon1)) * (PI / 180)).
Proof.
  pose proof PI_RGT_0 as Hpi.
  destruct (Rlt_le_dec (Rabs (lat2 - lat1) + Rabs (lon2 - lon1)) 180) as [Hnear | Hfar].
  - apply calculateDistance_manhattan_near. exact Hnear.
  - pose proof (calculateDistance_range lat1 lon1 lat2 lon2) as [_ Hmax].
    apply Rle_trans with (6371 * PI); [exact Hmax |]. nra.
Qed.

(** Within a quarter turn the haversine term is at most 1/2. *)
Lemma haversine_a_at_most_half (lat1 lon1 lat2 lon2 : R) :
  Rabs (lat2 - lat1) + Rabs (lon2 - lon1) <= 90 ->
  haversine_a lat1 lon1 lat2 lon2 <= 1 / 2.
Proof.
  intro Hnear. pose proof PI_RGT_0 as Hpi.
  destruct (haversine_a_le_sum lat1 lon1 lat2 lon2) as [HU [HV Ha1]].
  set (U := Rabs (lat2 - lat1) * (PI / 180) / 2) in *.
  set (V := Rabs (lon2 - lon1) * (PI / 180) / 2) in *.
  assert (Hq : U + V <= PI / 4) by (unfold U, V; nra).
  pose proof (sin_sqr_superadditive U V HU HV ltac:(lra)) as Hsup.
  assert (Hs : sin (U + V) <= sin (PI / 4)) by (apply sin_incr_1; lra).
  assert (Hs0 : 0 <= sin (U + V)) by (apply sin_ge_0; lra).
  assert (H4 : sin (PI / 4) * sin (PI / 4) = 1 / 2).
  { pose proof (sin2_cos2 (PI / 4)) as H. unfold Rsqr in H.
    rewrite cos_PI4, sin_PI4 in *. lra. }
  assert (Hsq : sin (U + V) * sin (U + V) <= sin (PI / 4) * sin (PI / 4)).
  { apply Rmult_le_compat; assumption. }
  lra.
Qed.

(** X2. For two positions whose latitude and longitude differences add up
    to at most 90 degrees, the haversine term lies between 0 and 1/2: the
    second square root is taken of a number that is at least 1/2, far from
    the negative numbers for which [Math.sqrt] returns NaN; and the
    distance lies between 0 and a quarter of the circumference,
    6371 * PI / 2 km. *)
Theorem distance_bounds :
  forall lat1 lon1 lat2 lon2 : R,
    Rabs (lat2 - lat1) + Rabs (lon2 - lon1) <= 90 ->
    0 <= haversine_a lat1 lon1 lat2 lon2 <= 1 / 2 /\
    1 / 2 <= 1 - haversine_a lat1 lon1 lat2 lon2 /\
    0 <= calculateDistance lat1 lon1 lat2 lon2 <= 6371 * (PI / 2).
Proof.
  intros lat1 lon1 lat2 lon2 Hnear.
  pose proof PI_RGT_0 as Hpi.
  pose proof (haversine_a_bounds lat1 lon1 lat2 lon2) as [Ha0 _].
  pose proof (haversine_a_at_most_half lat1 lon1 lat2 lon2 Hnear) as Ha1.
  pose proof (calculateDistance_range lat1 lon1 lat2 lon2) as [Hd0 _].
  pose proof (calculateDistance_manhattan_near lat1 lon1 lat2 lon2 ltac:(lra)) as Hd1.
  split; [split; assumption |]. split; [lra |]. split; [exact Hd0 |].
  eapply Rle_trans; [exact Hd1 |]. nra.
Qed.

Lemma distance_bounds_witness :
  Rabs (50.887634 - 50.88774161029858) + Rabs (5.979642 - 5.977105864037915) <= 90 /\
  haversine_a 50.88774161029858 5.977105864037915 50.887634 5.979642 <= 1 / 2.
Proof.
  assert (H : Rabs (50.887634 - 50.88774161029858) +
              Rabs (5.979642 - 5.977105864037915) <= 90).
  { rewrite (Rabs_left (50.887634 - 50.88774161029858)) by lra.
    rewrite (Rabs_right (5.979642 - 5.977105864037915)) by lra. lra. }
  split; [exact H |].
  exact (proj2 (proj1 (distance_bounds 50.88774161029858 5.977105864037915
                         50.887634 5.979642 H))).
Defined.

(** X4. For two positions whose latitude and longitude differences add up
    to at most 90 degrees, the distance is never more than the arc length of
    the latitude difference plus that of the longitude difference:
    6371 * (|lat2 - lat1| + |lon2 - lon1|) * PI / 180. *)
Theorem distance_at_most_manhattan :
  forall lat1 lon1 lat2 lon2 : R,
    Rabs (lat2 - lat1) + Rabs (lon2 - lon1) <= 90 ->
    calculateDistance lat1 lon1 lat2 lon2 <=
    6371 * ((Rabs (lat2 - lat1) + Rabs (lon2 - lon1)) * (PI / 180)).
Proof.
  intros lat1 lon1 lat2 lon2 Hnear.
  apply calculateDistance_manhattan_near. lra.
Qed.

Lemma distance_at_most_manhattan_witness :
  Rabs (50.887634 - 50.88774161029858) + Rabs (5.979642 - 5.977105864037915) <= 90 /\
  calculateDistance 50.88774161029858 5.977105864037915 50.887634 5.979642 <=
  6371 * ((Rabs (50.887634 - 50.88774161029858) +
           Rabs (5.979642 - 5.977105864037915)) * (PI / 180)).
Proof.
  assert (H : Rabs (50.887634 - 50.88774161029858) +
              Rabs (5.979642 - 5.977105864037915) <= 90).
  { rewrite (Rabs_left (50.887634 - 50.88774161029858)) by lra.
    rewrite (Rabs_right (5.979642 - 5.977105864037915)) by lra. lra. }
  split; [exact H |].
  exact (distance_at_most_manhattan 50.88774161029858 5.977105864037915
           50.887634 5.979642 H).
Defined.

(** ** Circle polygons and the boundary *)

Lemma PI_gt_314 : 3.14 < PI.
Proof.
  pose proof (PI_2_3_7_ineq 1) as [H _].
  unfold sum_f_R0, tg_alt, PI_2_3_7_tg, Ratan_seq in H.
  simpl in H. lra.
Qed.

Lemma PI_lt_315 : PI < 3.15.
Proof.
  pose proof (PI_2_3_7_ineq 1) as [_ H].
  unfold sum_f_R0, tg_alt, PI_2_3_7_tg, Ratan_seq in H.
  simpl in H. lra.
Qed.

(** X5. With a point count of 0 [generateCircle] returns the one-element
    array [[undefined]].  Otherwise each of the first N entries is a point
    at most |b| = |radiusKm / 110.574| degrees of latitude away from the
    centre; and where the divisor [111.32 * cos(lat)] of the longitude
    scale is not zero (any centre that is not a pole), the point lies on the
    ellipse around the centre with semi-axes [a] (longitude) and [b]
    (latitude) degrees. *)
Theorem generateCircle_points_on_ellipse :
  (forall (C : Coord) (radiusInM : R),
      GeolocationManager.generateCircle C radiusInM 0 = [None]) /\
  (forall (C : Coord) (radiusInM : R) (N i : nat),
      (i < N)%nat ->
      let b := radiusInM / 1000 / 110.574 in
      exists x y : R,
        nth_error (GeolocationManager.generateCircle C radiusInM N) i = Some (Some (x, y)) /\
        Rabs (y - snd C) <= Rabs b /\
        (cos (snd C * PI / 180) <> 0 ->
         let a := radiusInM / 1000 / (111.32 * cos (snd C * PI / 180)) in
         (x - fst C) * (x - fst C) * (b * b) + (y - snd C) * (y - snd C) * (a * a) =
         a * a * (b * b))).
Proof.
  split; [reflexivity |].
  intros C radiusInM N i Hi b.
  unfold GeolocationManager.generateCircle. cbv zeta.
  match goal with
  | |- context [map Some (map ?f (seq 0 N))] => set (mk := f)
  end.
  exists (fst (mk i)), (snd (mk i)).
  split.
  - rewrite nth_error_app1 by (rewrite !length_map, length_seq; exact Hi).
    rewrite nth_error_map, (nth_error_map_seq mk N i Hi). cbn [option_map].
    rewrite <- surjective_pairing. reflexivity.
  - unfold mk, Math.cos, Math.sin, Math.PI. cbn [fst snd lng lat].
    set (t := INR i / INR N * (2 * PI)).
    fold b.
    replace (snd C + b * sin t - snd C) with (b * sin t) by ring.
    pose proof (sin2_cos2 t) as H2. unfold Rsqr in H2.
    split.
    + rewrite Rabs_mult. pose proof (SIN_bound t) as [Hs1 Hs2].
      assert (Hs : Rabs (sin t) <= 1) by (apply Rabs_le; lra).
      pose proof (Rabs_pos b). nra.
    + intros _. set (a := radiusInM / 1000 / (111.32 * cos (snd C * PI / 180))).
      replace (fst C + a * cos t - fst C) with (a * cos t) by ring.
      replace (a * cos t * (a * cos t) * (b * b) + b * sin t * (b * sin t) * (a * a))
        with (a * a * (b * b) * (sin t * sin t + cos t * cos t)) by ring.
      rewrite H2. ring.
Qed.

Lemma generateCircle_points_on_ellipse_witness :
  (3 < 64)%nat /\
  cos (snd CONFIG.MAP.center * PI / 180) <> 0 /\
  exists x y : R,
    nth_error (GeolocationManager.generateCircle CONFIG.MAP.center 25 64) 3 =
    Some (Some (x, y)) /\
    (x - fst CONFIG.MAP.center) * (x - fst CONFIG.MAP.center) *
      (25 / 1000 / 110.574 * (25 / 1000 / 110.574)) +
    (y - snd CONFIG.MAP.center) * (y - snd CONFIG.MAP.center) *
      (25 / 1000 / (111.32 * cos (snd CONFIG.MAP.center * PI / 180)) *
       (25 / 1000 / (111.32 * cos (snd CONFIG.MAP.center * PI / 180)))) =
    25 / 1000 / (111.32 * cos (snd CONFIG.MAP.center * PI / 180)) *
    (25 / 1000 / (111.32 * cos (snd CONFIG.MAP.center * PI / 180))) *
    (25 / 1000 / 110.574 * (25 / 1000 / 110.574)).
Proof.
  assert (H : (3 < 64)%nat) by lia.
  assert (Hcos : cos (snd CONFIG.MAP.center * PI / 180) <> 0).
  { pose proof PI_RGT_0 as Hpi.
    assert (0 < cos (snd CONFIG.MAP.center * PI / 180)); [| lra].
    apply cos_gt_0; simpl; lra. }
  split; [exact H |]. split; [exact Hcos |].
  destruct (proj2 generateCircle_points_on_ellipse CONFIG.MAP.center 25 64%nat 3%nat H)
    as [x [y [Hn [_ He]]]].
  exists x, y. split; [exact Hn | exact (He Hcos)].
Defined.

(** X6. The drawn boundary is wider than the tested one: the northernmost
    vertex of [createBoundaryCircle] (index 16, [radius / 110.574] degrees
    north of the centre) is at haversine distance
    [radius * 6371 * PI / (180 * 110.574)] from the centre, more than the
    radius, so [isWithinBoundary] rejects it. *)
Theorem boundary_north_vertex_outside :
  forall this : GeolocationManagerFields,
    0 < boundaryRadius this < 19000 ->
    exists v : Coord,
      nth_error (GeolocationManager.createBoundaryCircle this) 16 = Some v /\
      v = (fst (centerPoint this), snd (centerPoint this) + boundaryRadius this / 110.574) /\
      distanceKm v (centerPoint this) =
        boundaryRadius this * (6371 * PI / (180 * 110.574)) /\
      GeolocationManager.isWithinBoundary this v = false.
Proof.
  intros this [Hr0 Hr1].
  pose proof PI_gt_314 as Hpi. pose proof PI_lt_315 as Hpi'.
  set (Rk := boundaryRadius this) in *.
  set (v := (fst (centerPoint this), snd (centerPoint this) + Rk / 110.574)).
  assert (Hv : nth_error (GeolocationManager.createBoundaryCircle this) 16 = Some v).
  { unfold GeolocationManager.createBoundaryCircle. cbv zeta.
    rewrite nth_error_map_seq by lia. f_equal.
    unfold Math.cos, Math.sin, Math.PI. cbn [lng lat]. fold Rk.
    replace (INR 16 / 64 * (2 * PI)) with (PI / 2) by (simpl; field).
    rewrite cos_PI2, sin_PI2. unfold v. f_equal; ring. }
  assert (Hd : distanceKm v (centerPoint this) = Rk * (6371 * PI / (180 * 110.574))).
  { unfold distanceKm, v. cbn [fst snd].
    rewrite calculateDistance_sym, calculateDistance_meridian by lra.
    unfold toRad, Math.PI. lra. }
  exists v. split; [exact Hv |]. split; [reflexivity |]. split; [exact Hd |].
  destruct (GeolocationManager.isWithinBoundary this v) eqn:Hin; [| reflexivity].
  apply isWithinBoundary_true in Hin. rewrite Hd in Hin. fold Rk in Hin.
  exfalso.
  assert (Hk : 1 < 6371 * PI / (180 * 110.574)).
  { apply Rmult_lt_reg_r with (180 * 110.574); [lra |].
    unfold Rdiv. rewrite Rmult_assoc, Rinv_l by lra. lra. }
  nra.
Qed.

Lemma boundary_north_vertex_outside_witness :
  0 < boundaryRadius GeolocationManager.new < 19000 /\
  exists v : Coord,
    nth_error (GeolocationManager.createBoundaryCircle GeolocationManager.new) 16 = Some v /\
    GeolocationManager.isWithinBoundary GeolocationManager.new v = false.
Proof.
  assert (H : 0 < boundaryRadius GeolocationManager.new < 19000)
    by (simpl; unfold CONFIG.MAP.boundary.radius; lra).
  split; [exact H |].
  destruct (boundary_north_vertex_outside GeolocationManager.new H) as [v [Hv [_ [_ Hout]]]].
  exists v. split; [exact Hv | exact Hout].
Defined.

(** ** The tracking listeners *)

(** X7. The first in-bounds fix of a session with no popup open issues
    exactly one camera command, the fly-to to the user (zoom 17.5, pitch
    45, 2000 ms, bearing the heading or 0), and consumes [isFirstLocation];
    no later in-bounds fix issues a fly-to for as long as the session runs,
    that is, until tracking ends or a fix leaves the boundary. *)
Theorem first_fix_flies_once :
  forall (w : World) (position : GeolocationManager.Position),
    GeolocationManager.isWithinBoundary (gm w) (userPositionOf position) = true ->
    isPopupOpen (gm w) = false ->
    isFirstLocation (gm w) = true ->
    let w' := exec (GeolocationManager.handleUserLocation position) w in
    cameraCommands (emitted (GeolocationManager.handleUserLocation position) w) =
      [MapFlyTo (mkCamera (Some (userPositionOf position)) (Some 17.5) (Some 45)
                          (Some (match GeolocationManager.heading position with
                                 | Some h => h
                                 | None => 0
                                 end))
                          (Some 2000) None None false)] /\
    isFirstLocation (gm w') = false /\
    (forall (es : list Event) (next : GeolocationManager.Position),
        Forall (keeps_session (gm w)) es ->
        let w'' := exec (run es) w' in
        GeolocationManager.isWithinBoundary (gm w) (userPositionOf next) = true ->
        existsb is_flyTo (emitted (GeolocationManager.handleUserLocation next) w'') = false).
Proof.
  intros w position Hin Hpop Hfirst w'.
  destruct (first_fix_commands position w Hin Hpop Hfirst) as [Hfly Hflag].
  fold w' in Hflag.
  split; [exact Hfly | split; [exact Hflag |]].
  intros es next Hkeep w'' Hin'.
  destruct (dispatch_boundary (Geolocate position) w) as [Hc1 Hr1].
  change (exec (dispatch (Geolocate position)) w) with w' in Hc1, Hr1.
  destruct (run_boundary es w') as [Hc2 Hr2]. fold w'' in Hc2, Hr2.
  assert (Hflag' : isFirstLocation (gm w'') = false).
  { destruct (run_frame es w') as [_ [H _]]. apply H; [| exact Hflag].
    eapply Forall_impl; [| exact Hkeep].
    intro e. apply keeps_session_ext; assumption. }
  assert (Hin'' : GeolocationManager.isWithinBoundary (gm w'') (userPositionOf next) = true).
  { rewrite (isWithinBoundary_ext (gm w) (gm w'')); [exact Hin' | congruence | congruence]. }
  rewrite emitted_handleUserLocation, Hin''.
  rewrite existsb_app, no_flyTo_searchRadius.
  unfold followCommands. rewrite Hflag'.
  destruct (isPopupOpen (gm w'')); [reflexivity |].
  destruct (num_gt _ 0.05); reflexivity.
Qed.

Lemma first_fix_flies_once_witness :
  let C := CONFIG.MAP.boundary.center in
  let w := initialWorld (toLngLat CONFIG.MAP.center) in
  GeolocationManager.isWithinBoundary (gm w) (userPositionOf (fixAt C)) = true /\
  isPopupOpen (gm w) = false /\
  isFirstLocation (gm w) = true /\
  isFirstLocation (gm (exec (GeolocationManager.handleUserLocation (fixAt C)) w)) = false /\
  Forall (keeps_session (gm w)) [TrackUserLocationStart; Geolocate (fixAt C)] /\
  existsb is_flyTo
    (emitted (GeolocationManager.handleUserLocation (fixAt C))
       (exec (run [TrackUserLocationStart; Geolocate (fixAt C)])
          (exec (GeolocationManager.handleUserLocation (fixAt C)) w))) = false.
Proof.
  intros C w.
  assert (Hin : GeolocationManager.isWithinBoundary (gm w) (userPositionOf (fixAt C)) = true).
  { apply isWithinBoundary_true. unfold distanceKm.
    change (centerPoint (gm w)) with C. change (userPositionOf (fixAt C)) with C.
    rewrite calculateDistance_self. simpl. unfold CONFIG.MAP.boundary.radius. lra. }
  assert (Hkeep : Forall (keeps_session (gm w)) [TrackUserLocationStart; Geolocate (fixAt C)]).
  { repeat constructor. exact Hin. }
  split; [exact Hin | split; [reflexivity | split; [reflexivity |]]].
  destruct (first_fix_flies_once w (fixAt C) Hin eq_refl eq_refl) as [_ [Hflag Hlater]].
  split; [exact Hflag |]. split; [exact Hkeep |].
  exact (Hlater [TrackUserLocationStart; Geolocate (fixAt C)] (fixAt C) Hkeep Hin).
Defined.

(** X8. A fix outside the boundary that arrives while tracking ends the
    session on the spot: [handleUserLocation] triggers the geolocate
    control, whose [trackuserlocationend] listener runs inside the call, and
    then shows the boundary popup.  The camera is told to reset bearing and
    pitch and then to fly to the boundary centre at zoom 14, never to the
    user; the search radius is emptied (when its sources exist), every
    distance marker is removed, tracking is off and the first-fix flag is
    re-armed; the features are left as they were. *)
Theorem out_of_bounds_fix_ends_session :
  forall (w : World) (position : GeolocationManager.Position),
    GeolocationManager.isWithinBoundary (gm w) (userPositionOf position) = false ->
    isTracking (gm w) = true ->
    let w' := exec (GeolocationManager.handleUserLocation position) w in
    let cmds := emitted (GeolocationManager.handleUserLocation position) w in
    w' = exec GeolocationManager.showBoundaryPopup
           (exec GeolocationManager.on_trackuserlocationend
              (exec (emit GeolocateTrigger) w)) /\
    hd_error cmds = Some GeolocateTrigger /\
    In BoundaryPopup cmds /\
    cameraCommands cmds =
      [MapEaseTo (mkCamera None None (Some 45) (Some 0) None None None false);
       MapFlyTo (mkCamera (Some (centerPoint (gm w))) (Some 14) (Some 0) (Some 0)
                          (Some 1500) None None false)] /\
    (forall sourceId ring, In (SourceSetData sourceId ring) cmds -> ring = []) /\
    (map_loaded w = true -> searchRadiusId (gm w) = "search-radius"%string ->
     In (SourceSetData "search-radius" []) cmds) /\
    isTracking (gm w') = false /\
    isFirstLocation (gm w') = true /\
    distanceMarkers (gm w') = [] /\
    map_markers w' = removeAll (distanceMarkers (gm w)) (map_markers w) /\
    features w' = features w.
Proof.
  intros w position Hout Htrack w' cmds.
  assert (Hcmds : cmds = outOfBoundsCommands w)
    by (unfold cmds; rewrite emitted_handleUserLocation, Hout; reflexivity).
  assert (Hw' : w' = with_trace (trace (triggered w) ++ boundaryPopupCommands (triggered w))
                       (triggered w)).
  { unfold w'. rewrite handleUserLocation_exec. unfold userLocationHandled.
    fold (userPositionOf position). rewrite Hout. reflexivity. }
  assert (Htrig : triggered w =
                  exec GeolocationManager.on_trackuserlocationend
                    (exec (emit GeolocateTrigger) w)).
  { rewrite on_trackuserlocationend_exec. unfold triggered. rewrite Htrack. reflexivity. }
  destruct (out_of_bounds_rearms position w Hout Htrack) as [Hoff Hfirst].
  fold w' in Hoff, Hfirst.
  destruct (triggered_markers w) as [Hdm Hmm]. rewrite Htrack in Hdm, Hmm.
  destruct (triggered_frame w) as [Hf _].
  split; [| split; [| split; [| split; [| split; [| split]]]]].
  - rewrite Hw', showBoundaryPopup_exec, <- Htrig. reflexivity.
  - rewrite Hcmds. reflexivity.
  - rewrite Hcmds. unfold outOfBoundsCommands, boundaryPopupCommands.
    apply in_or_app. right. apply in_or_app. right. left. reflexivity.
  - rewrite Hcmds. unfold outOfBoundsCommands, toggleCommands, boundaryPopupCommands,
      clearRadiusCommands.
    rewrite Htrack.
    destruct (hasSource (map_loaded w) (searchRadiusId (gm w)));
      destruct (hasLayer (map_loaded w) "boundary-fill"); reflexivity.
  - intros sourceId ring Hin. rewrite Hcmds in Hin.
    unfold outOfBoundsCommands, toggleCommands, boundaryPopupCommands,
      clearRadiusCommands in Hin.
    rewrite Htrack in Hin.
    destruct (hasSource (map_loaded w) (searchRadiusId (gm w)));
      destruct (hasLayer (map_loaded w) "boundary-fill"); simpl in Hin;
      repeat (destruct Hin as [Hin | Hin];
              [first [discriminate Hin | injection Hin as _ Hr; symmetry; exact Hr] |]);
      contradiction.
  - intros Hl Hid. rewrite Hcmds.
    unfold outOfBoundsCommands, toggleCommands, clearRadiusCommands, hasSource.
    rewrite Htrack, Hl, Hid. simpl. right. right. right. left. reflexivity.
  - split; [exact Hoff |]. split; [exact Hfirst |].
    rewrite Hw'. rewrite <- Hdm, <- Hmm, <- Hf.
    destruct (triggered w); auto.
Qed.

Lemma out_of_bounds_fix_ends_session_witness :
  let C := CONFIG.MAP.boundary.center in
  let w := trackingWorld (toLngLat C) [] in
  let position := fixAt (north_of C 3) in
  GeolocationManager.isWithinBoundary (gm w) (userPositionOf position) = false /\
  isTracking (gm w) = true /\
  cameraCommands (emitted (GeolocationManager.handleUserLocation position) w) =
    [MapEaseTo (mkCamera None None (Some 45) (Some 0) None None None false);
     MapFlyTo (mkCamera (Some C) (Some 14) (Some 0) (Some 0) (Some 1500) None None false)].
Proof.
  intros C w position.
  assert (Hout : GeolocationManager.isWithinBoundary (gm w) (userPositionOf position) = false).
  { rewrite (isWithinBoundary_ext GeolocationManager.new (gm w) _ eq_refl eq_refl).
    change (userPositionOf position) with (north_of C 3).
    unfold C. rewrite north_of_boundary by lra.
    destruct (Rle_dec 3 2.2); [lra | reflexivity]. }
  split; [exact Hout |]. split; [reflexivity |].
  exact (proj1 (proj2 (proj2 (proj2
           (out_of_bounds_fix_ends_session w position Hout eq_refl))))).
Defined.

(** X9. While a feature popup is open an in-bounds fix moves nothing: no
    camera command is issued and [isFirstLocation] keeps its value, so the
    first fly-to is still due after the popup closes; the distance markers
    are refreshed all the same. *)
Theorem popup_open_suppresses_camera :
  forall (w : World) (position : GeolocationManager.Position),
    GeolocationManager.isWithinBoundary (gm w) (userPositionOf position) = true ->
    isPopupOpen (gm w) = true ->
    let w' := exec (GeolocationManager.handleUserLocation position) w in
    cameraCommands (emitted (GeolocationManager.handleUserLocation position) w) = [] /\
    isFirstLocation (gm w') = isFirstLocation (gm w) /\
    proximityFeatures w' =
      filter (qualifies (radiusInMeters (gm w)) (userPositionOf position)) (features w) /\
    (isFirstLocation (gm w) = true ->
     cameraCommands
       (emitted (GeolocationManager.handleUserLocation position)
                (exec (dispatch PopupClosed) w')) =
     [GeolocationManager.flyToUser position]).
Proof.
  intros w position Hin Hpop w'.
  assert (Hw' : w' = markersUpdated (userPositionOf position)
                       (with_trace (trace w ++ searchRadiusCommands w (userPositionOf position)) w)).
  { unfold w'. rewrite handleUserLocation_exec. unfold userLocationHandled.
    fold (userPositionOf position). rewrite Hin. unfold cameraFollowed.
    replace (isPopupOpen (gm (markersUpdated _ _))) with (isPopupOpen (gm w))
      by (open_world w; reflexivity).
    rewrite Hpop. reflexivity. }
  split; [| split; [| split]].
  - rewrite emitted_handleUserLocation, Hin.
    rewrite cameraCommands_app, cameraCommands_searchRadius.
    unfold followCommands. rewrite Hpop. reflexivity.
  - rewrite Hw'. open_world w. reflexivity.
  - rewrite Hw'. unfold proximityFeatures, markersUpdated. cbn [gm distanceMarkers set_distanceMarkers].
    rewrite newMarkers_features. open_world w. reflexivity.
  - intro Hfirst.
    set (w2 := exec (dispatch PopupClosed) w').
    assert (Hg2 : gm w2 = set_isPopupOpen false (gm w')) by reflexivity.
    assert (Hin2 : GeolocationManager.isWithinBoundary (gm w2) (userPositionOf position) = true).
    { rewrite Hg2, Hw'. unfold GeolocationManager.isWithinBoundary in *.
      open_world w. exact Hin. }
    rewrite emitted_handleUserLocation, Hin2.
    rewrite cameraCommands_app, cameraCommands_searchRadius.
    unfold followCommands. rewrite Hg2, Hw'.
    open_world w. simpl in Hfirst. subst. reflexivity.
Qed.

Lemma popup_open_suppresses_camera_witness :
  let C := CONFIG.MAP.boundary.center in
  let w := exec (dispatch PopupOpened) (initialWorld (toLngLat CONFIG.MAP.center)) in
  GeolocationManager.isWithinBoundary (gm w) (userPositionOf (fixAt C)) = true /\
  isPopupOpen (gm w) = true /\
  cameraCommands (emitted (GeolocationManager.handleUserLocation (fixAt C)) w) = [].
Proof.
  intros C w.
  assert (Hin : GeolocationManager.isWithinBoundary (gm w) (userPositionOf (fixAt C)) = true).
  { apply isWithinBoundary_true. unfold distanceKm.
    change (centerPoint (gm w)) with C. change (userPositionOf (fixAt C)) with C.
    rewrite calculateDistance_self. simpl. unfold CONFIG.MAP.boundary.radius. lra. }
  split; [exact Hin | split; [reflexivity |]].
  exact (proj1 (popup_open_suppresses_camera w (fixAt C) Hin eq_refl)).
Defined.

(** X10. The end of tracking resets the session from any state: tracking
    off, first-fix flag re-armed, no distance marker left in the list or on
    the map (other markers stay), one camera command resetting bearing 0 and
    pitch 45; and the next in-bounds fix with no popup open flies to the
    user again. *)
Theorem tracking_end_resets_session :
  forall w : World,
    let w' := exec GeolocationManager.on_trackuserlocationend w in
    isTracking (gm w') = false /\
    isFirstLocation (gm w') = true /\
    distanceMarkers (gm w') = [] /\
    (forall m, In m (distanceMarkers (gm w)) -> ~ In m (map_markers w')) /\
    (forall m, In m (map_markers w) ->
               ~ In (markerId m) (map markerId (distanceMarkers (gm w))) ->
               In m (map_markers w')) /\
    cameraCommands (emitted GeolocationManager.on_trackuserlocationend w) =
      [MapEaseTo (mkCamera None None (Some 45) (Some 0) None None None false)] /\
    features w' = features w /\
    isPopupOpen (gm w') = isPopupOpen (gm w) /\
    (forall position : GeolocationManager.Position,
        GeolocationManager.isWithinBoundary (gm w) (userPositionOf position) = true ->
        isPopupOpen (gm w) = false ->
        cameraCommands (emitted (GeolocationManager.handleUserLocation position) w') =
        [GeolocationManager.flyToUser position]).
Proof.
  intro w. cbv zeta. rewrite on_trackuserlocationend_exec.
  assert (Hem : emitted GeolocationManager.on_trackuserlocationend w =
                [ConsoleLog "Location tracking ended";
                 MapEaseTo (mkCamera None None (Some 45) (Some 0) None None None false)] ++
                clearRadiusCommands (gm w) (map_loaded w)).
  { apply emitted_of_trace. rewrite on_trackuserlocationend_exec. reflexivity. }
  repeat split; try (open_world w; reflexivity).
  - intros m Hm Hin. unfold trackingEnded, removeAll in Hin. cbn [map_markers] in Hin.
    apply filter_In in Hin. destruct Hin as [_ Hneg].
    apply negb_true_iff in Hneg.
    assert (Hex : existsb (fun m0 => Nat.eqb (markerId m) (markerId m0))
                          (distanceMarkers (gm w)) = true).
    { apply existsb_exists. exists m. split; [exact Hm | apply Nat.eqb_refl]. }
    rewrite Hex in Hneg. discriminate.
  - intros m Hm Hfree. unfold trackingEnded, removeAll. cbn [map_markers].
    apply filter_In. split; [exact Hm |]. apply negb_true_iff.
    destruct (existsb _ (distanceMarkers (gm w))) eqn:Hex; [| reflexivity].
    apply existsb_exists in Hex. destruct Hex as [m0 [Hm0 Heq]].
    apply Nat.eqb_eq in Heq. exfalso. apply Hfree. rewrite Heq.
    apply in_map. exact Hm0.
  - rewrite Hem. unfold clearRadiusCommands.
    destruct (hasSource (map_loaded w) (searchRadiusId (gm w))); reflexivity.
  - intros position Hin Hpop.
    assert (Hin' : GeolocationManager.isWithinBoundary (gm (trackingEnded w))
                     (userPositionOf position) = true)
      by (unfold GeolocationManager.isWithinBoundary in *; open_world w; exact Hin).
    rewrite emitted_handleUserLocation, Hin'.
    rewrite cameraCommands_app, cameraCommands_searchRadius.
    unfold followCommands.
    replace (isPopupOpen (gm (trackingEnded w))) with (isPopupOpen (gm w))
      by (open_world w; reflexivity).
    rewrite Hpop.
    replace (isFirstLocation (gm (trackingEnded w))) with true
      by (open_world w; reflexivity).
    reflexivity.
Qed.

Lemma tracking_end_resets_session_witness :
  let C := CONFIG.MAP.boundary.center in
  let w := trackingWorld (toLngLat C) [] in
  GeolocationManager.isWithinBoundary (gm w) (userPositionOf (fixAt C)) = true /\
  isPopupOpen (gm w) = false /\
  cameraCommands (emitted (GeolocationManager.handleUserLocation (fixAt C))
                          (exec GeolocationManager.on_trackuserlocationend w)) =
  [GeolocationManager.flyToUser (fixAt C)].
Proof.
  intros C w.
  assert (Hin : GeolocationManager.isWithinBoundary (gm w) (userPositionOf (fixAt C)) = true).
  { apply isWithinBoundary_true. unfold distanceKm.
    change (centerPoint (gm w)) with C. change (userPositionOf (fixAt C)) with C.
    rewrite calculateDistance_self. simpl. unfold CONFIG.MAP.boundary.radius. lra. }
  split; [exact Hin | split; [reflexivity |]].
  destruct (tracking_end_resets_session w) as [_ [_ [_ [_ [_ [_ [_ [_ H]]]]]]]].
  exact (H (fixAt C) Hin eq_refl).
Defined.

(** X11. A heading update turns the camera (bearing the heading or 0,
    duration 0) exactly while tracking is on and no popup is open: it does
    so right after [trackuserlocationstart] with no popup open, and never
    after [trackuserlocationend]; it changes nothing else. *)
Theorem heading_update_only_while_tracking :
  forall (w : World) (position : GeolocationManager.Position),
    let bearingEase :=
      MapEaseTo (mkCamera None None None
                          (Some (match GeolocationManager.heading position with
                                 | Some h => h
                                 | None => 0
                                 end))
                          (Some 0) None None false) in
    let update := GeolocationManager.on_trackuserlocationupdate position in
    (emitted update w = [bearingEase] <->
     isPopupOpen (gm w) = false /\ isTracking (gm w) = true) /\
    (emitted update w = [] <->
     isPopupOpen (gm w) = true \/ isTracking (gm w) = false) /\
    exec update w = with_trace (trace w ++ emitted update w) w /\
    (isPopupOpen (gm w) = false ->
     emitted update (exec GeolocationManager.on_trackuserlocationstart w) = [bearingEase]) /\
    emitted update (exec GeolocationManager.on_trackuserlocationend w) = [].
Proof.
  intros w position bearingEase update.
  assert (Hem : forall w0,
             emitted update w0 =
             if negb (isPopupOpen (gm w0)) && isTracking (gm w0)
             then [bearingEase] else []).
  { intro w0. apply emitted_of_trace. unfold update.
    rewrite on_trackuserlocationupdate_exec. open_world w0. reflexivity. }
  split; [| split; [| split; [| split]]].
  - rewrite Hem. destruct (isPopupOpen (gm w)), (isTracking (gm w)); simpl;
      split; intro H; try discriminate; auto; destruct H; discriminate.
  - rewrite Hem. destruct (isPopupOpen (gm w)), (isTracking (gm w)); simpl;
      split; intro H; try discriminate; auto; destruct H; discriminate.
  - unfold update at 1. rewrite on_trackuserlocationupdate_exec, Hem. reflexivity.
  - intro Hpop. rewrite Hem, on_trackuserlocationstart_exec.
    open_world w. simpl in *. subst. reflexivity.
  - rewrite Hem, on_trackuserlocationend_exec. open_world w. simpl.
    rewrite andb_false_r. reflexivity.
Qed.

Lemma heading_update_only_while_tracking_witness :
  let w := initialWorld (toLngLat CONFIG.MAP.center) in
  let position := fixAt CONFIG.MAP.boundary.center in
  isPopupOpen (gm w) = false /\
  emitted (GeolocationManager.on_trackuserlocationupdate position)
          (exec GeolocationManager.on_trackuserlocationstart w) =
  [MapEaseTo (mkCamera None None None (Some 0) (Some 0) None None false)].
Proof.
  intros w position. split; [reflexivity |].
  destruct (heading_update_only_while_tracking w position) as [_ [_ [_ [H _]]]].
  exact (H eq_refl).
Defined.

(** X12. Before the map's load callbacks have added the radius sources,
    [updateSearchRadius] and [clearSearchRadius] send nothing and change
    nothing.  Afterwards [updateSearchRadius] sends one and the same
    65-entry ring to the two radius sources, and [clearSearchRadius] the
    empty ring to both. *)
Theorem search_radius_needs_sources :
  forall (w : World) (center : Coord),
    searchRadiusId (gm w) = "search-radius"%string ->
    searchRadiusOuterId (gm w) = "search-radius-outer"%string ->
    (map_loaded w = false ->
     exec (GeolocationManager.updateSearchRadius center) w = w /\
     exec GeolocationManager.clearSearchRadius w = w) /\
    (map_loaded w = true ->
     (exists ring,
         List.length ring = 65%nat /\
         emitted (GeolocationManager.updateSearchRadius center) w =
         [SourceSetData "search-radius" ring; SourceSetData "search-radius-outer" ring]) /\
     emitted GeolocationManager.clearSearchRadius w =
       [SourceSetData "search-radius" []; SourceSetData "search-radius-outer" []]).
Proof.
  intros w center Hid Hout. split.
  - intro Hl. rewrite updateSearchRadius_exec, clearSearchRadius_exec.
    unfold searchRadiusCommands, clearRadiusCommands, hasSource. rewrite Hl. simpl.
    rewrite app_nil_r. destruct w; auto.
  - intro Hl. split.
    + exists (GeolocationManager.generateCircle center (radiusInMeters (gm w)) 64).
      split.
      * unfold GeolocationManager.generateCircle. cbv zeta.
        rewrite length_app, !length_map, length_seq. reflexivity.
      * apply emitted_of_trace. rewrite updateSearchRadius_exec.
        unfold searchRadiusCommands, hasSource. rewrite Hl, Hid, Hout.
        destruct w; reflexivity.
    + apply emitted_of_trace. rewrite clearSearchRadius_exec.
      unfold clearRadiusCommands, hasSource. rewrite Hl, Hid, Hout.
      destruct w; reflexivity.
Qed.

Lemma search_radius_needs_sources_witness :
  let w := initialWorld (toLngLat CONFIG.MAP.center) in
  let w1 := trackingWorld (toLngLat CONFIG.MAP.center) [] in
  (searchRadiusId (gm w) = "search-radius"%string /\
   searchRadiusOuterId (gm w) = "search-radius-outer"%string /\
   map_loaded w = false /\
   exec (GeolocationManager.updateSearchRadius CONFIG.MAP.center) w = w) /\
  (searchRadiusId (gm w1) = "search-radius"%string /\
   searchRadiusOuterId (gm w1) = "search-radius-outer"%string /\
   map_loaded w1 = true /\
   emitted GeolocationManager.clearSearchRadius w1 =
     [SourceSetData "search-radius" []; SourceSetData "search-radius-outer" []]).
Proof.
  intros w w1. split.
  - split; [reflexivity | split; [reflexivity | split; [reflexivity |]]].
    exact (proj1 (proj1 (search_radius_needs_sources w CONFIG.MAP.center eq_refl eq_refl)
                    eq_refl)).
  - split; [reflexivity | split; [reflexivity | split; [reflexivity |]]].
    exact (proj2 (proj2 (search_radius_needs_sources w1 CONFIG.MAP.center eq_refl eq_refl)
                    eq_refl)).
Defined.

(** ** The drift guard and the follow camera *)

Lemma emitted_CameraMoved (c : LngLat) (easing : bool) (w : World) :
  emitted (dispatch (CameraMoved c easing)) w = [].
Proof.
  apply emitted_of_trace. rewrite app_nil_r. destruct w; reflexivity.
Qed.

Lemma emitted_on_moveend (w : World) :
  emitted on_moveend w =
  if map_easing w then []
  else if num_gt (distanceKm (lng (map_center w), lat (map_center w))
                             CONFIG.MAP.boundary.center) 1
       then driftCorrection else [].
Proof.
  apply emitted_of_trace. rewrite on_moveend_exec.
  destruct (map_easing w); [rewrite app_nil_r; reflexivity |].
  destruct (num_gt _ 1); [destruct w; reflexivity | rewrite app_nil_r; reflexivity].
Qed.

(** X13. The boundary (2.2 km) is wider than the drift guard (1 km): when
    the first in-bounds fix is more than 1 km from the boundary centre, the
    code flies the camera to the user (zoom 17.5, pitch 45, 2000 ms), and
    once the camera has arrived there and the movement settles, the drift
    guard blocks the page and flies the camera back to the default view
    centre (5.979642, 50.887634) at zoom 17. *)
Theorem far_in_bounds_fix_triggers_drift_guard :
  forall (w : World) (position : GeolocationManager.Position),
    let p := userPositionOf position in
    GeolocationManager.isWithinBoundary (gm w) p = true ->
    isPopupOpen (gm w) = false ->
    isFirstLocation (gm w) = true ->
    1 < distanceKm p CONFIG.MAP.boundary.center ->
    emitted (run [Geolocate position; CameraMoved (toLngLat p) false; MoveEnd]) w =
    searchRadiusCommands w p ++
    [ MapFlyTo (mkCamera (Some p) (Some 17.5) (Some 45)
                         (Some (match GeolocationManager.heading position with
                                | Some h => h
                                | None => 0
                                end))
                         (Some 2000) None None false);
      OverlayAppend "interaction-blocker";
      MapFlyTo (mkCamera (Some (5.979642, 50.887634)) (Some 17) (Some 45) (Some (-17.6))
                         None (Some 0.8) (Some 1.5) true);
      OverlayFade "interaction-blocker" 2 ] /\
    cameraCommands (searchRadiusCommands w p) = [].
Proof.
  intros w position p Hin Hpop Hfirst Hfar.
  split; [| apply cameraCommands_searchRadius].
  rewrite emitted_run_cons.
  change (dispatch (Geolocate position))
    with (GeolocationManager.handleUserLocation position).
  rewrite emitted_handleUserLocation. fold p. rewrite Hin.
  unfold followCommands. rewrite Hpop, Hfirst.
  rewrite <- app_assoc. f_equal.
  change [GeolocationManager.flyToUser position]
    with ([MapFlyTo (mkCamera (Some p) (Some 17.5) (Some 45)
                       (Some (match GeolocationManager.heading position with
                              | Some h => h
                              | None => 0
                              end))
                       (Some 2000) None None false)]).
  cbn [app]. f_equal.
  set (w1 := exec (GeolocationManager.handleUserLocation position) w).
  rewrite emitted_run_cons, emitted_CameraMoved. cbn [app].
  rewrite emitted_run_cons.
  change (emitted (run []) _) with
    (skipn (List.length (trace (exec (dispatch MoveEnd)
                                  (exec (dispatch (CameraMoved (toLngLat p) false)) w1))))
           (trace (exec (dispatch MoveEnd)
                     (exec (dispatch (CameraMoved (toLngLat p) false)) w1)))).
  rewrite skipn_all, app_nil_r.
  change (dispatch MoveEnd) with on_moveend.
  rewrite emitted_on_moveend.
  replace (map_easing (exec (dispatch (CameraMoved (toLngLat p) false)) w1)) with false
    by (destruct w1; reflexivity).
  replace (map_center (exec (dispatch (CameraMoved (toLngLat p) false)) w1))
    with (toLngLat p) by (destruct w1; reflexivity).
  replace (lng (toLngLat p), lat (toLngLat p)) with p by (destruct p; reflexivity).
  rewrite (proj2 (num_gt_true _ 1)) by lra. reflexivity.
Qed.

Lemma far_in_bounds_fix_triggers_drift_guard_witness :
  let C := CONFIG.MAP.boundary.center in
  let w := initialWorld (toLngLat CONFIG.MAP.center) in
  let position := fixAt (north_of C 1.5) in
  GeolocationManager.isWithinBoundary (gm w) (userPositionOf position) = true /\
  isPopupOpen (gm w) = false /\
  isFirstLocation (gm w) = true /\
  1 < distanceKm (userPositionOf position) C /\
  emitted (run [Geolocate position;
                CameraMoved (toLngLat (userPositionOf position)) false; MoveEnd]) w =
  [ MapFlyTo (mkCamera (Some (north_of C 1.5)) (Some 17.5) (Some 45) (Some 0)
                       (Some 2000) None None false);
    OverlayAppend "interaction-blocker";
    MapFlyTo (mkCamera (Some (5.979642, 50.887634)) (Some 17) (Some 45) (Some (-17.6))
                       None (Some 0.8) (Some 1.5) true);
    OverlayFade "interaction-blocker" 2 ].
Proof.
  intros C w position.
  assert (Hd : distanceKm (userPositionOf position) C = 1.5)
    by (change (userPositionOf position) with (north_of C 1.5); apply distance_north; lra).
  assert (Hin : GeolocationManager.isWithinBoundary (gm w) (userPositionOf position) = true).
  { apply isWithinBoundary_true. change (centerPoint (gm w)) with C. rewrite Hd.
    simpl. unfold CONFIG.MAP.boundary.radius. lra. }
  assert (Hfar : 1 < distanceKm (userPositionOf position) C) by lra.
  split; [exact Hin | split; [reflexivity | split; [reflexivity | split; [exact Hfar |]]]].
  exact (proj1 (far_in_bounds_fix_triggers_drift_guard w position Hin eq_refl eq_refl Hfar)).
Defined.

Lemma default_centre_near_boundary_centre :
  distanceKm CONFIG.MAP.center CONFIG.MAP.boundary.center <= 0.3.
Proof.
  unfold distanceKm, CONFIG.MAP.center, CONFIG.MAP.boundary.center. cbn [fst snd].
  pose proof PI_lt_315 as Hpi. pose proof PI_RGT_0 as Hpi0.
  eapply Rle_trans; [apply calculateDistance_manhattan |].
  rewrite (Rabs_right (50.88774161029858 - 50.887634)) by lra.
  rewrite (Rabs_left (5.977105864037915 - 5.979642)) by lra.
  lra.
Qed.

(** X14. The drift guard cannot feed itself: it issues nothing while the
    map is easing, and nothing once the camera is at the centre it flies to
    (the default view centre is within 0.3 km of the boundary centre, inside
    the 1 km zone and inside the boundary); so a correction followed by the
    camera's arrival issues no second correction. *)
Theorem drift_guard_settles :
  forall w : World,
    (map_easing w = true -> exec on_moveend w = w) /\
    (map_center w = toLngLat CONFIG.MAP.center -> exec on_moveend w = w) /\
    emitted (run [MoveEnd; CameraMoved (toLngLat CONFIG.MAP.center) false; MoveEnd]) w =
      emitted on_moveend w /\
    GeolocationManager.isWithinBoundary GeolocationManager.new CONFIG.MAP.center = true.
Proof.
  intro w.
  pose proof default_centre_near_boundary_centre as Hnear.
  assert (Hat : forall w0, map_center w0 = toLngLat CONFIG.MAP.center ->
                           exec on_moveend w0 = w0 /\ emitted on_moveend w0 = []).
  { intros w0 Hc. rewrite on_moveend_exec, emitted_on_moveend, Hc.
    change (lng (toLngLat CONFIG.MAP.center), lat (toLngLat CONFIG.MAP.center))
      with CONFIG.MAP.center.
    rewrite (proj2 (num_gt_false _ 1)) by lra.
    destruct (map_easing w0); auto. }
  split; [| split; [| split]].
  - intro He. rewrite on_moveend_exec, He. reflexivity.
  - intro Hc. apply Hat. exact Hc.
  - rewrite emitted_run_cons. change (dispatch MoveEnd) with on_moveend.
    rewrite emitted_run_cons, emitted_CameraMoved. cbn [app].
    rewrite emitted_run_cons. change (dispatch MoveEnd) with on_moveend.
    set (w2 := exec (dispatch (CameraMoved (toLngLat CONFIG.MAP.center) false))
                 (exec on_moveend w)).
    assert (Hc : map_center w2 = toLngLat CONFIG.MAP.center)
      by (unfold w2; destruct (exec on_moveend w); reflexivity).
    destruct (Hat w2 Hc) as [_ Hnone]. rewrite Hnone.
    change (emitted (run []) (exec on_moveend w2))
      with (skipn (List.length (trace (exec on_moveend w2))) (trace (exec on_moveend w2))).
    rewrite skipn_all, !app_nil_r. reflexivity.
  - apply isWithinBoundary_true.
    change (centerPoint GeolocationManager.new) with CONFIG.MAP.boundary.center.
    simpl boundaryRadius. unfold CONFIG.MAP.boundary.radius. lra.
Qed.

Lemma drift_guard_settles_witness :
  let w := initialWorld (toLngLat CONFIG.MAP.center) in
  let w1 := with_camera (toLngLat (north_of CONFIG.MAP.boundary.center 5)) true w in
  (map_center w = toLngLat CONFIG.MAP.center /\ exec on_moveend w = w) /\
  (map_easing w1 = true /\ exec on_moveend w1 = w1).
Proof.
  intros w w1. split.
  - split; [reflexivity |].
    exact (proj1 (proj2 (drift_guard_settles w)) eq_refl).
  - split; [reflexivity |].
    exact (proj1 (drift_guard_settles w1) eq_refl).
Defined.

(** ** The regular location list *)

Lemma some_has_id_true (fs : list Feature) (locationID : string) :
  some_has_id fs locationID = true <->
  exists f, In f fs /\ feature_id f = Some (PStr locationID).
Proof.
  unfold some_has_id. rewrite existsb_exists. split.
  - intros [f [Hin Heq]]. exists f. split; [exact Hin |].
    unfold feature_id, strict_eq_string in *.
    destruct (lookup "id" (properties f)) as [[t | n] |]; try discriminate.
    apply String.eqb_eq in Heq. subst. reflexivity.
  - intros [f [Hin Hid]]. exists f. split; [exact Hin |].
    unfold feature_id in Hid. rewrite Hid. simpl. apply String.eqb_refl.
Qed.

Lemma some_has_id_app (fs gs : list Feature) (locationID : string) :
  some_has_id fs locationID = true -> some_has_id (fs ++ gs) locationID = true.
Proof. unfold some_has_id. rewrite existsb_app. intros ->. reflexivity. Qed.

Lemma geoLoaded_keeps_ids (index : nat) (elements : list Element) (fs : list Feature)
      (locationID : string) :
  some_has_id fs locationID = true ->
  some_has_id (geoLoaded index elements fs) locationID = true.
Proof.
  intro H. destruct (geoLoaded_extends index elements fs) as [[added Ha] _].
  rewrite Ha. apply some_has_id_app. exact H.
Qed.

Lemma geoLoaded_step_has_id (fs : list Feature) (element : Element) (index : nat) :
  some_has_id
    (if negb (some_has_id fs (value element "#locationID"))
     then fs ++ [locationFeature element index] else fs)
    (value element "#locationID") = true.
Proof.
  destruct (some_has_id fs (value element "#locationID")) eqn:H; simpl; [exact H |].
  unfold some_has_id. rewrite existsb_app. simpl.
  rewrite String.eqb_refl. apply orb_true_r.
Qed.

Lemma geoLoaded_complete (index : nat) (elements : list Element) (fs : list Feature) :
  forall element, In element elements ->
    some_has_id (geoLoaded index elements fs) (value element "#locationID") = true.
Proof.
  revert index fs. induction elements as [| e rest IH]; intros index fs element Hin.
  - destruct Hin.
  - simpl. destruct Hin as [-> | Hin].
    + apply geoLoaded_keeps_ids, geoLoaded_step_has_id.
    + apply IH. exact Hin.
Qed.

Lemma geoLoaded_nothing_new (index : nat) (elements : list Element) (fs : list Feature) :
  (forall element, In element elements ->
     some_has_id fs (value element "#locationID") = true) ->
  geoLoaded index elements fs = fs.
Proof.
  revert index. induction elements as [| e rest IH]; intros index H; simpl; [reflexivity |].
  rewrite (H e) by (left; reflexivity). simpl.
  apply IH. intros element Hin. apply H. right. exact Hin.
Qed.

Lemma geoLoaded_length (index : nat) (elements : list Element) (fs : list Feature) :
  (List.length (geoLoaded index elements fs) <= List.length fs + List.length elements)%nat.
Proof.
  revert index fs. induction elements as [| e rest IH]; intros index fs; simpl; [lia |].
  destruct (some_has_id fs (value e "#locationID")); simpl.
  - specialize (IH (S index) fs). lia.
  - specialize (IH (S index) (fs ++ [locationFeature e index])).
    rewrite length_app in IH. simpl in IH. lia.
Qed.

(** X15. After [getGeoData] every record of the list has a feature with
    its location id in the collection (none is lost, whatever was there
    before), at most one feature is added per record, and loading a list
    whose ids are all present, in particular the same list again, changes
    nothing. *)
Theorem getGeoData_complete_and_idempotent :
  forall (w : World) (location_list : list Element),
    let w1 := exec (getGeoData location_list) w in
    (forall element, In element location_list ->
       exists f, In f (features w1) /\
                 feature_id f = Some (PStr (value element "#locationID"))) /\
    (List.length (features w1) <= List.length (features w) + List.length location_list)%nat /\
    exec (getGeoData location_list) w1 = w1 /\
    (forall again : list Element,
        (forall element, In element again ->
           exists f, In f (features w1) /\
                     feature_id f = Some (PStr (value element "#locationID"))) ->
        exec (getGeoData again) w1 = w1).
Proof.
  intros w location_list w1.
  assert (Hf : features w1 = geoLoaded 0 location_list (features w))
    by (unfold w1; rewrite getGeoData_exec; destruct w; reflexivity).
  assert (Hcomplete : forall element, In element location_list ->
            some_has_id (features w1) (value element "#locationID") = true)
    by (intros element Hin; rewrite Hf; apply geoLoaded_complete; exact Hin).
  assert (Hagain : forall again,
            (forall element, In element again ->
               some_has_id (features w1) (value element "#locationID") = true) ->
            exec (getGeoData again) w1 = w1).
  { intros again H. rewrite getGeoData_exec, geoLoaded_nothing_new by exact H.
    destruct w1; reflexivity. }
  split; [| split; [| split]].
  - intros element Hin. apply some_has_id_true, Hcomplete, Hin.
  - rewrite Hf. apply geoLoaded_length.
  - apply Hagain, Hcomplete.
  - intros again H. apply Hagain. intros element Hin.
    apply some_has_id_true, H, Hin.
Qed.

Lemma getGeoData_complete_and_idempotent_witness :
  let w1 := exec (getGeoData [sampleElement; sampleElement])
              (initialWorld (toLngLat CONFIG.MAP.center)) in
  In sampleElement [sampleElement; sampleElement] /\
  exists f, In f (features w1) /\
            feature_id f = Some (PStr (value sampleElement "#locationID")).
Proof.
  intro w1.
  assert (Hin : In sampleElement [sampleElement; sampleElement]) by (left; reflexivity).
  split; [exact Hin |].
  exact (proj1 (getGeoData_complete_and_idempotent
                  (initialWorld (toLngLat CONFIG.MAP.center))
                  [sampleElement; sampleElement]) sampleElement Hin).
Defined.

Lemma geoLoaded_provenance (index : nat) (elements : list Element) (fs : list Feature) :
  forall f, In f (geoLoaded index elements fs) ->
    In f fs \/
    exists i element,
      nth_error elements i = Some element /\
      f = locationFeature element (index + i) /\
      some_has_id fs (value element "#locationID") = false /\
      forall j earlier, (j < i)%nat -> nth_error elements j = Some earlier ->
                        value earlier "#locationID" <> value element "#locationID".
Proof.
  revert index fs. induction elements as [| e rest IH]; intros index fs f Hin.
  - left. exact Hin.
  - simpl in Hin. apply IH in Hin.
    pose proof (geoLoaded_step_has_id fs e index) as Hstep.
    destruct Hin as [Hin | [i [element [Hnth [Hf [Hnew Hfirst]]]]]].
    + destruct (some_has_id fs (value e "#locationID")) eqn:Hhas; simpl in Hin.
      * left. exact Hin.
      * apply in_app_or in Hin. destruct Hin as [Hin | [Heq | []]]; [left; exact Hin |].
        right. exists 0%nat, e. repeat split; auto.
        -- rewrite Nat.add_0_r. symmetry. exact Heq.
        -- intros j earlier Hj. lia.
    + right. exists (S i), element. split; [exact Hnth |]. split; [| split].
      * rewrite Hf. f_equal. lia.
      * destruct (some_has_id fs (value element "#locationID")) eqn:Hold; [| reflexivity].
        assert (Hcontra : some_has_id
                  (if negb (some_has_id fs (value e "#locationID"))
                   then fs ++ [locationFeature e index] else fs)
                  (value element "#locationID") = true).
        { destruct (negb (some_has_id fs (value e "#locationID")));
            [apply some_has_id_app |]; exact Hold. }
        rewrite Hcontra in Hnew. discriminate.
      * intros j earlier Hj Hnthj. destruct j as [| j].
        -- simpl in Hnthj. injection Hnthj as <-. intro Heq.
           rewrite <- Heq in Hnew. rewrite Hstep in Hnew. discriminate.
        -- simpl in Hnthj. apply (Hfirst j earlier); [lia | exact Hnthj].
Qed.

(** X16. Every feature that [getGeoData] adds is built from the first
    record with its location id, and its [arrayID] is the position of that
    record in the list, also when earlier duplicates were skipped. *)
Theorem getGeoData_feature_provenance :
  forall (w : World) (location_list : list Element) (f : Feature),
    In f (features (exec (getGeoData location_list) w)) ->
    In f (features w) \/
    exists (i : nat) (element : Element),
      nth_error location_list i = Some element /\
      f = locationFeature element i /\
      lookup "arrayID" (properties f) = Some (PNum i) /\
      feature_id f = Some (PStr (value element "#locationID")) /\
      (forall j earlier, (j < i)%nat -> nth_error location_list j = Some earlier ->
                         value earlier "#locationID" <> value element "#locationID") /\
      (forall g, In g (features w) ->
                 feature_id g <> Some (PStr (value element "#locationID"))).
Proof.
  intros w location_list f Hin.
  rewrite getGeoData_exec in Hin.
  replace (features (with_features (geoLoaded 0 location_list (features w)) w))
    with (geoLoaded 0 location_list (features w)) in Hin by (destruct w; reflexivity).
  apply geoLoaded_provenance in Hin.
  destruct Hin as [Hin | [i [element [Hnth [Hf [Hnew Hfirst]]]]]]; [left; exact Hin |].
  right. exists i, element. simpl in Hf.
  split; [exact Hnth |]. split; [exact Hf |]. split; [rewrite Hf; reflexivity |].
  split; [rewrite Hf; reflexivity |]. split; [exact Hfirst |].
  intros g Hg Hid.
  assert (Hhas : some_has_id (features w) (value element "#locationID") = true)
    by (apply some_has_id_true; exists g; auto).
  rewrite Hhas in Hnew. discriminate.
Qed.

Lemma getGeoData_feature_provenance_witness :
  let w := initialWorld (toLngLat CONFIG.MAP.center) in
  In (locationFeature sampleElement 0)
     (features (exec (getGeoData [sampleElement; sampleElement]) w)) /\
  (In (locationFeature sampleElement 0) (features w) \/
   exists (i : nat) (element : Element),
     nth_error [sampleElement; sampleElement] i = Some element /\
     locationFeature sampleElement 0 = locationFeature element i).
Proof.
  intro w.
  assert (Hin : In (locationFeature sampleElement 0)
                   (features (exec (getGeoData [sampleElement; sampleElement]) w)))
    by (rewrite getGeoData_exec; left; reflexivity).
  split; [exact Hin |].
  destruct (getGeoData_feature_provenance w [sampleElement; sampleElement]
              (locationFeature sampleElement 0) Hin) as [H | [i [element [H1 [H2 _]]]]].
  - left. exact H.
  - right. exists i, element. split; assumption.
Defined.

(** ** Sets, icons, marker layers and filters *)

Section JSSetFacts.

Context {A : Type} (eqb : A -> A -> bool).
Hypothesis eqb_eq : forall x y : A, eqb x y = true <-> x = y.

Lemma Set_has_In (s : list A) (x : A) : Set_has eqb s x = true <-> In x s.
Proof.
  unfold Set_has. rewrite existsb_exists. split.
  - intros [y [Hy He]]. apply eqb_eq in He. subst. exact Hy.
  - intro H. exists x. split; [exact H | apply eqb_eq; reflexivity].
Qed.

Lemma Set_add_spec (s : list A) (x : A) :
  (NoDup s -> NoDup (Set_add eqb s x)) /\
  (forall y, In y (Set_add eqb s x) <-> In y s \/ y = x).
Proof.
  unfold Set_add. destruct (Set_has eqb s x) eqn:Hhas.
  - apply Set_has_In in Hhas. split; [auto |].
    intro y. split; [auto |]. intros [H | ->]; assumption.
  - assert (Hnot : ~ In x s)
      by (intro H; apply Set_has_In in H; rewrite H in Hhas; discriminate).
    split.
    + intro Hnd. apply NoDup_app; [exact Hnd | repeat constructor; simpl; tauto |].
      intros a Ha [<- | []]. exact (Hnot Ha).
    + intro y. rewrite in_app_iff. simpl. split; [intros [H | [H | []]]; auto |].
      intros [H | ->]; auto.
Qed.

Lemma Set_delete_spec (s : list A) (x : A) :
  (NoDup s -> NoDup (Set_delete eqb s x)) /\
  (forall y, In y (Set_delete eqb s x) <-> In y s /\ y <> x).
Proof.
  unfold Set_delete. split.
  - intro H. apply NoDup_filter. exact H.
  - intro y. rewrite filter_In. split.
    + intros [Hy Hn]. split; [exact Hy |]. intros ->.
      rewrite (proj2 (eqb_eq x x) eq_refl) in Hn. discriminate.
    + intros [Hy Hn]. split; [exact Hy |].
      destruct (eqb x y) eqn:He; [| reflexivity].
      apply eqb_eq in He. subst. contradiction.
Qed.

Lemma fold_Set_add (xs s : list A) :
  (NoDup s -> NoDup (fold_left (Set_add eqb) xs s)) /\
  (forall y, In y (fold_left (Set_add eqb) xs s) <-> In y s \/ In y xs).
Proof.
  revert s. induction xs as [| x xs IH]; intro s; simpl.
  - split; [auto |]. intro y. tauto.
  - destruct (IH (Set_add eqb s x)) as [Hnd Hin].
    destruct (Set_add_spec s x) as [Hnd1 Hin1]. split.
    + intro H. apply Hnd, Hnd1, H.
    + intro y. rewrite Hin, Hin1. split; [intros [[H | ->] | H] | intros [H | [<- | H]]]; auto.
Qed.

End JSSetFacts.

Lemma value_eqb_eq (a b : option PropValue) : value_eqb a b = true <-> a = b.
Proof.
  destruct a as [[s | n] |], b as [[t | m] |]; simpl; split; intro H;
    try discriminate; try reflexivity.
  - apply String.eqb_eq in H. subst. reflexivity.
  - injection H as ->. apply String.eqb_refl.
  - apply Nat.eqb_eq in H. subst. reflexivity.
  - injection H as ->. apply Nat.eqb_refl.
Qed.

Lemma page_forEach_emit {A : Type} (mk : A -> PageCommand) (xs : list A) (pg : Page) :
  page_forEach xs (fun x => page_emit (mk x)) pg =
  mkPage (markersAdded pg) (activeFilters pg) (page_trace pg ++ map mk xs).
Proof.
  unfold page_forEach. revert pg. induction xs as [| x xs IH]; intro pg; simpl.
  - rewrite app_nil_r. destruct pg; reflexivity.
  - rewrite IH. unfold page_emit. simpl. rewrite <- app_assoc. reflexivity.
Qed.

(** X17. [loadIcons] asks the map to load every icon that some feature
    uses, each one exactly once, and touches nothing else. *)
Theorem loadIcons_each_icon_once :
  forall (fs : list Feature) (pg : Page),
    exists icons : list (option PropValue),
      loadIcons fs pg =
        mkPage (markersAdded pg) (activeFilters pg)
               (page_trace pg ++ map MapLoadImage icons) /\
      NoDup icons /\
      (forall icon, In icon icons <->
                    exists f, In f fs /\ lookup "icon" (properties f) = icon).
Proof.
  intros fs pg.
  set (all := map (fun feature => lookup "icon" (properties feature)) fs).
  exists (Set_of value_eqb all).
  destruct (fold_Set_add value_eqb value_eqb_eq all []) as [Hnd Hin].
  split; [| split].
  - unfold loadIcons. fold all. apply page_forEach_emit.
  - apply Hnd. constructor.
  - intro icon. unfold Set_of. rewrite Hin. unfold all. rewrite in_map_iff.
    split.
    + intros [[] | [f [Hf Hi]]]. exists f. split; assumption.
    + intros [f [Hi Hf]]. right. exists f. split; assumption.
Qed.

(** X18. [addCustomMarkers] acts once: the first call adds the source
    [locations], the three marker layers on it and the fade-in, and sets
    [markersAdded]; every later call changes nothing. *)
Theorem addCustomMarkers_acts_once :
  forall pg : Page,
    markersAdded (addCustomMarkers pg) = true /\
    addCustomMarkers (addCustomMarkers pg) = addCustomMarkers pg /\
    (forall n : nat, Nat.iter (S n) addCustomMarkers pg = addCustomMarkers pg) /\
    (markersAdded pg = false ->
     page_trace (addCustomMarkers pg) =
       page_trace pg ++
       [MapAddSource "locations";
        MapAddLayer "location-markers" "locations";
        MapAddLayer "location-icons" "locations";
        MapAddLayer "location-labels" "locations";
        MarkersFadeIn]) /\
    (markersAdded pg = true -> addCustomMarkers pg = pg).
Proof.
  intro pg.
  assert (Hflag : markersAdded (addCustomMarkers pg) = true)
    by (unfold addCustomMarkers; destruct (markersAdded pg) eqn:H; [exact H | reflexivity]).
  assert (Hnoop : forall q, markersAdded q = true -> addCustomMarkers q = q)
    by (intros q H; unfold addCustomMarkers; rewrite H; reflexivity).
  split; [exact Hflag |]. split; [apply Hnoop, Hflag |]. split; [| split].
  - induction n as [| n IH]; [reflexivity |].
    change (Nat.iter (S (S n)) addCustomMarkers pg)
      with (addCustomMarkers (Nat.iter (S n) addCustomMarkers pg)).
    rewrite IH. apply Hnoop, Hflag.
  - intro H. unfold addCustomMarkers. rewrite H. cbv zeta.
    rewrite page_forEach_emit. simpl. rewrite <- !app_assoc. reflexivity.
  - apply Hnoop.
Qed.

Lemma addCustomMarkers_acts_once_witness :
  markersAdded initialPage = false /\
  page_trace (addCustomMarkers initialPage) =
    [MapAddSource "locations";
     MapAddLayer "location-markers" "locations";
     MapAddLayer "location-icons" "locations";
     MapAddLayer "location-labels" "locations";
     MarkersFadeIn].
Proof.
  split; [reflexivity |].
  exact (proj1 (proj2 (proj2 (proj2 (addCustomMarkers_acts_once initialPage)))) eq_refl).
Defined.

Lemma applyMapFilters_state (pg : Page) :
  activeFilters (applyMapFilters pg) = activeFilters pg /\
  markersAdded (applyMapFilters pg) = markersAdded pg.
Proof.
  unfold applyMapFilters. destruct (Nat.eqb (List.length (activeFilters pg)) 0); auto.
Qed.

Lemma filterButtonClick_active (category : string) (pg : Page) :
  activeFilters (filterButtonClick category pg) =
  if Set_has String.eqb (activeFilters pg) category
  then Set_delete String.eqb (activeFilters pg) category
  else Set_add String.eqb (activeFilters pg) category.
Proof.
  unfold filterButtonClick. cbv zeta.
  rewrite (proj1 (applyMapFilters_state _)). cbn [page_emit activeFilters].
  destruct (Set_has String.eqb (activeFilters pg) category); reflexivity.
Qed.

Lemma filterButtonClick_toggles (category : string) (pg : Page) :
  NoDup (activeFilters pg) ->
  NoDup (activeFilters (filterButtonClick category pg)) /\
  (In category (activeFilters (filterButtonClick category pg)) <->
   ~ In category (activeFilters pg)) /\
  (forall other, other <> category ->
     (In other (activeFilters (filterButtonClick category pg)) <->
      In other (activeFilters pg))).
Proof.
  intro Hnd. rewrite filterButtonClick_active.
  destruct (Set_has String.eqb (activeFilters pg) category) eqn:Hhas.
  - apply (Set_has_In String.eqb String.eqb_eq) in Hhas.
    destruct (Set_delete_spec String.eqb String.eqb_eq (activeFilters pg) category)
      as [H1 H2].
    split; [auto |]. split.
    + rewrite H2. tauto.
    + intros other Hne. rewrite H2. tauto.
  - assert (Hnot : ~ In category (activeFilters pg)).
    { intro H. apply (Set_has_In String.eqb String.eqb_eq) in H.
      rewrite H in Hhas. discriminate. }
    destruct (Set_add_spec String.eqb String.eqb_eq (activeFilters pg) category)
      as [H1 H2].
    split; [auto |]. split.
    + rewrite H2. tauto.
    + intros other Hne. rewrite H2. tauto.
Qed.

(** X19. Clicking filter buttons toggles categories: the active set never
    holds a category twice, and after any sequence of clicks a category is
    active exactly when its state was flipped an odd number of times;
    starting with no filter, a category is active iff it was clicked an odd
    number of times. *)
Theorem filter_clicks_parity :
  forall (categories : list string) (pg : Page) (c : string),
    NoDup (activeFilters pg) ->
    let pg' := filterButtonClicks categories pg in
    NoDup (activeFilters pg') /\
    (In c (activeFilters pg') <->
     (In c (activeFilters pg) <-> Nat.even (count_occ string_dec categories c) = true)) /\
    (activeFilters pg = [] ->
     (In c (activeFilters pg') <-> Nat.odd (count_occ string_dec categories c) = true)).
Proof.
  intros categories pg c Hnd pg'.
  assert (Hmain : forall cs q, NoDup (activeFilters q) ->
            NoDup (activeFilters (filterButtonClicks cs q)) /\
            (In c (activeFilters (filterButtonClicks cs q)) <->
             (In c (activeFilters q) <-> Nat.even (count_occ string_dec cs c) = true))).
  { induction cs as [| x cs IH]; intros q Hq.
    - simpl. split; [exact Hq |]. split; [intro H; split; auto | intros [_ H]; auto].
    - change (filterButtonClicks (x :: cs) q)
        with (filterButtonClicks cs (filterButtonClick x q)).
      destruct (filterButtonClick_toggles x q Hq) as [Hnd1 [Hself Hother]].
      destruct (IH (filterButtonClick x q) Hnd1) as [Hnd2 Hiff].
      split; [exact Hnd2 |]. rewrite Hiff. simpl.
      destruct (string_dec x c) as [Heq | Hne].
      + subst x. rewrite Nat.even_succ, <- Nat.negb_even.
        destruct (Nat.even (count_occ string_dec cs c)); simpl; rewrite Hself;
          destruct (in_dec string_dec c (activeFilters q)) as [Hi | Hi];
          intuition (try discriminate; try reflexivity).
      + assert (Hne' : c <> x) by congruence.
        rewrite (Hother c Hne'). reflexivity. }
  destruct (Hmain categories pg Hnd) as [H1 H2].
  split; [exact H1 |]. split; [exact H2 |].
  intro Hempty. fold pg' in H2. rewrite H2, Hempty, <- Nat.negb_even.
  destruct (Nat.even (count_occ string_dec categories c)); simpl; split.
  - intros [_ H]. exfalso. exact (H eq_refl).
  - discriminate.
  - reflexivity.
  - intros _. split; [intros [] | discriminate].
Qed.

Lemma filter_clicks_parity_witness :
  NoDup (activeFilters initialPage) /\
  activeFilters initialPage = [] /\
  (In "horeca"%string
      (activeFilters (filterButtonClicks ["horeca"; "kunst"; "horeca"; "horeca"]%string
                        initialPage)) <->
   Nat.odd (count_occ string_dec ["horeca"; "kunst"; "horeca"; "horeca"]%string
              "horeca"%string) = true).
Proof.
  assert (Hnd : NoDup (activeFilters initialPage)) by constructor.
  split; [exact Hnd | split; [reflexivity |]].
  exact (proj2 (proj2 (filter_clicks_parity ["horeca"; "kunst"; "horeca"; "horeca"]%string
                         initialPage "horeca"%string Hnd)) eq_refl).
Defined.

(** X20. Each click on a filter button gives the three marker layers one
    and the same filter, in the order markers, icons, labels: [null] exactly
    when no category is active after the click (so switching the last
    category off shows every marker again), and otherwise the [in]
    expression over the active categories in the order they were
    switched on. *)
Theorem filter_click_sets_three_layers :
  forall (c : string) (pg : Page),
    let pg' := filterButtonClick c pg in
    let F := match activeFilters pg' with
             | [] => ENull
             | _ => EArr [EStr "in"; EArr [EStr "get"; EStr "category"];
                          EArr [EStr "literal"; EArr (map EStr (activeFilters pg'))]]
             end in
    page_trace pg' =
      page_trace pg ++
      [ButtonToggleActive c;
       MapSetFilter "location-markers" F;
       MapSetFilter "location-icons" F;
       MapSetFilter "location-labels" F] /\
    (F = ENull <-> activeFilters pg' = []) /\
    (activeFilters pg = [c] -> F = ENull) /\
    markersAdded pg' = markersAdded pg.
Proof.
  intros c pg pg' F.
  assert (Hact : activeFilters pg' =
                 if Set_has String.eqb (activeFilters pg) c
                 then Set_delete String.eqb (activeFilters pg) c
                 else Set_add String.eqb (activeFilters pg) c)
    by apply filterButtonClick_active.
  assert (HF : F = ENull <-> activeFilters pg' = []).
  { unfold F. destruct (activeFilters pg'); split; intro H;
      try reflexivity; discriminate. }
  split; [| split; [exact HF | split]].
  - unfold F. rewrite Hact. unfold pg', filterButtonClick. cbv zeta.
    cbn [page_emit activeFilters markersAdded page_trace].
    destruct (Set_has String.eqb (activeFilters pg) c);
      unfold applyMapFilters; cbn [activeFilters page_emit page_trace markersAdded];
      match goal with
      | |- context [Nat.eqb (List.length ?l) 0] => destruct l
      end; simpl; rewrite <- !app_assoc; reflexivity.
  - intro Hone. apply HF. rewrite Hact, Hone.
    unfold Set_has, Set_delete. cbn [existsb filter].
    rewrite !String.eqb_refl. reflexivity.
  - unfold pg', filterButtonClick. cbv zeta.
    rewrite (proj2 (applyMapFilters_state _)).
    destruct (Set_has String.eqb _ c); reflexivity.
Qed.

Lemma filter_click_sets_three_layers_witness :
  let pg := filterButtonClick "horeca" initialPage in
  activeFilters pg = ["horeca"%string] /\
  page_trace (filterButtonClick "horeca" pg) =
    page_trace pg ++
    [ButtonToggleActive "horeca";
     MapSetFilter "location-markers" ENull;
     MapSetFilter "location-icons" ENull;
     MapSetFilter "location-labels" ENull].
Proof.
  intro pg.
  assert (Hone : activeFilters pg = ["horeca"%string]) by reflexivity.
  split; [exact Hone |].
  destruct (filter_click_sets_three_layers "horeca" pg) as [Htrace [_ [Hnull _]]].
  rewrite (Hnull Hone) in Htrace. exact Htrace.
Defined.

(** ** Distance markers and their labels *)

Lemma Math_round_near (x : R) :
  x - / 2 < IZR (Math.round x) <= x + / 2.
Proof.
  unfold Math.round, Int_part. rewrite minus_IZR.
  destruct (archimed (x + / 2)) as [H1 H2]. split; lra.
Qed.

Lemma newMarkers_In (p : Coord) (n : nat) (fs : list Feature) (m : Marker) :
  In m (newMarkers p n fs) ->
  In (markerFeature m) fs /\
  markerLngLat m = coordinates (markerFeature m) /\
  markerMeters m = Math.round (1000 * distanceKm p (coordinates (markerFeature m))).
Proof.
  revert n. induction fs as [| f fs IH]; intros n Hin; simpl in Hin; [destruct Hin |].
  destruct Hin as [<- | Hin].
  - simpl. auto.
  - destruct (IH (S n) Hin) as [H1 [H2 H3]]. split; [right; exact H1 | auto].
Qed.

(** X21. Every distance marker left by [updateDistanceMarkers] sits on the
    coordinates of a feature of the collection that is within the radius,
    and shows the distance rounded to the nearest metre: a whole number that
    is non-negative, within half a metre of the distance, and at most 25 for
    the radius of 25 m. *)
Theorem distance_marker_labels :
  forall (w : World) (userPosition : Coord) (m : Marker),
    In m (distanceMarkers (gm (exec (GeolocationManager.updateDistanceMarkers userPosition) w))) ->
    let meters := 1000 * distanceKm userPosition (coordinates (markerFeature m)) in
    In (markerFeature m) (features w) /\
    markerLngLat m = coordinates (markerFeature m) /\
    meters <= radiusInMeters (gm w) /\
    markerMeters m = Math.round meters /\
    (0 <= markerMeters m)%Z /\
    Rabs (IZR (markerMeters m) - meters) <= / 2 /\
    (radiusInMeters (gm w) = 25 -> (markerMeters m <= 25)%Z).
Proof.
  intros w p m Hin meters.
  rewrite updateDistanceMarkers_exec in Hin. unfold markersUpdated in Hin.
  cbn [gm distanceMarkers set_distanceMarkers] in Hin.
  apply newMarkers_In in Hin. destruct Hin as [Hf [Hc Hm]].
  apply filter_In in Hf. destruct Hf as [Hf Hq].
  apply qualifies_true in Hq. fold meters in Hq, Hm.
  pose proof (Math_round_near meters) as [Hlo Hhi]. rewrite <- Hm in Hlo, Hhi.
  assert (Hpos : 0 <= meters).
  { unfold meters, distanceKm.
    pose proof (calculateDistance_range (snd p) (fst p)
                  (snd (coordinates (markerFeature m)))
                  (fst (coordinates (markerFeature m)))) as [H0 _]. lra. }
  repeat split; auto.
  - assert (H : (-1 < markerMeters m)%Z) by (apply lt_IZR; lra). lia.
  - apply Rabs_le. lra.
  - intro Hr. assert (H : (markerMeters m < 26)%Z) by (apply lt_IZR; lra). lia.
Qed.

Lemma distance_marker_labels_witness :
  let C := CONFIG.MAP.boundary.center in
  let w := trackingWorld (toLngLat C) [mkFeature C []] in
  let m := mkMarker 0 (Math.round (1000 * distanceKm C C)) C (mkFeature C []) in
  In m (distanceMarkers (gm (exec (GeolocationManager.updateDistanceMarkers C) w))) /\
  radiusInMeters (gm w) = 25 /\
  (markerMeters m <= 25)%Z.
Proof.
  intros C w m.
  assert (Hq : qualifies (radiusInMeters (gm w)) C (mkFeature C []) = true).
  { apply qualifies_true. unfold distanceKm. cbn [coordinates].
    rewrite calculateDistance_self. simpl. lra. }
  assert (Hin : In m (distanceMarkers
                        (gm (exec (GeolocationManager.updateDistanceMarkers C) w)))).
  { rewrite updateDistanceMarkers_exec. unfold markersUpdated.
    cbn [gm distanceMarkers set_distanceMarkers].
    change (features w) with [mkFeature C []]. cbn [filter].
    rewrite Hq. left. reflexivity. }
  assert (Hr : radiusInMeters (gm w) = 25) by reflexivity.
  split; [exact Hin | split; [exact Hr |]].
  destruct (distance_marker_labels w C m Hin) as [_ [_ [_ [_ [_ [_ H]]]]]].
  exact (H Hr).
Defined.

(** ** Invariants of a session *)





